(** * Music file renamer: a shallow embedding of [music_renamer.py]

    The development follows the script leaf-first: Python's string
    primitives and the fragment of [re] the sanitizer uses, the sanitizer,
    the filename generator, the per-file pipeline, [pathlib]'s pure paths,
    the directory scanner and the copying executor over a finite-map file
    system.  Python [str] values are sequences of Unicode code points and
    are modelled as [list N]. *)

From Stdlib Require Import NArith ZArith Ascii String Bool Lia DecimalNat.
From stdpp Require Import base option list sorting lexico gmap.

Local Open Scope N_scope.

(** ** Strings *)

Abbreviation char := N (only parsing).
Abbreviation str := (list N) (only parsing).

(** An ASCII literal as a Python string. *)
Definition u (s : string) : str := map N_of_ascii (list_ascii_of_string s).

Definition QUOTE : char := 34.
Definition APOSTROPHE : char := 39.
Definition DASH : char := 45.
Definition DOT : char := 46.
Definition SLASH : char := 47.
Definition SPACE : char := 32.

Definition str_eqb (a b : str) : bool := bool_decide (a = b).

(** [a.startswith(b)] *)
Fixpoint startswith (s p : str) {struct p} : bool :=
  match p, s with
  | [], _ => true
  | _ :: _, [] => false
  | x :: p', y :: s' => (x =? y) && startswith s' p'
  end.

(** [a.endswith(b)] *)
Definition endswith (s p : str) : bool := startswith (rev s) (rev p).

(** [sub in s] *)
Fixpoint contains (sub s : str) : bool :=
  startswith s sub ||
  match s with
  | [] => false
  | _ :: s' => contains sub s'
  end.

(** [c in chars] for a single character. *)
Definition mem_char (c : char) (chars : str) : bool := existsb (N.eqb c) chars.

(** [s.replace(old, new)] for a non-empty [old]: scanning from the left,
    each occurrence of [old] is replaced and the scan resumes after it;
    [skip] counts the characters of the current occurrence still to drop. *)
Fixpoint replace_from (old new : str) (skip : nat) (s : str) : str :=
  match s with
  | [] => []
  | c :: s' =>
      match skip with
      | S k => replace_from old new k s'
      | O =>
          if startswith s old
          then new ++ replace_from old new (Nat.pred (length old)) s'
          else c :: replace_from old new O s'
      end
  end.

(** [s.replace(old, new)]; an empty [old] matches before every character
    and at the end. *)
Definition replace (old new s : str) : str :=
  match old with
  | [] => new ++ flat_map (fun c => c :: new) s
  | _ :: _ => replace_from old new O s
  end.

Fixpoint lstrip (chars s : str) : str :=
  match s with
  | [] => []
  | c :: s' => if mem_char c chars then lstrip chars s' else s
  end.

Definition rstrip (chars s : str) : str := rev (lstrip chars (rev s)).

(** [s.strip(chars)] *)
Definition strip (chars s : str) : str := rstrip chars (lstrip chars s).

(** [sep.join(items)] *)
Fixpoint join (sep : str) (items : list str) : str :=
  match items with
  | [] => []
  | [x] => x
  | x :: rest => x ++ sep ++ join sep rest
  end.

(** [str.lower()] on ASCII letters.  The script compares lower-cased text
    with ASCII extensions only, and no other code point lower-cases to one
    of their letters, so the comparisons come out as in Python. *)
Definition lower_char (c : char) : char :=
  if (65 <=? c) && (c <=? 90) then c + 32 else c.

Definition lower (s : str) : str := map lower_char s.

(** ASCII part of [str.upper()]. *)
Definition upper_char (c : char) : char :=
  if (97 <=? c) && (c <=? 122) then c - 32 else c.

Definition upper (s : str) : str := map upper_char s.

(** ** The fragment of [re] used by the sanitizer

    Every pattern in the script is a concatenation of greedy quantified
    character classes.  A pattern is a list of atoms; [a_max = None] is an
    unbounded repetition. *)

Record atom := Atom {
  a_class : char -> bool;
  a_min : nat;
  a_max : option nat
}.

Abbreviation regex := (list atom) (only parsing).

(** [\s] on [str] patterns: the code points for which [str.isspace()]
    holds. *)
Definition is_space (c : char) : bool :=
  ((9 <=? c) && (c <=? 13)) || ((28 <=? c) && (c <=? 32)) ||
  (c =? 133) || (c =? 160) || (c =? 5760) ||
  ((8192 <=? c) && (c <=? 8202)) ||
  (c =? 8232) || (c =? 8233) || (c =? 8239) || (c =? 8287) || (c =? 12288).

Definition is_char (x : char) : char -> bool := N.eqb x.

Definition lit (x : char) : atom := Atom (is_char x) 1 (Some 1%nat).
Definition star (p : char -> bool) : atom := Atom p 0 None.
Definition plus (p : char -> bool) : atom := Atom p 1 None.
Definition at_least (n : nat) (p : char -> bool) : atom := Atom p n None.
Definition one_of (chars : str) : atom :=
  Atom (fun c => mem_char c chars) 1 (Some 1%nat).

(** Length of the longest prefix of [s] in the class, capped by [cap]. *)
Fixpoint run_length (p : char -> bool) (cap : option nat) (s : str) : nat :=
  match cap, s with
  | Some O, _ => O
  | _, [] => O
  | _, c :: s' =>
      if p c then S (run_length p (Nat.pred <$> cap) s') else O
  end.

(** Greedy choice with backtracking: try to give the atom [lo + extra]
    characters, then [lo + extra - 1], ... down to [lo], and take the first
    count for which the continuation [k] matches. *)
Fixpoint try_down (k : nat -> option nat) (lo extra : nat) : option nat :=
  match k (lo + extra)%nat with
  | Some m => Some (lo + extra + m)%nat
  | None =>
      match extra with
      | O => None
      | S e => try_down k lo e
      end
  end.

(** [rmatch p s]: the length of the match of [p] anchored at the start of
    [s], as [re]'s backtracking matcher finds it. *)
Fixpoint rmatch (p : regex) (s : str) : option nat :=
  match p with
  | [] => Some O
  | a :: p' =>
      let n := run_length (a_class a) (a_max a) s in
      if (n <? a_min a)%nat then None
      else try_down (fun k => rmatch p' (drop k s)) (a_min a) (n - a_min a)
  end.

(** [re.sub(p, repl, s)] for a pattern that cannot match the empty string
    and a replacement without group references: leftmost matches are
    replaced and the scan resumes after each match. *)
Fixpoint sub_from (p : regex) (repl : str) (skip : nat) (s : str) : str :=
  match s with
  | [] => []
  | c :: s' =>
      match skip with
      | S k => sub_from p repl k s'
      | O =>
          match rmatch p s with
          | Some (S n) => repl ++ sub_from p repl n s'
          | _ => c :: sub_from p repl O s'
          end
      end
  end.

Definition re_sub (p : regex) (repl s : str) : str := sub_from p repl O s.

(** [bool(p.search(s))] *)
Fixpoint re_search (p : regex) (s : str) : bool :=
  match rmatch p s with
  | Some _ => true
  | None =>
      match s with
      | [] => false
      | _ :: s' => re_search p s'
      end
  end.

(** ** Configuration and the sanitizer *)

(** The text of the fifth entry of [REPLACEMENTS] as Python reads it: the
    three quotes that open the entry start a triple-quoted literal, which
    runs to the three quotes that open the next line's entry. *)
Definition TRIPLE_QUOTED : str :=
  u ", " ++ [QUOTE; APOSTROPHE; QUOTE] ++
  u "),      # Curly quote to apostrophe" ++ [10] ++ u "    (".

Definition REPLACEMENTS : list (str * str) :=
  [ (u ":", u "-");
    (u "|", u "-");
    (u "/", u "-");
    (u "?", u "");
    (TRIPLE_QUOTED, u "'");
    ([QUOTE], u "'");
    (u "<", u "(");
    (u ">", u ")");
    (u "*", u "");
    (u "\", u "-") ].

(** The characters of the class [INVALID_CHARS]: the angle brackets, the
    colon, the double quote, both slashes, the pipe, the question mark and
    the asterisk. *)
Definition INVALID_CHARS : str :=
  u "<>:" ++ [QUOTE] ++ u "/\|?*".

Definition INVALID_CHARS_PATTERN : regex := [one_of INVALID_CHARS].

(** [\s+] *)
Definition RE_SPACES : regex := [plus is_space].
(** [-{2,}] *)
Definition RE_DASHES : regex := [at_least 2 (is_char DASH)].
(** [\s*-\s*-\s*] *)
Definition RE_DASH_PAIR : regex :=
  [star is_space; lit DASH; star is_space; lit DASH; star is_space].

Definition has_invalid_chars (text : option str) : bool :=
  match text with
  | None => false
  | Some t => re_search INVALID_CHARS_PATTERN t
  end.

Definition apply_replacements (table : list (str * str)) (s : str) : str :=
  fold_left (fun result '(old, new) => replace old new result) table s.

(** The body of [sanitize] on a string. *)
Definition sanitize_text (text : str) : str :=
  let result := apply_replacements REPLACEMENTS text in
  let result := re_sub INVALID_CHARS_PATTERN [] result in
  let result := re_sub RE_SPACES (u " ") result in
  let result := re_sub RE_DASHES (u "-") result in
  let result := re_sub RE_DASH_PAIR (u " - ") result in
  strip (u " .-") result.

Definition sanitize (text : option str) : option str * bool :=
  match text with
  | None => (None, false)
  | Some original =>
      let result := sanitize_text original in
      (Some result, negb (str_eqb result original))
  end.


(** ** Numbers as text *)

Definition digit_char (d : N) : char := 48 + d.

Fixpoint uint_to_str (d : Decimal.uint) : str :=
  match d with
  | Decimal.Nil => []
  | Decimal.D0 d' => digit_char 0 :: uint_to_str d'
  | Decimal.D1 d' => digit_char 1 :: uint_to_str d'
  | Decimal.D2 d' => digit_char 2 :: uint_to_str d'
  | Decimal.D3 d' => digit_char 3 :: uint_to_str d'
  | Decimal.D4 d' => digit_char 4 :: uint_to_str d'
  | Decimal.D5 d' => digit_char 5 :: uint_to_str d'
  | Decimal.D6 d' => digit_char 6 :: uint_to_str d'
  | Decimal.D7 d' => digit_char 7 :: uint_to_str d'
  | Decimal.D8 d' => digit_char 8 :: uint_to_str d'
  | Decimal.D9 d' => digit_char 9 :: uint_to_str d'
  end.

(** [str(n)] for a natural number. *)
Definition nat_to_str (n : nat) : str := uint_to_str (Nat.to_uint n).

(** [f"{n:02d}"]: the sign counts towards the width of two. *)
Definition format_02d (n : Z) : str :=
  match n with
  | Z0 => u "00"
  | Zpos p =>
      let digits := uint_to_str (Pos.to_uint p) in
      if (length digits <? 2)%nat then digit_char 0 :: digits else digits
  | Zneg p => DASH :: uint_to_str (Pos.to_uint p)
  end.

(** ** [str.format] with keyword arguments

    The templates of the script use the replacement fields [{artist}],
    [{album}], [{track}] and [{title}] and the brace escapes.  [format]
    expands exactly this fragment; [None] stands for a raised exception
    (an unknown field name, an unbalanced brace) or for a replacement field
    with a conversion, a format spec or an attribute or index lookup, which
    the fragment does not cover. *)

Definition LBRACE : char := 123.
Definition RBRACE : char := 125.

Fixpoint kw_lookup (kwargs : list (str * str)) (name : str) : option str :=
  match kwargs with
  | [] => None
  | (k, v) :: rest => if str_eqb k name then Some v else kw_lookup rest name
  end.

(** [field = None]: scanning literal text; [field = Some n]: inside a
    replacement field whose name so far is [n]. *)
Fixpoint format_go (kwargs : list (str * str)) (field : option str) (s : str)
  : option str :=
  match field with
  | None =>
      match s with
      | [] => Some []
      | c :: s' =>
          if c =? LBRACE then
            match s' with
            | c' :: s'' =>
                if c' =? LBRACE
                then cons LBRACE <$> format_go kwargs None s''
                else format_go kwargs (Some []) s'
            | [] => None
            end
          else if c =? RBRACE then
            match s' with
            | c' :: s'' =>
                if c' =? RBRACE
                then cons RBRACE <$> format_go kwargs None s''
                else None
            | [] => None
            end
          else cons c <$> format_go kwargs None s'
      end
  | Some name =>
      match s with
      | [] => None
      | c :: s' =>
          if c =? RBRACE then
            match kw_lookup kwargs name with
            | Some v => app v <$> format_go kwargs None s'
            | None => None
            end
          else format_go kwargs (Some (name ++ [c])) s'
      end
  end.

Definition format (fmt : str) (kwargs : list (str * str)) : option str :=
  format_go kwargs None fmt.

(** ** [pathlib]: pure POSIX paths

    A path is its root flag and its components; [parse_path] normalises as
    [PurePosixPath] does (empty and [.] components are dropped). *)

Record Path := MkPath {
  is_abs : bool;
  parts : list str
}.

Fixpoint str_split (sep : char) (s : str) : list str :=
  match s with
  | [] => [[]]
  | c :: s' =>
      if c =? sep then [] :: str_split sep s'
      else match str_split sep s' with
           | h :: t => (c :: h) :: t
           | [] => [[c]]
           end
  end.

Definition real_part (c : str) : bool :=
  negb (str_eqb c []) && negb (str_eqb c [DOT]).

Definition parse_path (s : str) : Path :=
  MkPath (startswith s [SLASH]) (filter (fun c => real_part c = true) (str_split SLASH s)).

(** [str(p)] *)
Definition path_str (p : Path) : str :=
  match parts p with
  | [] => if is_abs p then [SLASH] else [DOT]
  | _ :: _ => (if is_abs p then [SLASH] else []) ++ join [SLASH] (parts p)
  end.

(** [p / s] *)
Definition joinpath (p : Path) (s : str) : Path :=
  let q := parse_path s in
  if is_abs q then q else MkPath (is_abs p) (parts p ++ parts q).

(** [p.name] *)
Definition name (p : Path) : str := List.last (parts p) [].

(** [p.parent] *)
Definition parent (p : Path) : Path :=
  MkPath (is_abs p) (removelast (parts p)).

(** [s.rfind(c)], [None] for [-1]. *)
Fixpoint rfind (c : char) (s : str) : option nat :=
  match s with
  | [] => None
  | x :: s' =>
      match rfind c s' with
      | Some i => Some (S i)
      | None => if x =? c then Some O else None
      end
  end.

(** The index at which [suffix] and [stem] cut a file name: that of the
    last dot, unless it is the first or the last character. *)
Definition suffix_index (n : str) : option nat :=
  match rfind DOT n with
  | Some i => if (0 <? i)%nat && (i <? length n - 1)%nat then Some i else None
  | None => None
  end.

(** [p.suffix] *)
Definition suffix (p : Path) : str :=
  match suffix_index (name p) with
  | Some i => drop i (name p)
  | None => []
  end.

(** [p.stem] *)
Definition stem (p : Path) : str :=
  match suffix_index (name p) with
  | Some i => take i (name p)
  | None => name p
  end.

(** Python's [<] on strings and on sequences of strings. *)
Fixpoint str_ltb (a b : str) : bool :=
  match a, b with
  | [], _ :: _ => true
  | x :: a', y :: b' => (x <? y) || ((x =? y) && str_ltb a' b')
  | _, _ => false
  end.

Fixpoint parts_ltb (a b : list str) : bool :=
  match a, b with
  | [], _ :: _ => true
  | x :: a', y :: b' => str_ltb x y || (str_eqb x y && parts_ltb a' b')
  | _, _ => false
  end.

(** The sequence [PurePath] compares by: the root, when there is one, and
    the components. *)
Definition cparts (p : Path) : list str :=
  (if is_abs p then [[SLASH]] else []) ++ parts p.

(** [p < q] *)
Definition path_ltb (p q : Path) : bool := parts_ltb (cparts p) (cparts q).

#[global] Instance Path_eq_dec : EqDecision Path.
Proof. solve_decision. Defined.

#[global] Instance Path_countable : Countable Path :=
  inj_countable' (fun p => (is_abs p, parts p)) (fun x => MkPath x.1 x.2)
    (fun p => match p with MkPath _ _ => eq_refl end).

(** ** Iteration over Python sets

    The order in which a [set] yields its elements is not specified (for
    strings it changes with the hash seed of the run); and neither is the
    order in which a directory is enumerated.  An instance of [SetIter]
    fixes one order per set; statements that hold for every run quantify
    over the instances. *)

Class SetIter (A : Type) `{Countable A} := {
  set_iter : gset A -> list A;
  set_iter_perm : forall X, set_iter X ≡ₚ elements X
}.

(** The order [elements] happens to produce. *)
Definition elements_iter (A : Type) `{Countable A} : SetIter A :=
  {| set_iter := elements; set_iter_perm := fun X => reflexivity (elements X) |}.

(** ** Metadata and results *)

Inductive Field := artist | album | track_number | title.

#[global] Instance Field_eq_dec : EqDecision Field.
Proof. solve_decision. Defined.

#[global] Instance Field_countable : Countable Field :=
  inj_countable'
    (fun f => match f with
              | artist => 0%nat | album => 1%nat
              | track_number => 2%nat | title => 3%nat
              end)
    (fun n => match n with
              | 0%nat => artist | 1%nat => album
              | 2%nat => track_number | _ => title
              end)
    (fun f => match f with
              | artist | album | track_number | title => eq_refl
              end).

(** The dictionary key of a field. *)
Definition field_key (f : Field) : str :=
  match f with
  | artist => u "artist"
  | album => u "album"
  | track_number => u "track_number"
  | title => u "title"
  end.

(** The dictionary [get_metadata] returns: its four keys are always
    present, each bound to [None] or to a string. *)
Record Metadata := MkMetadata {
  md_artist : option str;
  md_album : option str;
  md_track_number : option str;
  md_title : option str
}.

Definition md_get (md : Metadata) (f : Field) : option str :=
  match f with
  | artist => md_artist md
  | album => md_album md
  | track_number => md_track_number md
  | title => md_title md
  end.

Definition md_set (md : Metadata) (f : Field) (v : option str) : Metadata :=
  match f with
  | artist => MkMetadata v (md_album md) (md_track_number md) (md_title md)
  | album => MkMetadata (md_artist md) v (md_track_number md) (md_title md)
  | track_number => MkMetadata (md_artist md) (md_album md) v (md_title md)
  | title => MkMetadata (md_artist md) (md_album md) (md_track_number md) v
  end.

Definition md_empty : Metadata := MkMetadata None None None None.

(** Truth value of [None] or a string. *)
Definition truthy (v : option str) : bool :=
  match v with
  | Some (_ :: _) => true
  | _ => false
  end.

(** [v or ''] *)
Definition or_empty (v : option str) : str :=
  match v with
  | Some s => s
  | None => []
  end.

Record RenameResult := MkRenameResult {
  original_path : str;
  new_name : option str;
  success : bool;
  reason : option str;
  was_sanitized : bool;
  sanitize_details : list (Field * (str * str))
}.

(** [RenameResult.__init__]; [sanitize_details or {}]. *)
Definition RenameResult_init (original_path : str) (new_name : option str)
    (success : bool) (reason : option str) (was_sanitized : bool)
    (sanitize_details : option (list (Field * (str * str)))) : RenameResult :=
  MkRenameResult original_path new_name success reason was_sanitized
    (default [] sanitize_details).

Definition SUPPORTED_EXTENSIONS : list str :=
  [u ".m4a"; u ".mp3"; u ".flac"; u ".ogg"; u ".opus"; u ".wma"; u ".aac";
   u ".wav"; u ".aiff"].

(** The values of the two templates in the script as shipped. *)
Definition SHIPPED_FILENAME_FORMAT : str := u "{title} _ {artist}".
Definition SHIPPED_FILENAME_FORMAT_NO_TRACK : str := u "{title} _ {artist}".

(** [int(s)] on ASCII digits with an optional sign: an instance of the
    builtin for the examples. *)
Fixpoint digits_value (acc : N) (s : str) : option N :=
  match s with
  | [] => Some acc
  | c :: s' =>
      if (48 <=? c) && (c <=? 57) then digits_value (10 * acc + (c - 48)) s'
      else None
  end.

Definition int_ascii (s : str) : option Z :=
  match s with
  | [] => None
  | c :: s' =>
      if c =? DASH then
        match s' with [] => None | _ => (fun n => (- Z.of_N n)%Z) <$> digits_value 0 s' end
      else if c =? 43 then
        match s' with [] => None | _ => Z.of_N <$> digits_value 0 s' end
      else Z.of_N <$> digits_value 0 s
  end.

(** ** The tag library and [get_metadata]

    What the script asks of [mutagen].  [MutagenFile path] is the call
    [MutagenFile(path, easy=True)]: it raises ([None]), returns [None]
    ([Some None]) or returns the easy tags, which bind keys to lists of
    strings.  [MP4 path] raises or returns an object whose [tags] are
    [None] or bind text keys to lists of strings and [trkn] to a list of
    pairs of integers. *)

Record Mp4Tags := MkMp4Tags {
  mp4_text : str -> option (list str);
  mp4_trkn : option (list (Z * Z))
}.

Class TagLibrary := {
  MutagenFile : str -> option (option (str -> option (list str)));
  MP4 : str -> option (option Mp4Tags)
}.

(** [tags.get(key, [None])[0]]: [None] when indexing the empty list
    raises. *)
Definition entry_0 {A} (values : option (list A)) : option (option A) :=
  match values with
  | None => Some None
  | Some [] => None
  | Some (x :: _) => Some (Some x)
  end.

(** [str(n)] for an integer. *)
Definition int_to_str (n : Z) : str :=
  match n with
  | Z0 => u "0"
  | Zpos p => uint_to_str (Pos.to_uint p)
  | Zneg p => DASH :: uint_to_str (Pos.to_uint p)
  end.

(** The keys of the MP4 atoms: the copyright sign and three letters. *)
Definition ATOM_ART : str := 169 :: u "ART".
Definition ATOM_ALB : str := 169 :: u "alb".
Definition ATOM_NAM : str := 169 :: u "nam".

(** [get_metadata]; any exception ends in [None]. *)
Definition get_metadata `{TagLibrary} (filepath : str) : option Metadata :=
  match MutagenFile filepath with
  | None => None
  | Some None => None
  | Some (Some audio) =>
      if endswith (lower filepath) (u ".m4a") ||
         endswith (lower filepath) (u ".mp4")
      then
        match MP4 filepath with
        | None => None
        | Some None => None
        | Some (Some tags) =>
            artist_v ← entry_0 (mp4_text tags ATOM_ART);
            album_v ← entry_0 (mp4_text tags ATOM_ALB);
            title_v ← entry_0 (mp4_text tags ATOM_NAM);
            track_info ← entry_0 (mp4_trkn tags);
            Some (MkMetadata artist_v album_v
                    (match track_info with
                     | Some (n, _) =>
                         if (n =? 0)%Z then None else Some (int_to_str n)
                     | None => None
                     end)
                    title_v)
        end
      else
        artist_v ← entry_0 (audio (u "artist"));
        album_v ← entry_0 (audio (u "album"));
        title_v ← entry_0 (audio (u "title"));
        track ← entry_0 (audio (u "tracknumber"));
        Some (MkMetadata artist_v album_v
                (if truthy track
                 then head (str_split SLASH (or_empty track))
                 else None)
                title_v)
  end.

(** A library that finds the same easy tags in every file. *)
Definition easy_library (tags : list (str * list str)) : TagLibrary :=
  {| MutagenFile := fun _ =>
       Some (Some (fun key =>
                     snd <$> List.find (fun kv => str_eqb (fst kv) key) tags));
     MP4 := fun _ => None |}.

Section Pipeline.

(** The two configured templates. *)
Variable FILENAME_FORMAT : str.
Variable FILENAME_FORMAT_NO_TRACK : str.

(** The builtin [int] on strings ([None]: [ValueError]). *)
Variable int : str -> option Z.

Context `{!TagLibrary} `{!SetIter Field}.

(** The zero-padded track of [generate_new_filename]. *)
Definition track_padded (track : option str) : option str :=
  if truthy track then
    match int (or_empty track) with
    | Some n => Some (format_02d n)
    | None => track
    end
  else None.

(** The template [generate_new_filename] chooses. *)
Definition choose_format (padded : option str) : str :=
  if truthy padded && contains (u "{track}") FILENAME_FORMAT
  then FILENAME_FORMAT
  else FILENAME_FORMAT_NO_TRACK.

Definition generate_new_filename (metadata : Metadata) (extension : str)
  : option str :=
  let artist := md_get metadata artist in
  let album := md_get metadata album in
  let title := md_get metadata title in
  let track := md_get metadata track_number in
  let padded := track_padded track in
  let fmt := choose_format padded in
  new_name ← format fmt
    [ (u "artist", or_empty artist);
      (u "album", or_empty album);
      (u "track", or_empty padded);
      (u "title", or_empty title) ];
  Some (new_name ++ extension).

(** The insertions [get_required_fields] performs, in program order. *)
Definition required_insertions : list Field :=
  flat_map
    (fun fmt =>
       (if contains (u "{artist}") fmt then [artist] else []) ++
       (if contains (u "{album}") fmt then [album] else []) ++
       (if contains (u "{title}") fmt then [title] else []))
    [FILENAME_FORMAT; FILENAME_FORMAT_NO_TRACK].

Definition get_required_fields : gset Field :=
  list_to_set required_insertions.

(** The list [missing_fields] of [process_file]. *)
Definition missing_fields (metadata : Metadata) : list Field :=
  filter (fun f => truthy (md_get metadata f) = false)
         (set_iter get_required_fields).

(** One round of the sanitizing loop of [process_file]; the state is
    [(sanitized_metadata, sanitize_details, was_sanitized)]. *)
Definition sanitize_field (metadata : Metadata)
    (st : Metadata * list (Field * (str * str)) * bool) (f : Field)
  : Metadata * list (Field * (str * str)) * bool :=
  let '(sanitized_metadata, details, was) := st in
  let original := md_get metadata f in
  if truthy original then
    let '(sanitized, changed) := sanitize original in
    let sanitized_metadata := md_set sanitized_metadata f sanitized in
    if changed
    then (sanitized_metadata,
          details ++ [(f, (or_empty original, or_empty sanitized))], true)
    else (sanitized_metadata, details, was)
  else (md_set sanitized_metadata f original, details, was).

(** [process_file]; [None] when [generate_new_filename] raises. *)
Definition process_file (filepath : str) : option RenameResult :=
  let path := parse_path filepath in
  let extension := lower (suffix path) in
  if negb (bool_decide (extension ∈ SUPPORTED_EXTENSIONS)) then
    Some (RenameResult_init filepath None false
            (Some (u "Unsupported format")) false None)
  else
    match get_metadata filepath with
    | None =>
        Some (RenameResult_init filepath None false
                (Some (u "Could not read metadata")) false None)
    | Some metadata =>
        let missing := missing_fields metadata in
        match missing with
        | _ :: _ =>
            Some (RenameResult_init filepath None false
                    (Some (u "Missing metadata: " ++
                           join (u ", ") (field_key <$> missing)))
                    false None)
        | [] =>
            let '(sanitized_metadata, details, was) :=
              fold_left (sanitize_field metadata) [artist; album; title]
                        (md_empty, [], false) in
            let sanitized_metadata :=
              md_set sanitized_metadata track_number
                     (md_get metadata track_number) in
            new_name ← generate_new_filename sanitized_metadata extension;
            Some (RenameResult_init filepath (Some new_name) true None
                    was (Some details))
        end
    end.

End Pipeline.

(** ** The file system

    A finite map from normalised paths to nodes.  The model has regular
    files and directories only: one entry per path, no links, names are
    case-sensitive, and [..] is an ordinary name.  The root and the current
    directory (the paths without components) always exist. *)

Inductive node :=
| File (data : list Byte.byte)
| Dir.

Abbreviation filesystem := (gmap Path node).

Definition fs_lookup (fs : filesystem) (p : Path) : option node :=
  match parts p with
  | [] => Some Dir
  | _ :: _ => fs !! p
  end.

(** [p.exists()] *)
Definition path_exists (fs : filesystem) (p : Path) : bool :=
  match fs_lookup fs p with
  | Some _ => true
  | None => false
  end.

(** [p.is_dir()] *)
Definition path_is_dir (fs : filesystem) (p : Path) : bool :=
  match fs_lookup fs p with
  | Some Dir => true
  | _ => false
  end.

(** ** The directory scanner *)

(** [fnmatch] for patterns made of literal characters and [*]. *)
Fixpoint fnmatch (pat : str) : str -> bool :=
  match pat with
  | [] => fun n => match n with [] => true | _ :: _ => false end
  | c :: pat' =>
      if c =? 42 then
        fix star_match (n : str) : bool :=
          fnmatch pat' n ||
          match n with
          | [] => false
          | _ :: n' => star_match n'
          end
      else
        fun n =>
          match n with
          | x :: n' => (x =? c) && fnmatch pat' n'
          | [] => false
          end
  end.

Fixpoint is_prefix_b (a b : list str) : bool :=
  match a, b with
  | [], _ :: _ => true
  | x :: a', y :: b' => str_eqb x y && is_prefix_b a' b'
  | _, _ => false
  end.

(** [p] lies strictly below the directory [dir]. *)
Definition is_below (dir p : Path) : bool :=
  Bool.eqb (is_abs dir) (is_abs p) && is_prefix_b (parts dir) (parts p).

(** [p <= q], as far as [list.sort] can tell: not [q < p]. *)
Definition path_le (p q : Path) : Prop := path_ltb q p = false.

#[global] Instance path_le_dec p q : Decision (path_le p q).
Proof. unfold path_le. apply _. Defined.

(** [l.sort()] on paths. *)
Definition sort_paths (l : list Path) : list Path := merge_sort path_le l.

Section Scanner.

Context `{!SetIter str} `{!SetIter Path}.

Variable fs : filesystem.

(** [dir.rglob(pattern)] for a one-component pattern: every entry below
    [dir], at any depth, whose name matches; the entries come in the
    order the directory enumeration yields them. *)
Definition rglob (dir : Path) (pattern : str) : list Path :=
  filter (fun p => is_below dir p && fnmatch pattern (name p) = true)
         (set_iter (dom fs)).

(** The list [audio_files] of [scan_directory] after the sort. *)
Definition audio_files (dir_path : Path) : list Path :=
  let found :=
    flat_map
      (fun ext =>
         rglob dir_path (u "*" ++ ext) ++ rglob dir_path (u "*" ++ upper ext))
      (set_iter (list_to_set SUPPORTED_EXTENSIONS)) in
  sort_paths (set_iter (list_to_set found)).

End Scanner.

(** What a call of [scan_directory] comes to. *)
Inductive scan_result :=
| Scanned (successful failed : list RenameResult)
| SysExit
| ScanRaised.

Section Scan.

Variable FILENAME_FORMAT : str.
Variable FILENAME_FORMAT_NO_TRACK : str.
Variable int : str -> option Z.
Context `{!TagLibrary} `{!SetIter Field} `{!SetIter str} `{!SetIter Path}.

(** The loop over [audio_files] that fills [successful] and [failed]. *)
Fixpoint classify (files : list Path) (successful failed : list RenameResult)
  : scan_result :=
  match files with
  | [] => Scanned successful failed
  | filepath :: rest =>
      match process_file FILENAME_FORMAT FILENAME_FORMAT_NO_TRACK int
              (path_str filepath) with
      | None => ScanRaised
      | Some result =>
          if success result
          then classify rest (successful ++ [result]) failed
          else classify rest successful (failed ++ [result])
      end
  end.

Definition scan_directory (fs : filesystem) (directory : str) : scan_result :=
  let dir_path := parse_path directory in
  if negb (path_exists fs dir_path) then SysExit
  else if negb (path_is_dir fs dir_path) then SysExit
  else classify (audio_files fs dir_path) [] [].

End Scan.

(** ** The executor *)

(** [os.mkdir]; [EACCES] stands for any refusal of the operating system
    to create a directory whose parent is there (permissions, a read-only
    or full file system), which [denied] decides. *)
Inductive mkdir_error := EEXIST | ENOENT | ENOTDIR | EACCES.

Definition os_mkdir (denied : Path -> bool) (fs : filesystem) (p : Path)
  : filesystem + mkdir_error :=
  match fs_lookup fs p with
  | Some _ => inr EEXIST
  | None =>
      match fs_lookup fs (parent p) with
      | Some Dir => if denied p then inr EACCES else inl (<[p := Dir]> fs)
      | Some (File _) => inr ENOTDIR
      | None => inr ENOENT
      end
  end.

(** [p.mkdir(parents=True, exist_ok=...)]: the file system it leaves and
    whether it returned ([false]: it raised).  [depth] bounds the climb
    through the ancestors; the number of components is enough. *)
Fixpoint mkdir_parents (denied : Path -> bool) (depth : nat) (exist_ok : bool)
    (fs : filesystem) (p : Path) : filesystem * bool :=
  match os_mkdir denied fs p with
  | inl fs' => (fs', true)
  | inr ENOENT =>
      match depth with
      | O => (fs, false)
      | S d =>
          match mkdir_parents denied d true fs (parent p) with
          | (fs1, true) =>
              match os_mkdir denied fs1 p with
              | inl fs2 => (fs2, true)
              | inr _ => (fs1, exist_ok && path_is_dir fs1 p)
              end
          | (fs1, false) => (fs1, false)
          end
      end
  | inr _ => (fs, exist_ok && path_is_dir fs p)
  end.

(** What the environment does to one call of [shutil.copy2]: nothing, or
    an I/O error, which may leave a partly written destination behind. *)
Inductive fault :=
| NoFault
| Fault (residue : option (list Byte.byte)).

(** [shutil.copy2(src, dst)]: the file system it leaves and whether it
    returned.  The strings are resolved as paths; a destination that is a
    directory receives the file under the source's name. *)
Definition copy2 (f : fault) (fs : filesystem) (src dst : str)
  : filesystem * bool :=
  let s := parse_path src in
  let d := parse_path dst in
  match fs_lookup fs s with
  | Some (File data) =>
      let target := if path_is_dir fs d then joinpath d (name s) else d in
      if bool_decide (s = target) then (fs, false)
      else if path_is_dir fs target then (fs, false)
      else if negb (path_is_dir fs (parent target)) then (fs, false)
      else
        match f with
        | NoFault => (<[target := File data]> fs, true)
        | Fault None => (fs, false)
        | Fault (Some part) => (<[target := File part]> fs, false)
        end
  | _ => (fs, false)
  end.

(** [f"{base} ({counter}){ext}"] *)
Definition numbered_name (base ext : str) (counter : nat) : str :=
  base ++ u " (" ++ nat_to_str counter ++ u ")" ++ ext.

(** The candidate of that name below [dir]. *)
Definition numbered (dir : Path) (base ext : str) (counter : nat) : Path :=
  joinpath dir (numbered_name base ext counter).

(** The loop [while dest_path.exists()]; [None] when [fuel] rounds did not
    end it. *)
Fixpoint probe (fuel : nat) (fs : filesystem) (dir : Path) (base ext : str)
    (dest_path : Path) (counter : nat) : option Path :=
  if path_exists fs dest_path then
    match fuel with
    | O => None
    | S fuel' =>
        probe fuel' fs dir base ext (numbered dir base ext counter) (S counter)
    end
  else Some dest_path.

(** The collision handling of both trees: the destination finally used. *)
Definition resolve_collision (fs : filesystem) (dir dest_path : Path)
  : option Path :=
  if path_exists fs dest_path then
    let base := stem dest_path in
    let ext := suffix dest_path in
    probe (S (size fs)) fs dir base ext dest_path 1
  else Some dest_path.

(** What the environment does to a run, beyond the file system the run
    starts from.  Examining a path and listing a directory always answer;
    creating a directory, copying and printing can fail.  Calls are told
    apart by their number in the run, so that every pattern of failures is
    some environment. *)
Record Env := MkEnv {
  copy_fault : nat -> fault;
  print_ok : nat -> bool;
  error_text : nat -> str;
  mkdir_denied : Path -> bool
}.

(** The state the executor threads through its loops; [copies] counts the
    calls of [copy2] made so far and [prints] the calls of [print]. *)
Record ExecState := MkExecState {
  files : filesystem;
  copied_count : nat;
  sanitized_count : nat;
  failed_count : nat;
  errors : list str;
  copies : nat;
  prints : nat
}.

(** How a run ends: it returns, an exception escapes, or (in the model
    only) a probing loop ran out of fuel. *)
Inductive ending := Returned | Escaped | OutOfFuel.

(** One statement after another: the second runs when the first
    returned. *)
Definition and_then (r : ExecState * ending)
    (k : ExecState -> ExecState * ending) : ExecState * ending :=
  match r with
  | (st, Returned) => k st
  | stop => stop
  end.

Notation "r >>> k" := (and_then r k) (at level 61, left associativity).

Section Executor.

(** [copy_fault env n] is what happens to the copy number [n],
    [print_ok env n] whether the call number [n] of [print] returns (it
    raises otherwise: the stream cannot encode the text, or is closed),
    [error_text env n] is [str(e)] of the exception number [n] that a
    [try] block catches, and [mkdir_denied env p] whether creating [p] is
    refused. *)
Variable env : Env.

Definition with_files (st : ExecState) (fs : filesystem) : ExecState :=
  MkExecState fs (copied_count st) (sanitized_count st) (failed_count st)
    (errors st) (copies st) (prints st).

(** A call of [print]: the state after it and whether it returned.  The
    text does not matter to what follows. *)
Definition print (st : ExecState) : ExecState * bool :=
  (MkExecState (files st) (copied_count st) (sanitized_count st)
     (failed_count st) (errors st) (copies st) (S (prints st)),
   print_ok env (prints st)).

(** [n] calls of [print] in a row, none in a [try] block. *)
Fixpoint print_all (n : nat) (st : ExecState) : ExecState * ending :=
  match n with
  | O => (st, Returned)
  | S n' =>
      match print st with
      | (st', true) => print_all n' st'
      | (st', false) => (st', Escaped)
      end
  end.

(** [f"Failed to copy {src_path.name}: {str(e)}"] *)
Definition copy_error (src_path : Path) (text : str) : str :=
  u "Failed to copy " ++ name src_path ++ u ": " ++ text.

(** [except Exception as e: errors.append(...)] *)
Definition caught (st : ExecState) (src_path : Path) : ExecState :=
  MkExecState (files st) (copied_count st) (sanitized_count st)
    (failed_count st)
    (errors st ++ [copy_error src_path (error_text env (length (errors st)))])
    (copies st) (prints st).

(** The body of the loop over [successful].  The new name is joined to the
    output folder before the [try] block; inside it come the collision
    handling with its message, the copy, the counters and the message of
    the copy. *)
Definition copy_success (output_path : Path) (st : ExecState)
    (result : RenameResult) : ExecState * ending :=
  let src_path := parse_path (original_path result) in
  match new_name result with
  | None => (st, Escaped)
  | Some new_name =>
      let dest_path := joinpath output_path new_name in
      match resolve_collision (files st) output_path dest_path with
      | None => (st, OutOfFuel)
      | Some final_path =>
          let '(st, announced) :=
            if path_exists (files st) dest_path then print st else (st, true) in
          if negb announced then (caught st src_path, Returned)
          else
            match copy2 (copy_fault env (copies st)) (files st)
                    (path_str src_path) (path_str final_path) with
            | (fs', true) =>
                let '(st', shown) :=
                  print
                    (MkExecState fs' (S (copied_count st))
                       (if was_sanitized result
                        then S (sanitized_count st) else sanitized_count st)
                       (failed_count st) (errors st) (S (copies st))
                       (prints st)) in
                (if shown then st' else caught st' src_path, Returned)
            | (fs', false) =>
                (caught
                   (MkExecState fs' (copied_count st) (sanitized_count st)
                      (failed_count st) (errors st) (S (copies st))
                      (prints st))
                   src_path,
                 Returned)
            end
      end
  end.

(** The body of the loop over [failed]; all of it is in the [try]
    block. *)
Definition copy_failed (failed_path : Path) (st : ExecState)
    (result : RenameResult) : ExecState * ending :=
  let src_path := parse_path (original_path result) in
  let dest_path := joinpath failed_path (name src_path) in
  match resolve_collision (files st) failed_path dest_path with
  | None => (st, OutOfFuel)
  | Some final_path =>
      match copy2 (copy_fault env (copies st)) (files st)
              (path_str src_path) (path_str final_path) with
      | (fs', true) =>
          let '(st', shown) :=
            print
              (MkExecState fs' (copied_count st) (sanitized_count st)
                 (S (failed_count st)) (errors st) (S (copies st))
                 (prints st)) in
          (if shown then st' else caught st' src_path, Returned)
      | (fs', false) =>
          (caught
             (MkExecState fs' (copied_count st) (sanitized_count st)
                (failed_count st) (errors st) (S (copies st)) (prints st))
             src_path,
           Returned)
      end
  end.

(** A [for] loop whose body may end the run. *)
Fixpoint for_each (body : ExecState -> RenameResult -> ExecState * ending)
    (st : ExecState) (results : list RenameResult) : ExecState * ending :=
  match results with
  | [] => (st, Returned)
  | r :: rest =>
      match body st r with
      | (st', Returned) => for_each body st' rest
      | stop => stop
      end
  end.

(** [if not p.exists(): p.mkdir(parents=True); print(...)] *)
Definition ensure_dir (st : ExecState) (p : Path) : ExecState * ending :=
  if path_exists (files st) p then (st, Returned)
  else
    match mkdir_parents (mkdir_denied env) (length (parts p)) false
            (files st) p with
    | (fs', true) => print_all 1 (with_files st fs')
    | (fs', false) => (with_files st fs', Escaped)
    end.

Definition initial_state (fs : filesystem) : ExecState :=
  MkExecState fs 0 0 0 [] 0 0.

(** The calls of [print] of the summary: eight lines, the errors under
    their heading when there are any, and the empty line. *)
Definition summary_prints (st : ExecState) : nat :=
  (8 +
   match errors st with
   | [] => 0
   | _ :: _ => 1 + length (errors st)
   end + 1)%nat.

(** [execute_copy_rename] *)
Definition execute_copy_rename (successful failed : list RenameResult)
    (output_dir : str) (fs : filesystem) : ExecState * ending :=
  let output_path := parse_path output_dir in
  let failed_path := joinpath output_path (u "_failed") in
  ensure_dir (initial_state fs) output_path >>> fun st =>
  match failed with
  | _ :: _ => ensure_dir st failed_path
  | [] => (st, Returned)
  end >>> fun st =>
  print_all 1 st >>> fun st =>
  for_each (copy_success output_path) st successful >>> fun st =>
  match failed with
  | _ :: _ =>
      print_all 1 st >>> fun st => for_each (copy_failed failed_path) st failed
  | [] => (st, Returned)
  end >>> fun st =>
  print_all (summary_prints st) st.

End Executor.

(** ** The dry-run report

    [print_dry_run_report] only prints; it is modelled by the list of the
    texts it hands to [print], in order (each goes to the standard output
    followed by a line break). *)

(** [f"{v}"] for [None] or a string. *)
Definition fmt_opt (v : option str) : str :=
  match v with
  | Some s => s
  | None => u "None"
  end.

Definition ARROW : char := 8594.
Definition CHECK_MARK : char := 10003.
Definition WARNING_SIGN : char := 9888.
Definition BALLOT_X : char := 10007.

(** [Path(result.original_path).name] *)
Definition old_name (result : RenameResult) : str :=
  name (parse_path (original_path result)).

(** The lines of one clean file. *)
Definition report_clean (result : RenameResult) : list str :=
  [ u "  " ++ old_name result;
    u "    " ++ [ARROW] ++ u " " ++ fmt_opt (new_name result) ].

(** The lines of one entry of [sanitize_details]. *)
Definition report_detail (d : Field * (str * str)) : list str :=
  [ u "    " ++ field_key d.1 ++ u ": " ++ [QUOTE] ++ d.2.1 ++ [QUOTE];
    u "         " ++ [ARROW] ++ u " " ++ [QUOTE] ++ d.2.2 ++ [QUOTE] ].

(** The lines of one sanitized file. *)
Definition report_sanitized (result : RenameResult) : list str :=
  [ u "  " ++ old_name result ] ++
  flat_map report_detail (sanitize_details result) ++
  [ u "    " ++ [ARROW] ++ u " " ++ fmt_opt (new_name result); [] ].

(** The lines of one failed file. *)
Definition report_failed (result : RenameResult) : list str :=
  [ u "  " ++ old_name result;
    u "    Reason: " ++ fmt_opt (reason result);
    [] ].

Definition print_dry_run_report (FILENAME_FORMAT : str)
    (successful failed : list RenameResult) (source_dir output_dir : Path)
  : list str :=
  let sanitized := List.filter was_sanitized successful in
  let clean := List.filter (fun r => negb (was_sanitized r)) successful in
  [ repeat 61 70; u "DRY RUN REPORT"; repeat 61 70;
    u "  Source:  " ++ path_str source_dir;
    u "  Output:  " ++ path_str output_dir;
    u "  Failed:  " ++ path_str (joinpath output_dir (u "_failed"));
    u "  Format:  " ++ FILENAME_FORMAT ] ++
  (match clean with
   | [] => []
   | _ :: _ =>
       [ [10; CHECK_MARK] ++ u " CLEAN FILES (" ++ nat_to_str (length clean) ++ u "):";
         repeat DASH 70 ] ++
       flat_map report_clean (take 10 clean) ++
       (if (10 <? length clean)%nat
        then [ u "  ... and " ++ nat_to_str (length clean - 10) ++
               u " more clean files" ]
        else [])
   end) ++
  (match sanitized with
   | [] => []
   | _ :: _ =>
       [ [10; WARNING_SIGN] ++ u " SANITIZED FILES (" ++
           nat_to_str (length sanitized) ++ u "):";
         repeat DASH 70 ] ++
       flat_map report_sanitized sanitized
   end) ++
  (match failed with
   | [] => []
   | _ :: _ =>
       [ [10; BALLOT_X] ++ u " FAILED FILES (" ++ nat_to_str (length failed) ++
           u "):";
         repeat DASH 70 ] ++
       flat_map report_failed failed
   end) ++
  [ repeat 61 70; u "SUMMARY"; repeat 61 70;
    u "  Clean:     " ++ nat_to_str (length clean);
    u "  Sanitized: " ++ nat_to_str (length sanitized);
    u "  Failed:    " ++ nat_to_str (length failed);
    u "  Total:     " ++ nat_to_str (length successful) ++ u " success, " ++
      nat_to_str (length failed) ++ u " failed";
    [10] ++ u "To execute, set DRY_RUN = False and run again.";
    [] ].

(** * Vocabulary of the statements

    Predicates and sample data the properties below are stated with. *)

(** What a pattern denotes: the word splits into one segment per atom,
    each within the atom's class and bounds. *)
Fixpoint denotes (p : regex) (w : str) : Prop :=
  match p with
  | [] => w = []
  | a :: p' =>
      exists w1 w2,
        w = w1 ++ w2 /\
        Forall (fun c => a_class a c = true) w1 /\
        (a_min a <= length w1)%nat /\
        match a_max a with Some m => (length w1 <= m)%nat | None => True end /\
        denotes p' w2
  end.

(** [s] is not empty and its first character satisfies [p]. *)
Definition first_is (p : char -> bool) (s : str) : bool :=
  match s with
  | c :: _ => p c
  | [] => false
  end.

(** None of the table's source strings occurs in [x], and [x] has no
    platform-invalid character. *)
Definition free_of_rule_chars (x : str) : bool :=
  forallb (fun '(old, _) => negb (contains old x)) REPLACEMENTS &&
  forallb (fun c => negb (mem_char c INVALID_CHARS)) x.

(** Every whitespace character of [x] is a space that no whitespace
    follows. *)
Fixpoint spaces_tidy (x : str) : bool :=
  match x with
  | [] => true
  | c :: x' =>
      (negb (is_space c) || ((c =? SPACE) && negb (first_is is_space x')))
      && spaces_tidy x'
  end.

(** [x] without its leading whitespace. *)
Fixpoint skip_spaces (x : str) : str :=
  match x with
  | [] => []
  | c :: x' => if is_space c then skip_spaces x' else x
  end.

(** No dash of [x] is followed, directly or after whitespace only, by
    another dash. *)
Fixpoint dashes_tidy (x : str) : bool :=
  match x with
  | [] => true
  | c :: x' =>
      negb ((c =? DASH) && first_is (is_char DASH) (skip_spaces x'))
      && dashes_tidy x'
  end.

(** [x] neither starts nor ends with a space, a period or a dash. *)
Definition trimmed (x : str) : bool :=
  negb (first_is (fun c => mem_char c (u " .-")) x) &&
  negb (first_is (fun c => mem_char c (u " .-")) (rev x)).

(** [sub] occurs in [s] as a substring. *)
Definition occurs (sub s : str) : Prop := exists pre post, s = pre ++ sub ++ post.

(** The replacement field that names a tag. *)
Definition placeholder (f : Field) : str :=
  match f with
  | track_number => u "{track}"
  | _ => [LBRACE] ++ field_key f ++ [RBRACE]
  end.

(** The keyword arguments [generate_new_filename] passes to [format]. *)
Definition format_kwargs (artist_v album_v track_v title_v : str)
  : list (str * str) :=
  [ (u "artist", artist_v); (u "album", album_v);
    (u "track", track_v); (u "title", title_v) ].

(** A template that [format] expands, whatever the values. *)
Definition valid_template (fmt : str) : Prop :=
  is_Some (format fmt (format_kwargs [] [] [] [])).

(** The two shapes of an outcome. *)
Definition is_success_variant (r : RenameResult) : Prop :=
  success r = true /\ is_Some (new_name r) /\ reason r = None.

Definition is_failure_variant (r : RenameResult) : Prop :=
  success r = false /\ new_name r = None /\ is_Some (reason r) /\
  was_sanitized r = false /\ sanitize_details r = [].

(** The structural invariant of an outcome. *)
Definition result_invariant (r : RenameResult) : Prop :=
  (is_success_variant r \/ is_failure_variant r) /\
  (is_Some (new_name r) <-> success r = true) /\
  (sanitize_details r <> [] <-> was_sanitized r = true).

(** A library that finds an album, a track out of twelve and an empty
    title, and no artist. *)
Definition untitled_library : TagLibrary :=
  easy_library [ (u "album", [u "Album"]); (u "tracknumber", [u "3/12"]);
                 (u "title", [[]]) ].

(** The same tags without the title. *)
Definition no_title_library : TagLibrary :=
  easy_library [ (u "album", [u "Album"]); (u "tracknumber", [u "3/12"]) ].

(** What [get_metadata] makes of the first of them. *)
Definition untitled : Metadata :=
  MkMetadata None (Some (u "Album")) (Some (u "3")) (Some []).

(** The tags of the end-to-end scenario. *)
Definition tnt_library : TagLibrary :=
  easy_library [ (u "artist", [u "AC/DC"]); (u "title", [u "T.N.T"]);
                 (u "tracknumber", [u "3"]) ].

(** A component as [parse_path] produces them: not empty, not a lone dot,
    and without a slash. *)
Definition wf_part (c : str) : bool := real_part c && negb (mem_char SLASH c).

(** A path all of whose components are of that kind. *)
Definition wf_path (p : Path) : bool := forallb wf_part (parts p).

(** [PosixPath(s)] for an ASCII literal. *)
Definition PosixPath (s : string) : Path := parse_path (u s).

(** A music folder with four files, and no output folder yet. *)
Definition music_fs : filesystem :=
  <[PosixPath "/m" := Dir]>
    (<[PosixPath "/m/a.mp3" := File [Byte.x01]]>
       (<[PosixPath "/m/b.mp3" := File [Byte.x02]]>
          (<[PosixPath "/m/c.mp3" := File [Byte.x03]]>
             (<[PosixPath "/m/d.txt" := File [Byte.x04]]> ∅)))).

(** A success that generated [X.mp3], and a failure. *)
Definition renamed_to_X (src : string) : RenameResult :=
  MkRenameResult (u src) (Some (u "X.mp3")) true None false [].

Definition unsupported (src : string) : RenameResult :=
  MkRenameResult (u src) None false (Some (u "Unsupported format")) false [].

(** Faults: the second copy fails half-way, the fourth at once. *)
Definition faulty_io (n : nat) : fault :=
  match n with
  | 1%nat => Fault (Some [Byte.xff])
  | 3%nat => Fault None
  | _ => NoFault
  end.

(** An environment in which the copies fail as [io] says, every call of
    [print] returns and no directory is refused. *)
Definition copies_fail (io : nat -> fault) : Env :=
  MkEnv io (fun _ => true) (fun _ => u "I/O error") (fun _ => false).

Definition calm_env : Env := copies_fail (fun _ => NoFault).
Definition faulty_env : Env := copies_fail faulty_io.

(** An environment in which nothing fails but the call number [n] of
    [print]. *)
Definition choked_env (n : nat) : Env :=
  MkEnv (fun _ => NoFault) (fun k => negb (k =? n)%nat)
    (fun _ => u "codec can't encode character") (fun _ => false).

(** Three successes that all generate [X.mp3], and a failed file that is
    listed twice, copied without faults. *)
Definition three_collisions : ExecState * ending :=
  execute_copy_rename calm_env
    [renamed_to_X "/m/a.mp3"; renamed_to_X "/m/b.mp3"; renamed_to_X "/m/c.mp3"]
    [unsupported "/m/d.txt"; unsupported "/m/d.txt"]
    (u "/out") music_fs.

(** [p] stands before [q] in the list [l]. *)
Definition precedes (l : list Path) (p q : Path) : Prop :=
  exists i j, (i < j)%nat /\ l !! i = Some p /\ l !! j = Some q.

(** The names the scanner looks for: those that end with a supported
    extension written in lower case or in upper case. *)
Definition scanned_name (n : str) : Prop :=
  exists ext, ext ∈ SUPPORTED_EXTENSIONS /\
    (fnmatch (u "*" ++ ext) n = true \/ fnmatch (u "*" ++ upper ext) n = true).

(** A library with an album folder and its live edition. *)
Definition albums_fs : filesystem :=
  <[PosixPath "/m" := Dir]>
    (<[PosixPath "/m/Album" := Dir]>
       (<[PosixPath "/m/Album/01.mp3" := File [Byte.x01]]>
          (<[PosixPath "/m/Album (Live)" := Dir]>
             (<[PosixPath "/m/Album (Live)/01.mp3" := File [Byte.x02]]> ∅)))).

(** A folder in which one file has a mixed-case extension and one
    directory has an audio extension. *)
Definition mixed_case_fs : filesystem :=
  <[PosixPath "/m" := Dir]>
    (<[PosixPath "/m/a.mp3" := File [Byte.x01]]>
       (<[PosixPath "/m/b.FLAC" := File [Byte.x02]]>
          (<[PosixPath "/m/song.Mp3" := File [Byte.x03]]>
             (<[PosixPath "/m/rips.ogg" := Dir]>
                (<[PosixPath "/m/notes.txt" := File [Byte.x04]]> ∅))))).

(** [s] has no platform-invalid character. *)
Definition no_invalid (s : str) : bool :=
  forallb (fun c => negb (mem_char c INVALID_CHARS)) s.

(** Every whitespace character of [s] is the plain space. *)
Definition plain_spaces (s : str) : bool :=
  forallb (fun c => negb (is_space c) || (c =? SPACE)) s.

(** What the sanitizing loop of [process_file] leaves in a field: the
    sanitized text of a non-empty value, and an absent or empty value as it
    is. *)
Definition sanitized_value (md : Metadata) (f : Field) : option str :=
  if truthy (md_get md f)
  then Some (sanitize_text (or_empty (md_get md f)))
  else md_get md f.

(** The field has a non-empty value that sanitizing changes. *)
Definition field_changed (md : Metadata) (f : Field) : bool :=
  truthy (md_get md f) &&
  negb (str_eqb (sanitize_text (or_empty (md_get md f))) (or_empty (md_get md f))).

(** The templates of the end-to-end scenario. *)
Definition TNT_FORMAT : str := u "{track} {title} _ {artist}".
Definition TNT_FORMAT_NO_TRACK : str := u "{title} _ {artist}".

(** What [get_metadata] makes of its tags, and the outcome of
    [process_file]. *)
Definition tnt_metadata : Metadata :=
  MkMetadata (Some (u "AC/DC")) None (Some (u "3")) (Some (u "T.N.T")).

Definition tnt_outcome : RenameResult :=
  MkRenameResult (u "music/song.mp3") (Some (u "03 T.N.T _ AC-DC.mp3"))
    true None true [(artist, (u "AC/DC", u "AC-DC"))].

(** The outcome of one of the three audio files of [music_fs], which all
    carry those tags. *)
Definition tnt_scanned (src : string) : RenameResult :=
  MkRenameResult (u src) (Some (u "03 T.N.T _ AC-DC.mp3"))
    true None true [(artist, (u "AC/DC", u "AC-DC"))].

(** An MP4 library: track 7 of 12, and a title. *)
Definition mp4_library : TagLibrary :=
  {| MutagenFile := fun _ => Some (Some (fun _ => None));
     MP4 := fun _ =>
       Some (Some {| mp4_text := fun key =>
                       if str_eqb key ATOM_NAM then Some [u "Intro"] else None;
                     mp4_trkn := Some [(7%Z, 12%Z)] |}) |}.

(** A run under faults whose output folder is the source folder. *)
Definition faulty_copies : ExecState * ending :=
  execute_copy_rename faulty_env
    [renamed_to_X "/m/a.mp3"; renamed_to_X "/m/b.mp3"; renamed_to_X "/m/c.mp3"]
    [unsupported "/m/d.txt"] (u "/m") music_fs.

(** A run in which the message about the first copy cannot be printed:
    the calls of [print] before it are the ones about the folder
    [_failed] and about the start of the copying. *)
Definition choked_copies : ExecState * ending :=
  execute_copy_rename (choked_env 2)
    [renamed_to_X "/m/a.mp3"; renamed_to_X "/m/b.mp3"]
    [unsupported "/m/d.txt"] (u "/m") music_fs.

(** The run on what the scan of [music_fs] returns with those tags. *)
Definition tnt_copies : ExecState * ending :=
  execute_copy_rename faulty_env
    [tnt_scanned "/m/a.mp3"; tnt_scanned "/m/b.mp3"; tnt_scanned "/m/c.mp3"]
    [] (u "/m") music_fs.

(** The texts of [block] are printed one after the other among [lines]. *)
Definition printed_block (block lines : list str) : Prop :=
  exists before after, lines = before ++ block ++ after.

(** Two sanitized outcomes, a clean one and a failure. *)
Definition report_sample : list str :=
  print_dry_run_report TNT_FORMAT
    [tnt_scanned "/m/a.mp3"; renamed_to_X "/m/b.mp3"; tnt_scanned "/m/c.mp3"]
    [unsupported "/m/d.txt"] (PosixPath "/m") (PosixPath "/out").

(** Twelve clean outcomes. *)
Definition twelve_clean : list RenameResult :=
  repeat (renamed_to_X "/m/a.mp3") 12.

(** No two dashes of [x] stand side by side. *)
Fixpoint no_dash_run (x : str) : bool :=
  match x with
  | [] => true
  | c :: x' =>
      negb (is_char DASH c && first_is (is_char DASH) x') && no_dash_run x'
  end.

(** * Properties *)

(** ** Strings *)

Lemma startswith_spec (s p : str) :
  startswith s p = true <-> exists t, s = p ++ t.
Proof.
  revert s. induction p as [|x p IH]; intros s; simpl.
  - split; [intros _; by exists s | done].
  - destruct s as [|y s]; simpl.
    + split; [done | intros [t Ht]; discriminate].
    + rewrite andb_true_iff, N.eqb_eq, IH. split.
      * intros [-> [t ->]]. eauto.
      * intros [t Ht]. injection Ht as -> ->. eauto.
Qed.

(** [sub in s] is the occurrence of [sub] as a substring of [s]. *)
Lemma contains_spec (sub s : str) :
  contains sub s = true <-> exists pre post, s = pre ++ sub ++ post.
Proof.
  induction s as [|c s IH]; simpl.
  - rewrite orb_false_r, startswith_spec. split.
    + intros [t Ht]. exists [], t. done.
    + intros (pre & post & H). symmetry in H.
      apply app_eq_nil in H as [-> H]. apply app_eq_nil in H as [-> ->].
      by exists [].
  - rewrite orb_true_iff, startswith_spec, IH. split.
    + intros [[t Ht] | (pre & post & ->)].
      * exists [], t. done.
      * exists (c :: pre), post. done.
    + intros (pre & post & H). destruct pre as [|c' pre]; simpl in H.
      * left. eauto.
      * injection H as -> ->. right. eauto.
Qed.

Lemma contains_tail (sub : str) (c : char) (s : str) :
  contains sub (c :: s) = false -> contains sub s = false.
Proof. simpl. intros H. by apply orb_false_elim in H as [_ H]. Qed.

Lemma replace_from_absent (old new s : str) :
  contains old s = false -> replace_from old new O s = s.
Proof.
  induction s as [|c s IH]; [done|]. intros H.
  pose proof (contains_tail _ _ _ H) as Ht.
  simpl in H. apply orb_false_elim in H as [H _].
  change (replace_from old new 0 (c :: s)) with
    (if startswith (c :: s) old
     then new ++ replace_from old new (Nat.pred (length old)) s
     else c :: replace_from old new 0 s).
  rewrite H. by rewrite IH.
Qed.

(** Replacing a string that does not occur changes nothing. *)
Lemma replace_absent (old new s : str) :
  contains old s = false -> replace old new s = s.
Proof.
  destruct old as [|x old]; [by destruct s|].
  apply replace_from_absent.
Qed.

Lemma apply_replacements_absent (table : list (str * str)) (s : str) :
  forallb (fun '(old, _) => negb (contains old s)) table = true ->
  apply_replacements table s = s.
Proof.
  unfold apply_replacements. induction table as [|[old new] table IH]; [done|].
  simpl. rewrite andb_true_iff, negb_true_iff. intros [H1 H2].
  rewrite replace_absent by done. auto.
Qed.

Lemma lstrip_id (chars s : str) :
  match s with [] => true | c :: _ => negb (mem_char c chars) end = true ->
  lstrip chars s = s.
Proof.
  destruct s as [|c s]; [done|]. simpl. rewrite negb_true_iff. by intros ->.
Qed.

(** ** The regular expressions *)

Lemma run_length_le (cl : char -> bool) cap s :
  (run_length cl cap s <= length s)%nat.
Proof.
  revert cap. induction s as [|c s IH]; intros cap; simpl.
  - destruct cap as [[|?]|]; simpl; lia.
  - destruct cap as [[|m]|]; simpl; [lia| |].
    + destruct (cl c); simpl; [specialize (IH (Some m)); simpl in IH |]; lia.
    + destruct (cl c); simpl; [specialize (IH None); simpl in IH |]; lia.
Qed.

Lemma run_length_cap (cl : char -> bool) m s :
  (run_length cl (Some m) s <= m)%nat.
Proof.
  revert m. induction s as [|c s IH]; intros m; simpl.
  - destruct m; lia.
  - destruct m as [|m]; simpl; [lia|].
    destruct (cl c); simpl; [specialize (IH m) |]; lia.
Qed.

Lemma run_length_class (cl : char -> bool) cap s j :
  (j <= run_length cl cap s)%nat ->
  Forall (fun c => cl c = true) (take j s).
Proof.
  revert cap j. induction s as [|c s IH]; intros cap j Hj.
  - rewrite take_nil. constructor.
  - destruct j as [|j]; [constructor|]. simpl.
    simpl in Hj. destruct cap as [[|m]|]; simpl in Hj; [lia| |].
    + destruct (cl c) eqn:E; [|lia]. constructor; [done|].
      apply (IH (Some m)). simpl. lia.
    + destruct (cl c) eqn:E; [|lia]. constructor; [done|].
      apply (IH None). simpl. lia.
Qed.

Lemma try_down_sound (k : nat -> option nat) lo extra r :
  try_down k lo extra = Some r ->
  exists j m, (lo <= j <= lo + extra)%nat /\ k j = Some m /\ r = (j + m)%nat.
Proof.
  induction extra as [|e IH]; simpl.
  - destruct (k (lo + 0)%nat) as [m|] eqn:E; [|done].
    intros [= <-]. exists (lo + 0)%nat, m. split; [lia | done].
  - destruct (k (lo + S e)%nat) as [m|] eqn:E.
    + intros [= <-]. exists (lo + S e)%nat, m. split; [lia | done].
    + intros H. destruct (IH H) as (j & m & ? & ? & ->).
      exists j, m. split; [lia | done].
Qed.

(** The matcher only reports matches the pattern denotes. *)
Lemma rmatch_sound (p : regex) (s : str) (n : nat) :
  rmatch p s = Some n -> (n <= length s)%nat /\ denotes p (take n s).
Proof.
  revert s n. induction p as [|a p IH]; intros s n; simpl.
  - intros [= <-]. split; [lia | by rewrite take_0].
  - destruct (_ <? _)%nat eqn:E; [done|]. apply Nat.ltb_ge in E.
    intros H. apply try_down_sound in H as (j & m & Hj & Hm & ->).
    apply IH in Hm as [Hlen Hden]. rewrite length_drop in Hlen.
    assert (j <= run_length (a_class a) (a_max a) s)%nat as Hjr by lia.
    pose proof (run_length_le (a_class a) (a_max a) s).
    split; [lia|].
    exists (take j s), (take m (drop j s)). repeat split.
    + by rewrite take_take_drop.
    + by eapply run_length_class.
    + rewrite length_take. lia.
    + destruct (a_max a) as [mx|] eqn:Emx; [|done].
      rewrite length_take. pose proof (run_length_cap (a_class a) mx s). lia.
    + done.
Qed.

Lemma sub_from_skip (p : regex) (repl : str) (k : nat) (s : str) :
  sub_from p repl k s = sub_from p repl O (drop k s).
Proof.
  revert k. induction s as [|c s IH]; intros k.
  - by rewrite drop_nil.
  - destruct k as [|k]; [done|]. simpl. apply IH.
Qed.

Lemma sub_from_cons (p : regex) (repl : str) (c : char) (s : str) :
  sub_from p repl O (c :: s) =
  match rmatch p (c :: s) with
  | Some (S n) => repl ++ sub_from p repl n s
  | _ => c :: sub_from p repl O s
  end.
Proof. reflexivity. Qed.

(** A substitution in which every match is replaced by itself changes
    nothing.  [Q] is any property of the scanned text that its tails
    inherit. *)
Lemma re_sub_id (p : regex) (repl : str) (Q : str -> Prop) :
  (forall c t, Q (c :: t) -> Q t) ->
  (forall t n, Q t -> rmatch p t = Some (S n) -> take (S n) t = repl) ->
  forall s, Q s -> re_sub p repl s = s.
Proof.
  intros Htail Hmatch. unfold re_sub.
  assert (forall k t, Q t -> Q (drop k t)) as Hdrop.
  { induction k as [|k IHk]; intros [|c t] Ht; simpl; eauto. }
  intros s. remember (length s) as len eqn:Hlen.
  revert s Hlen. induction len as [len IH] using lt_wf_ind.
  intros [|c s] Hlen HQ; [done|].
  rewrite sub_from_cons. simpl in Hlen.
  destruct (rmatch p (c :: s)) as [[|n]|] eqn:E.
  - f_equal. eapply IH; eauto. lia.
  - rewrite sub_from_skip.
    rewrite (IH (length (drop n s))); [| rewrite length_drop; lia | done |].
    + rewrite <- (Hmatch _ _ HQ E). simpl. by rewrite take_drop.
    + apply Hdrop. eauto.
  - f_equal. eapply IH; eauto. lia.
Qed.

(** ** The sanitizer *)

Lemma denotes_one (a : atom) (w : str) :
  denotes [a] w ->
  Forall (fun c => a_class a c = true) w /\ (a_min a <= length w)%nat.
Proof.
  intros (w1 & w2 & -> & Hc & Hmin & _ & ->). by rewrite app_nil_r.
Qed.

Lemma denotes_lit (x : char) (p : regex) (w : str) :
  denotes (lit x :: p) w -> exists w', w = x :: w' /\ denotes p w'.
Proof.
  intros (w1 & w2 & -> & Hc & Hmin & Hmax & Hp). simpl in *.
  destruct w1 as [|c [|c' w1]]; simpl in *; try lia.
  apply Forall_inv in Hc. unfold is_char in Hc. apply N.eqb_eq in Hc as <-.
  eauto.
Qed.

Lemma take_S_cons (n : nat) (t : str) :
  (S n <= length t)%nat -> exists c t', t = c :: t' /\ take (S n) t = c :: take n t'.
Proof. destruct t as [|c t']; simpl; [lia | eauto]. Qed.

Lemma invalid_no_match (t : str) (n : nat) :
  forallb (fun c => negb (mem_char c INVALID_CHARS)) t = true ->
  rmatch INVALID_CHARS_PATTERN t = Some (S n) -> False.
Proof.
  intros Ht Hm. apply rmatch_sound in Hm as [Hlen Hd].
  apply denotes_one in Hd as [Hc _].
  destruct (take_S_cons _ _ Hlen) as (c & t' & -> & Htk). rewrite Htk in Hc.
  apply Forall_inv in Hc. simpl in Hc, Ht.
  apply andb_true_iff in Ht as [Ht _]. rewrite Hc in Ht. done.
Qed.

Lemma spaces_match_single (t : str) (n : nat) :
  spaces_tidy t = true ->
  rmatch RE_SPACES t = Some (S n) -> take (S n) t = [SPACE].
Proof.
  intros Ht Hm. apply rmatch_sound in Hm as [Hlen Hd].
  apply denotes_one in Hd as [Hc _].
  destruct (take_S_cons _ _ Hlen) as (c & t' & -> & Htk). rewrite Htk in *.
  apply Forall_cons in Hc as [Hc Hrest]. simpl in Hc, Ht.
  rewrite Hc in Ht. simpl in Ht.
  apply andb_true_iff in Ht as [Ht _]. apply andb_true_iff in Ht as [Hsp Hnext].
  apply N.eqb_eq in Hsp as ->. f_equal.
  destruct n as [|n]; [by rewrite take_0|].
  destruct t' as [|c' t'']; [done|]. simpl in Hrest, Hnext.
  apply Forall_inv in Hrest. simpl in Hrest. by rewrite Hrest in Hnext.
Qed.

Lemma dashes_tidy_app (w t : str) :
  dashes_tidy (w ++ t) = true -> dashes_tidy t = true.
Proof.
  induction w as [|c w IH]; [done|]. simpl.
  intros H. apply andb_true_iff in H as [_ H]. auto.
Qed.

Lemma skip_spaces_app (w t : str) :
  Forall (fun c => is_space c = true) w -> skip_spaces (w ++ t) = skip_spaces t.
Proof.
  induction 1 as [|c w Hc _ IH]; [done|]. simpl. by rewrite Hc.
Qed.

(** A tidy text has no two dashes with only whitespace between them. *)
Lemma dashes_tidy_no_pair (pre w post : str) :
  Forall (fun c => is_space c = true) w ->
  dashes_tidy (pre ++ DASH :: w ++ DASH :: post) = true -> False.
Proof.
  intros Hw H. apply dashes_tidy_app in H. simpl in H.
  rewrite skip_spaces_app in H by done. simpl in H.
  change (is_space DASH) with false in H. simpl in H.
  change (is_char DASH DASH) with true in H. done.
Qed.

Lemma dashes_no_match (t : str) (n : nat) :
  dashes_tidy t = true -> rmatch RE_DASHES t = Some (S n) -> False.
Proof.
  intros Ht Hm. apply rmatch_sound in Hm as [Hlen Hd].
  apply denotes_one in Hd as [Hc Hmin]. simpl in Hmin.
  rewrite length_take in Hmin.
  destruct n as [|n]; [lia|].
  destruct t as [|c [|c' t']]; simpl in Hlen; try lia.
  change (take (S (S n)) (c :: c' :: t')) with (c :: c' :: take n t') in Hc.
  apply Forall_cons in Hc as [Hc Hc'].
  apply Forall_inv in Hc'. unfold is_char in Hc, Hc'.
  apply N.eqb_eq in Hc as <-. apply N.eqb_eq in Hc' as <-.
  by apply (dashes_tidy_no_pair [] [] t').
Qed.

Lemma dash_pair_no_match (t : str) (n : nat) :
  dashes_tidy t = true -> rmatch RE_DASH_PAIR t = Some n -> False.
Proof.
  intros Ht Hm. apply rmatch_sound in Hm as [Hlen Hd].
  destruct Hd as (w0 & r0 & E0 & Hw0 & _ & _ & Hd). simpl in Hw0.
  apply denotes_lit in Hd as (r1 & -> & Hd).
  destruct Hd as (w1 & r2 & -> & Hw1 & _ & _ & Hd). simpl in Hw1.
  apply denotes_lit in Hd as (r3 & -> & _).
  rewrite <- (take_drop n t), E0 in Ht.
  rewrite <- !app_assoc in Ht. simpl in Ht. rewrite <- app_assoc in Ht.
  simpl in Ht. by eapply dashes_tidy_no_pair in Ht.
Qed.

Lemma forallb_tail {A} (f : A -> bool) (c : A) (t : list A) :
  forallb f (c :: t) = true -> forallb f t = true.
Proof. simpl. intros H. by apply andb_true_iff in H as [_ H]. Qed.

Lemma spaces_tidy_tail (c : char) (t : str) :
  spaces_tidy (c :: t) = true -> spaces_tidy t = true.
Proof. simpl. intros H. by apply andb_true_iff in H as [_ H]. Qed.

Lemma dashes_tidy_tail (c : char) (t : str) :
  dashes_tidy (c :: t) = true -> dashes_tidy t = true.
Proof. apply (dashes_tidy_app [c]). Qed.

Lemma strip_id (chars x : str) :
  negb (first_is (fun c => mem_char c chars) x) &&
  negb (first_is (fun c => mem_char c chars) (rev x)) = true ->
  strip chars x = x.
Proof.
  intros H. apply andb_true_iff in H as [H1 H2].
  unfold strip, rstrip. rewrite (lstrip_id chars x) by (by destruct x).
  rewrite (lstrip_id chars (rev x)) by (by destruct (rev x)).
  apply rev_involutive.
Qed.

(** On a text without rule characters that is already tidy and trimmed,
    no step of the sanitizer changes anything. *)
Lemma sanitize_text_id (x : str) :
  free_of_rule_chars x = true -> spaces_tidy x = true ->
  dashes_tidy x = true -> trimmed x = true ->
  sanitize_text x = x.
Proof.
  intros Hfree Hsp Hd Htrim. apply andb_true_iff in Hfree as [Hsrc Hinv].
  unfold sanitize_text.
  rewrite apply_replacements_absent by done.
  rewrite (re_sub_id INVALID_CHARS_PATTERN []
             (fun t => forallb (fun c => negb (mem_char c INVALID_CHARS)) t = true));
    [| apply forallb_tail
     | intros t n Ht Hm; destruct (invalid_no_match t n Ht Hm) | done].
  rewrite (re_sub_id RE_SPACES (u " ") (fun t => spaces_tidy t = true));
    [| apply spaces_tidy_tail | apply spaces_match_single | done].
  rewrite (re_sub_id RE_DASHES (u "-") (fun t => dashes_tidy t = true));
    [| apply dashes_tidy_tail
     | intros t n Ht Hm; destruct (dashes_no_match t n Ht Hm) | done].
  rewrite (re_sub_id RE_DASH_PAIR (u " - ") (fun t => dashes_tidy t = true));
    [| apply dashes_tidy_tail
     | intros t n Ht Hm; destruct (dash_pair_no_match t _ Ht Hm) | done].
  by apply strip_id.
Qed.

(** None of the sanitizer's patterns matches the empty string, which is
    what [re_sub] relies on. *)
Lemma patterns_never_match_empty (s : str) :
  rmatch INVALID_CHARS_PATTERN s <> Some O /\
  rmatch RE_SPACES s <> Some O /\
  rmatch RE_DASHES s <> Some O /\
  rmatch RE_DASH_PAIR s <> Some O.
Proof.
  repeat split; intros H; apply rmatch_sound in H as [_ H];
    rewrite take_0 in H.
  - apply denotes_one in H as [_ H]. simpl in H. lia.
  - apply denotes_one in H as [_ H]. simpl in H. lia.
  - apply denotes_one in H as [_ H]. simpl in H. lia.
  - destruct H as (w0 & r0 & E0 & _ & _ & _ & H).
    apply denotes_lit in H as (r1 & -> & _).
    symmetry in E0. by apply app_eq_nil in E0 as [_ ?].
Qed.

(** C1.  The sanitizer is not idempotent: on [a- - -b] it returns
    [a - -b], and sanitizing that text again returns [a - b].  The
    substitution for two dashes with whitespace around them resumes after
    the whitespace that follows the second dash, so a third dash is left
    next to the inserted one. *)
Example sanitize_twice_differs :
  sanitize (Some (u "a- - -b")) = (Some (u "a - -b"), true) /\
  sanitize (Some (u "a - -b")) = (Some (u "a - b"), true).
Proof. split; vm_compute; reflexivity. Qed.

(** With four dashes the first pass even leaves two spaces in a row. *)
Example sanitize_leaves_double_space :
  sanitize (Some (u "a- - - -b")) = (Some (u "a -  - b"), true) /\
  sanitize (Some (u "a -  - b")) = (Some (u "a - b"), true).
Proof. split; vm_compute; reflexivity. Qed.

(** C2, as stated, fails: a text with two spaces in a row has no rule
    character, and the sanitizer changes it. *)
Lemma sanitize_changes_clean_text :
  free_of_rule_chars (u "a  b") = true /\
  sanitize (Some (u "a  b")) = (Some (u "a b"), true).
Proof. split; vm_compute; reflexivity. Qed.

(** C2, amended.  A text that has no source string of the replacement
    table and no platform-invalid character, whose whitespace is single
    spaces, that has no two dashes adjacent or separated by whitespace
    only, and that neither starts nor ends with a space, a period or a
    dash, is returned unchanged with the flag [false]; and for every text
    the flag is [true] exactly when the returned text differs from it. *)
Theorem sanitize_noop_when_tidy (x : str) :
  (free_of_rule_chars x = true -> spaces_tidy x = true ->
   dashes_tidy x = true -> trimmed x = true ->
   sanitize (Some x) = (Some x, false)) /\
  ((sanitize (Some x)).2 = true <-> (sanitize (Some x)).1 <> Some x).
Proof.
  split.
  - intros Hfree Hsp Hd Htrim. unfold sanitize.
    rewrite sanitize_text_id by done.
    unfold str_eqb. by rewrite bool_decide_eq_true_2.
  - unfold sanitize, str_eqb. simpl.
    rewrite negb_true_iff, bool_decide_eq_false. split.
    + intros Hne [= Heq]. done.
    + intros Hne Heq. apply Hne. by rewrite Heq.
Qed.

Lemma sanitize_noop_when_tidy_witness :
  sanitize (Some (u "T.N.T - Live (2)")) = (Some (u "T.N.T - Live (2)"), false).
Proof.
  apply (proj1 (sanitize_noop_when_tidy (u "T.N.T - Live (2)")));
    vm_compute; reflexivity.
Defined.

(** ** The filename generator and the pipeline *)

Lemma format_02d_nonempty (n : Z) : format_02d n <> [].
Proof.
  destruct n as [|p|p]; simpl; [done| |done].
  destruct (uint_to_str (Pos.to_uint p)) as [|c [|c' s]]; simpl; done.
Qed.

Lemma kw_lookup_keys (a1 b1 c1 d1 a2 b2 c2 d2 : str) (n : str) :
  is_Some (kw_lookup (format_kwargs a1 b1 c1 d1) n) <->
  is_Some (kw_lookup (format_kwargs a2 b2 c2 d2) n).
Proof.
  unfold format_kwargs. simpl.
  repeat destruct (str_eqb _ n); simpl; split; eauto.
Qed.

(** Whether [format] succeeds depends on the template and on the names of
    the keyword arguments, not on their values. *)
Lemma format_go_indep (kw1 kw2 : list (str * str)) :
  (forall n, is_Some (kw_lookup kw1 n) <-> is_Some (kw_lookup kw2 n)) ->
  forall len (s : str) field,
    (length s <= len)%nat ->
    is_Some (format_go kw1 field s) -> is_Some (format_go kw2 field s).
Proof.
  intros Hkeys. induction len as [|len IH]; intros s field Hlen.
  - destruct s; [|simpl in Hlen; lia]. destruct field; simpl; eauto.
  - destruct s as [|c s]; [destruct field; simpl; eauto|].
    simpl in Hlen. destruct field as [nm|]; simpl.
    + destruct (c =? RBRACE).
      * destruct (kw_lookup kw1 nm) as [v1|] eqn:E1; [|by intros [? ?]].
        destruct (proj1 (Hkeys nm)) as [v2 ->]; [by rewrite E1|].
        rewrite !fmap_is_Some. apply IH. lia.
      * apply IH. lia.
    + destruct (c =? LBRACE).
      * destruct s as [|c' s']; [done|]. simpl in Hlen.
        destruct (c' =? LBRACE).
        -- rewrite !fmap_is_Some. apply IH. lia.
        -- apply IH. simpl. lia.
      * destruct (c =? RBRACE).
        -- destruct s as [|c' s']; [done|]. simpl in Hlen.
           destruct (c' =? RBRACE); [|done].
           rewrite !fmap_is_Some. apply IH. lia.
        -- rewrite !fmap_is_Some. apply IH. lia.
Qed.

Lemma valid_template_format (fmt a b c d : str) :
  valid_template fmt -> is_Some (format fmt (format_kwargs a b c d)).
Proof.
  unfold valid_template, format. intros H.
  eapply (format_go_indep _ _ (kw_lookup_keys _ _ _ _ _ _ _ _)); [|exact H].
  reflexivity.
Qed.

Lemma elem_of_if_singleton {A} (b : bool) (x y : A) :
  x ∈ (if b then [y] else []) <-> b = true /\ x = y.
Proof.
  destruct b.
  - rewrite list_elem_of_singleton. tauto.
  - split; [by intros ?%not_elem_of_nil | by intros [? _]].
Qed.

Section PipelineProperties.

Variable FILENAME_FORMAT : str.
Variable FILENAME_FORMAT_NO_TRACK : str.
Variable int : str -> option Z.
Context `{!TagLibrary} `{!SetIter Field}.

Lemma truthy_track_padded (track : option str) :
  truthy (track_padded int track) = truthy track.
Proof.
  unfold track_padded. destruct (truthy track) eqn:E; [|done].
  destruct (int (or_empty track)) as [n|]; [|done].
  pose proof (format_02d_nonempty n). simpl.
  by destruct (format_02d n).
Qed.

Lemma required_fields_spec (f : Field) :
  f ∈ get_required_fields FILENAME_FORMAT FILENAME_FORMAT_NO_TRACK <->
  f ∈ [artist; album; title] /\
  (occurs (placeholder f) FILENAME_FORMAT \/
   occurs (placeholder f) FILENAME_FORMAT_NO_TRACK).
Proof.
  unfold get_required_fields, required_insertions, occurs.
  rewrite elem_of_list_to_set. simpl. rewrite app_nil_r.
  rewrite !elem_of_app, !elem_of_if_singleton, !contains_spec.
  rewrite !elem_of_cons, elem_of_nil.
  destruct f; simpl; intuition congruence.
Qed.

Lemma missing_fields_spec (md : Metadata) (f : Field) :
  f ∈ missing_fields FILENAME_FORMAT FILENAME_FORMAT_NO_TRACK md <->
  f ∈ get_required_fields FILENAME_FORMAT FILENAME_FORMAT_NO_TRACK /\
  truthy (md_get md f) = false.
Proof.
  unfold missing_fields. rewrite list_elem_of_filter.
  rewrite set_iter_perm, elem_of_elements. tauto.
Qed.

Lemma missing_fields_NoDup (md : Metadata) :
  NoDup (missing_fields FILENAME_FORMAT FILENAME_FORMAT_NO_TRACK md).
Proof.
  unfold missing_fields. apply NoDup_filter.
  rewrite set_iter_perm. apply NoDup_elements.
Qed.

(** What [process_file] returns once a required field is missing. *)
Lemma process_file_missing (filepath : str) (md : Metadata) (f : Field) :
  bool_decide (lower (suffix (parse_path filepath)) ∈ SUPPORTED_EXTENSIONS) = true ->
  get_metadata filepath = Some md ->
  f ∈ missing_fields FILENAME_FORMAT FILENAME_FORMAT_NO_TRACK md ->
  process_file FILENAME_FORMAT FILENAME_FORMAT_NO_TRACK int filepath =
  Some (MkRenameResult filepath None false
          (Some (u "Missing metadata: " ++
                 join (u ", ")
                   (field_key <$>
                    missing_fields FILENAME_FORMAT FILENAME_FORMAT_NO_TRACK md)))
          false []).
Proof.
  intros Hext Hmd Hf. unfold process_file. rewrite Hext, Hmd. simpl.
  destruct (missing_fields _ _ md) as [|g rest] eqn:E; [|done].
  by apply elem_of_nil in Hf.
Qed.

Lemma missing_fields_absent (md : Metadata) (f : Field) :
  truthy (md_get md f) = false ->
  missing_fields FILENAME_FORMAT FILENAME_FORMAT_NO_TRACK (md_set md f None) =
  missing_fields FILENAME_FORMAT FILENAME_FORMAT_NO_TRACK md.
Proof.
  intros Hf. unfold missing_fields. apply list_filter_iff. intros g.
  destruct md as [a b c d]; destruct f, g; simpl in *; by rewrite ?Hf.
Qed.

(** The state of the sanitizing loop keeps the details and the flag in
    step. *)
Lemma sanitize_field_inv (metadata : Metadata) st (f : Field) :
  (st.1.2 <> [] <-> st.2 = true) ->
  ((sanitize_field metadata st f).1.2 <> [] <->
   (sanitize_field metadata st f).2 = true).
Proof.
  destruct st as [[m d] w]. unfold sanitize_field. simpl. intros Hinv.
  destruct (truthy (md_get metadata f)); [|done].
  destruct (sanitize (md_get metadata f)) as [s changed].
  destruct changed; [|done]. simpl. split; [done|].
  intros _ Hnil. by apply app_eq_nil in Hnil as [_ ?].
Qed.

Lemma sanitize_loop_inv (metadata : Metadata) (fields : list Field) st :
  (st.1.2 <> [] <-> st.2 = true) ->
  ((fold_left (sanitize_field metadata) fields st).1.2 <> [] <->
   (fold_left (sanitize_field metadata) fields st).2 = true).
Proof.
  revert st. induction fields as [|f fields IH]; intros st Hinv; [done|].
  simpl. apply IH. by apply sanitize_field_inv.
Qed.

Lemma generate_new_filename_eq (md : Metadata) (ext : str) :
  generate_new_filename FILENAME_FORMAT FILENAME_FORMAT_NO_TRACK int md ext =
  (fun n => n ++ ext) <$>
    format
      (if truthy (md_get md track_number) &&
          contains (u "{track}") FILENAME_FORMAT
       then FILENAME_FORMAT else FILENAME_FORMAT_NO_TRACK)
      (format_kwargs
         (or_empty (md_get md artist)) (or_empty (md_get md album))
         (or_empty (track_padded int (md_get md track_number)))
         (or_empty (md_get md title))).
Proof.
  unfold generate_new_filename, choose_format, format_kwargs.
  rewrite truthy_track_padded. by destruct (format _ _).
Qed.

(** C5.  [generate_new_filename] expands the primary template exactly
    when the tags carry a track (a non-empty value, which is when the
    padded track exists) and the primary template contains [{track}];
    otherwise it expands the no-track template.  With no track number,
    absent or empty, the name is the expansion of the no-track template
    in which a [{track}] field yields the empty string, whatever the
    primary template contains. *)
Theorem template_selection (md : Metadata) (ext : str) :
  generate_new_filename FILENAME_FORMAT FILENAME_FORMAT_NO_TRACK int md ext =
    (fun n => n ++ ext) <$>
      format
        (if truthy (md_get md track_number) &&
            contains (u "{track}") FILENAME_FORMAT
         then FILENAME_FORMAT else FILENAME_FORMAT_NO_TRACK)
        (format_kwargs
           (or_empty (md_get md artist)) (or_empty (md_get md album))
           (or_empty (track_padded int (md_get md track_number)))
           (or_empty (md_get md title))) /\
  (truthy (track_padded int (md_get md track_number)) =
   truthy (md_get md track_number)) /\
  generate_new_filename FILENAME_FORMAT FILENAME_FORMAT_NO_TRACK int
      (md_set md track_number None) ext =
    (fun n => n ++ ext) <$>
      format FILENAME_FORMAT_NO_TRACK
        (format_kwargs
           (or_empty (md_get md artist)) (or_empty (md_get md album)) []
           (or_empty (md_get md title))) /\
  generate_new_filename FILENAME_FORMAT FILENAME_FORMAT_NO_TRACK int
      (md_set md track_number (Some [])) ext =
    (fun n => n ++ ext) <$>
      format FILENAME_FORMAT_NO_TRACK
        (format_kwargs
           (or_empty (md_get md artist)) (or_empty (md_get md album)) []
           (or_empty (md_get md title))).
Proof.
  split; [apply generate_new_filename_eq|].
  split; [apply truthy_track_padded|].
  split; rewrite generate_new_filename_eq; by destruct md.
Qed.

(** C4.  The required fields are exactly those of artist, album and
    title whose replacement field occurs in one of the two templates;
    and when a supported file's tags lack a required field,
    [process_file] returns the failure whose reason lists the missing
    fields, a list without repetition that holds every required field
    with no value. *)
Theorem required_fields_gate (filepath : str) (md : Metadata) :
  (forall f,
     f ∈ get_required_fields FILENAME_FORMAT FILENAME_FORMAT_NO_TRACK <->
     f ∈ [artist; album; title] /\
     (occurs (placeholder f) FILENAME_FORMAT \/
      occurs (placeholder f) FILENAME_FORMAT_NO_TRACK)) /\
  (bool_decide (lower (suffix (parse_path filepath)) ∈ SUPPORTED_EXTENSIONS) = true ->
   get_metadata filepath = Some md ->
   (exists f,
      f ∈ get_required_fields FILENAME_FORMAT FILENAME_FORMAT_NO_TRACK /\
      md_get md f = None) ->
   process_file FILENAME_FORMAT FILENAME_FORMAT_NO_TRACK int filepath =
     Some (MkRenameResult filepath None false
             (Some (u "Missing metadata: " ++
                    join (u ", ")
                      (field_key <$>
                       missing_fields FILENAME_FORMAT FILENAME_FORMAT_NO_TRACK md)))
             false []) /\
   (forall f,
      f ∈ missing_fields FILENAME_FORMAT FILENAME_FORMAT_NO_TRACK md <->
      f ∈ get_required_fields FILENAME_FORMAT FILENAME_FORMAT_NO_TRACK /\
      truthy (md_get md f) = false) /\
   NoDup (missing_fields FILENAME_FORMAT FILENAME_FORMAT_NO_TRACK md)).
Proof.
  split; [apply required_fields_spec|].
  intros Hext Hmd (f & Hreq & Hnone). split; [|split].
  - apply (process_file_missing filepath md f Hext Hmd).
    apply missing_fields_spec. split; [done|]. by rewrite Hnone.
  - intros g. apply missing_fields_spec.
  - apply missing_fields_NoDup.
Qed.

(** C9.  Every outcome of [process_file] is exactly one of the two
    variants, carries a new name exactly when it is a success, and has
    sanitize details exactly when it is flagged as sanitized; and with
    two templates that [format] expands, [process_file] always returns an
    outcome. *)
Theorem process_file_invariant (filepath : str) :
  (valid_template FILENAME_FORMAT -> valid_template FILENAME_FORMAT_NO_TRACK ->
   is_Some (process_file FILENAME_FORMAT FILENAME_FORMAT_NO_TRACK int filepath)) /\
  (forall r,
     process_file FILENAME_FORMAT FILENAME_FORMAT_NO_TRACK int filepath = Some r ->
     result_invariant r).
Proof.
  assert (forall reason_text,
            result_invariant
              (RenameResult_init filepath None false (Some reason_text) false None))
    as Hfail.
  { intros txt. unfold result_invariant, is_success_variant, is_failure_variant.
    simpl. split; [right; eauto 10|]. split; split; done. }
  unfold process_file.
  destruct (negb _); [split; [eauto | by intros r [= <-]]|].
  destruct (get_metadata filepath) as [metadata|];
    [|split; [eauto | by intros r [= <-]]].
  destruct (missing_fields _ _ metadata) as [|g rest];
    [|split; [eauto | by intros r [= <-]]].
  pose proof (sanitize_loop_inv metadata [artist; album; title]
                (md_empty, [], false)) as Hloop.
  destruct (fold_left _ _ _) as [[sm details] was]. simpl in Hloop.
  rewrite generate_new_filename_eq. split.
  - intros HF HN.
    destruct (_ && _);
      [destruct (valid_template_format FILENAME_FORMAT
                   (or_empty (md_get (md_set sm track_number (md_get metadata track_number)) artist))
                   (or_empty (md_get (md_set sm track_number (md_get metadata track_number)) album))
                   (or_empty (track_padded int (md_get (md_set sm track_number (md_get metadata track_number)) track_number)))
                   (or_empty (md_get (md_set sm track_number (md_get metadata track_number)) title)) HF)
         as [v ->]
      |destruct (valid_template_format FILENAME_FORMAT_NO_TRACK
                   (or_empty (md_get (md_set sm track_number (md_get metadata track_number)) artist))
                   (or_empty (md_get (md_set sm track_number (md_get metadata track_number)) album))
                   (or_empty (track_padded int (md_get (md_set sm track_number (md_get metadata track_number)) track_number)))
                   (or_empty (md_get (md_set sm track_number (md_get metadata track_number)) title)) HN)
         as [v ->]];
      simpl; eauto.
  - intros r. destruct (format _ _) as [v|]; [|done]. simpl. intros [= <-].
    unfold result_invariant, is_success_variant, is_failure_variant. simpl.
    split; [left; eauto|]. split; [split; eauto|].
    apply Hloop. done.
Qed.

End PipelineProperties.

(** C10.  A required field whose value is the empty string is listed as
    missing: [process_file] returns the missing-fields failure, the very
    outcome it returns when the library yields the same tags with that
    field absent. *)
Theorem empty_tag_counts_as_missing
    (FILENAME_FORMAT FILENAME_FORMAT_NO_TRACK : str) (int : str -> option Z)
    (L L' : TagLibrary) `{!SetIter Field}
    (filepath : str) (md : Metadata) (f : Field) :
  bool_decide (lower (suffix (parse_path filepath)) ∈ SUPPORTED_EXTENSIONS) = true ->
  @get_metadata L filepath = Some md ->
  @get_metadata L' filepath = Some (md_set md f None) ->
  f ∈ get_required_fields FILENAME_FORMAT FILENAME_FORMAT_NO_TRACK ->
  md_get md f = Some [] ->
  f ∈ missing_fields FILENAME_FORMAT FILENAME_FORMAT_NO_TRACK md /\
  @process_file FILENAME_FORMAT FILENAME_FORMAT_NO_TRACK int L _ filepath =
    Some (MkRenameResult filepath None false
            (Some (u "Missing metadata: " ++
                   join (u ", ")
                     (field_key <$>
                      missing_fields FILENAME_FORMAT FILENAME_FORMAT_NO_TRACK md)))
            false []) /\
  @process_file FILENAME_FORMAT FILENAME_FORMAT_NO_TRACK int L' _ filepath =
  @process_file FILENAME_FORMAT FILENAME_FORMAT_NO_TRACK int L _ filepath.
Proof.
  intros Hext Hmd Hmd' Hreq Hempty.
  assert (truthy (md_get md f) = false) as Hfalsy by (by rewrite Hempty).
  assert (f ∈ missing_fields FILENAME_FORMAT FILENAME_FORMAT_NO_TRACK md) as Hin
    by (by apply missing_fields_spec).
  split; [done|]. split.
  - by apply (@process_file_missing _ _ int L _ filepath md f).
  - rewrite (@process_file_missing _ _ int L _ filepath md f) by done.
    rewrite (@process_file_missing _ _ int L' _ filepath (md_set md f None) f);
      [by rewrite missing_fields_absent | done | done |].
    by rewrite missing_fields_absent.
Qed.

Example get_metadata_untitled :
  @get_metadata untitled_library (u "music/song.MP3") = Some untitled /\
  @get_metadata no_title_library (u "music/song.MP3") =
    Some (md_set untitled title None).
Proof. split; reflexivity. Qed.

Lemma required_fields_gate_witness :
  @process_file SHIPPED_FILENAME_FORMAT SHIPPED_FILENAME_FORMAT_NO_TRACK
    int_ascii untitled_library (elements_iter Field) (u "music/song.MP3") =
  Some (MkRenameResult (u "music/song.MP3") None false
          (Some (u "Missing metadata: title, artist")) false []).
Proof.
  refine (proj1 (proj2 (@required_fields_gate SHIPPED_FILENAME_FORMAT
                          SHIPPED_FILENAME_FORMAT_NO_TRACK int_ascii
                          untitled_library (elements_iter Field)
                          (u "music/song.MP3") untitled) _ _ _)).
  - vm_compute. reflexivity.
  - reflexivity.
  - exists artist. split; [|reflexivity].
    refine (bool_decide_unpack _ _). vm_compute. exact I.
Defined.

Lemma empty_tag_counts_as_missing_witness :
  title ∈ @missing_fields SHIPPED_FILENAME_FORMAT SHIPPED_FILENAME_FORMAT_NO_TRACK
            (elements_iter Field) untitled /\
  @process_file SHIPPED_FILENAME_FORMAT SHIPPED_FILENAME_FORMAT_NO_TRACK
    int_ascii untitled_library (elements_iter Field) (u "music/song.MP3") =
  Some (MkRenameResult (u "music/song.MP3") None false
          (Some (u "Missing metadata: title, artist")) false []) /\
  @process_file SHIPPED_FILENAME_FORMAT SHIPPED_FILENAME_FORMAT_NO_TRACK
    int_ascii no_title_library (elements_iter Field) (u "music/song.MP3") =
  @process_file SHIPPED_FILENAME_FORMAT SHIPPED_FILENAME_FORMAT_NO_TRACK
    int_ascii untitled_library (elements_iter Field) (u "music/song.MP3").
Proof.
  refine (@empty_tag_counts_as_missing SHIPPED_FILENAME_FORMAT
            SHIPPED_FILENAME_FORMAT_NO_TRACK int_ascii
            untitled_library no_title_library (elements_iter Field)
            (u "music/song.MP3") untitled title _ _ _ _ _).
  - vm_compute. reflexivity.
  - reflexivity.
  - reflexivity.
  - refine (bool_decide_unpack _ _). vm_compute. exact I.
  - reflexivity.
Defined.

Example process_file_tnt :
  @process_file (u "{track} {title} _ {artist}") (u "{title} _ {artist}")
    int_ascii tnt_library (elements_iter Field) (u "music/song.mp3") =
  Some (MkRenameResult (u "music/song.mp3") (Some (u "03 T.N.T _ AC-DC.mp3"))
          true None true [(artist, (u "AC/DC", u "AC-DC"))]).
Proof. vm_compute. reflexivity. Qed.

Lemma process_file_invariant_witness :
  result_invariant
    (MkRenameResult (u "music/song.mp3") (Some (u "03 T.N.T _ AC-DC.mp3"))
       true None true [(artist, (u "AC/DC", u "AC-DC"))]).
Proof.
  apply (proj2 (@process_file_invariant (u "{track} {title} _ {artist}")
                  (u "{title} _ {artist}") int_ascii tnt_library
                  (elements_iter Field) (u "music/song.mp3"))).
  vm_compute. reflexivity.
Defined.

(** ** Paths *)

Lemma mem_char_cons (c x : char) (s : str) :
  mem_char c (x :: s) = (c =? x) || mem_char c s.
Proof. reflexivity. Qed.

Lemma str_split_no_sep (sep : char) (s : str) :
  Forall (fun c => mem_char sep c = false) (str_split sep s).
Proof.
  induction s as [|x s IH]; simpl; [by constructor|].
  destruct (x =? sep) eqn:E; [by constructor|].
  destruct (str_split sep s) as [|h t]; [by repeat constructor; simpl; rewrite N.eqb_sym, E|].
  apply Forall_cons in IH as [Hh Ht]. constructor; [|done].
  unfold mem_char in *. simpl. by rewrite N.eqb_sym, E.
Qed.

Lemma wf_parse_path (s : str) : wf_path (parse_path s) = true.
Proof.
  unfold wf_path, parse_path. simpl. apply forallb_forall.
  intros c Hc. apply list_elem_of_In, list_elem_of_filter in Hc as [Hreal Hin].
  unfold wf_part. rewrite Hreal. simpl.
  pose proof (str_split_no_sep SLASH s) as H.
  rewrite Forall_forall in H. by rewrite (H c Hin).
Qed.

Lemma wf_joinpath (p : Path) (s : str) :
  wf_path p = true -> wf_path (joinpath p s) = true.
Proof.
  intros Hp. unfold joinpath. pose proof (wf_parse_path s) as Hq.
  destruct (is_abs (parse_path s)); [done|].
  unfold wf_path in *. cbn [parts]. rewrite forallb_app. by rewrite Hp, Hq.
Qed.

Lemma str_split_cons_sep (s : str) :
  str_split SLASH (SLASH :: s) = [] :: str_split SLASH s.
Proof. reflexivity. Qed.

Lemma str_split_nonempty (sep : char) (s : str) :
  exists h t, str_split sep s = h :: t.
Proof.
  induction s as [|x s (h & t & IH)]; simpl; [eauto|].
  destruct (x =? sep); [eauto|]. rewrite IH. eauto.
Qed.

Lemma str_split_app_plain (c s : str) :
  mem_char SLASH c = false ->
  str_split SLASH (c ++ s) =
  match str_split SLASH s with
  | h :: t => (c ++ h) :: t
  | [] => [c]
  end.
Proof.
  destruct (str_split_nonempty SLASH s) as (h & t & E). rewrite E.
  induction c as [|x c IH]; intros Hc; simpl; [done|].
  rewrite mem_char_cons in Hc. apply orb_false_elim in Hc as [Hx Hc].
  rewrite N.eqb_sym in Hx. rewrite Hx. by rewrite IH.
Qed.

Lemma str_split_plain (c : str) :
  mem_char SLASH c = false -> str_split SLASH c = [c].
Proof.
  intros Hc. rewrite <- (app_nil_r c) at 1.
  rewrite str_split_app_plain by done. simpl. by rewrite app_nil_r.
Qed.

Lemma str_split_join (l : list str) :
  l <> [] -> Forall (fun c => mem_char SLASH c = false) l ->
  str_split SLASH (join [SLASH] l) = l.
Proof.
  induction l as [|c l IH]; [done|]. intros _ Hl.
  apply Forall_cons in Hl as [Hc Hl].
  destruct l as [|c' l].
  - by apply str_split_plain.
  - change (join [SLASH] (c :: c' :: l))
      with (c ++ SLASH :: join [SLASH] (c' :: l)).
    rewrite str_split_app_plain by done.
    rewrite str_split_cons_sep, IH by done. by rewrite app_nil_r.
Qed.

Lemma wf_part_spec (c : str) :
  wf_part c = true ->
  real_part c = true /\ mem_char SLASH c = false.
Proof.
  unfold wf_part. rewrite andb_true_iff, negb_true_iff. done.
Qed.

Lemma filter_real_wf (l : list str) :
  forallb wf_part l = true ->
  filter (fun c => real_part c = true) l = l.
Proof.
  induction l as [|c l IH]; [done|]. simpl.
  rewrite andb_true_iff. intros [Hc Hl].
  apply wf_part_spec in Hc as [Hc _].
  rewrite filter_cons_True by done. by rewrite IH.
Qed.

Lemma wf_no_slash (l : list str) :
  forallb wf_part l = true -> Forall (fun c => mem_char SLASH c = false) l.
Proof.
  rewrite forallb_forall, Forall_forall. intros H c Hc.
  by apply wf_part_spec, H, list_elem_of_In.
Qed.

Lemma join_head (c : str) (l : list str) :
  exists t, join [SLASH] (c :: l) = c ++ t.
Proof.
  destruct l as [|c' l]; simpl; [exists []; by rewrite app_nil_r | eauto].
Qed.

(** Reading a well-formed path's text gives the path back: the strings
    the executor hands to [copy2] name the paths it checked. *)
Lemma parse_path_str (p : Path) :
  wf_path p = true -> parse_path (path_str p) = p.
Proof.
  destruct p as [a ps]. unfold wf_path. cbn [parts].
  intros Hwf. destruct ps as [|c ps]; [by destruct a|].
  pose proof (wf_no_slash _ Hwf) as Hns.
  pose proof (filter_real_wf _ Hwf) as Hfil.
  cbn [forallb] in Hwf. apply andb_true_iff in Hwf as [Hc _].
  apply wf_part_spec in Hc as [Hreal Hcs].
  unfold path_str, parse_path. cbn [parts is_abs]. destruct a.
  - change ([SLASH] ++ join [SLASH] (c :: ps))
      with (SLASH :: join [SLASH] (c :: ps)).
    f_equal.
    rewrite str_split_cons_sep, str_split_join by done.
    rewrite filter_cons_False by done. exact Hfil.
  - change ([] ++ join [SLASH] (c :: ps)) with (join [SLASH] (c :: ps)).
    rewrite str_split_join by done. rewrite Hfil. f_equal.
    destruct (join_head c ps) as [t ->].
    destruct c as [|x c]; [done|].
    rewrite mem_char_cons in Hcs. apply orb_false_elim in Hcs as [Hx _].
    change (startswith ((x :: c) ++ t) [SLASH])
      with ((SLASH =? x) && startswith (c ++ t) []).
    by rewrite Hx.
Qed.

Lemma parse_path_single (n : str) :
  wf_part n = true -> parse_path n = MkPath false [n].
Proof.
  intros Hn. apply (parse_path_str (MkPath false [n])).
  unfold wf_path. simpl. by rewrite Hn.
Qed.

Lemma joinpath_single (dir : Path) (n : str) :
  wf_part n = true -> joinpath dir n = MkPath (is_abs dir) (parts dir ++ [n]).
Proof. intros Hn. unfold joinpath. by rewrite parse_path_single. Qed.

(** ** Collision probing *)

Lemma uint_to_str_inj (d1 d2 : Decimal.uint) :
  uint_to_str d1 = uint_to_str d2 -> d1 = d2.
Proof.
  revert d2. induction d1 as [|d1 IH|d1 IH|d1 IH|d1 IH|d1 IH|d1 IH|d1 IH|d1 IH|d1 IH|d1 IH];
    intros [|d2|d2|d2|d2|d2|d2|d2|d2|d2|d2] H;
    try discriminate H; try reflexivity;
    injection H as H; f_equal; by apply IH.
Qed.

Lemma nat_to_str_inj (j k : nat) : nat_to_str j = nat_to_str k -> j = k.
Proof.
  unfold nat_to_str. intros H%uint_to_str_inj.
  rewrite <- (Unsigned.of_to j), <- (Unsigned.of_to k). by rewrite H.
Qed.

Lemma uint_to_str_no_slash (d : Decimal.uint) :
  mem_char SLASH (uint_to_str d) = false.
Proof. induction d; simpl; done. Qed.

Lemma mem_char_app (c : char) (a b : str) :
  mem_char c (a ++ b) = mem_char c a || mem_char c b.
Proof. apply existsb_app. Qed.

Lemma mem_char_take (c : char) (i : nat) (s : str) :
  mem_char c s = false -> mem_char c (take i s) = false.
Proof.
  intros H. rewrite <- (take_drop i s), mem_char_app in H.
  by apply orb_false_elim in H as [? _].
Qed.

Lemma mem_char_drop (c : char) (i : nat) (s : str) :
  mem_char c s = false -> mem_char c (drop i s) = false.
Proof.
  intros H. rewrite <- (take_drop i s), mem_char_app in H.
  by apply orb_false_elim in H as [_ ?].
Qed.

Lemma numbered_name_wf (base ext : str) (k : nat) :
  mem_char SLASH base = false -> mem_char SLASH ext = false ->
  wf_part (numbered_name base ext k) = true.
Proof.
  intros Hb He. unfold wf_part, numbered_name.
  rewrite !mem_char_app, Hb, He.
  unfold nat_to_str. rewrite uint_to_str_no_slash.
  change (mem_char SLASH (u " (")) with false.
  change (mem_char SLASH (u ")")) with false. simpl negb. rewrite andb_true_r.
  unfold real_part, str_eqb.
  rewrite !bool_decide_eq_false_2; [done| |].
  - intros H%(f_equal length). rewrite !length_app in H. simpl in H. lia.
  - intros H%(f_equal length). rewrite !length_app in H. simpl in H. lia.
Qed.

Lemma numbered_eq (dir : Path) (base ext : str) (k : nat) :
  mem_char SLASH base = false -> mem_char SLASH ext = false ->
  numbered dir base ext k =
  MkPath (is_abs dir) (parts dir ++ [numbered_name base ext k]).
Proof.
  intros Hb He. unfold numbered.
  by rewrite (joinpath_single dir _ (numbered_name_wf base ext k Hb He)).
Qed.

Lemma numbered_inj (dir : Path) (base ext : str) (j k : nat) :
  mem_char SLASH base = false -> mem_char SLASH ext = false ->
  numbered dir base ext j = numbered dir base ext k -> j = k.
Proof.
  intros Hb He. rewrite !numbered_eq by done. intros [= H].
  apply app_inv_head in H. injection H as H. unfold numbered_name in H.
  apply app_inv_head, app_inv_head, app_inv_tail in H.
  by apply nat_to_str_inj.
Qed.

Lemma name_no_slash (p : Path) :
  wf_path p = true -> mem_char SLASH (name p) = false.
Proof.
  unfold wf_path, name. intros H.
  destruct (parts p) as [|c ps] using rev_ind; [done|].
  rewrite last_last. rewrite forallb_app in H.
  apply andb_true_iff in H as [_ H]. simpl in H. rewrite andb_true_r in H.
  by apply wf_part_spec in H as [_ ?].
Qed.

Lemma stem_no_slash (p : Path) :
  wf_path p = true -> mem_char SLASH (stem p) = false.
Proof.
  intros H%name_no_slash. unfold stem.
  destruct (suffix_index (name p)); [by apply mem_char_take | done].
Qed.

Lemma suffix_no_slash (p : Path) :
  wf_path p = true -> mem_char SLASH (suffix p) = false.
Proof.
  intros H%name_no_slash. unfold suffix.
  destruct (suffix_index (name p)); [by apply mem_char_drop | done].
Qed.

(** The stem and the suffix cut the name in two. *)
Lemma stem_suffix (p : Path) : stem p ++ suffix p = name p.
Proof.
  unfold stem, suffix. destruct (suffix_index (name p));
    [apply take_drop | apply app_nil_r].
Qed.

Lemma path_exists_dom (fs : filesystem) (p : Path) :
  parts p <> [] -> path_exists fs p = true -> p ∈ dom fs.
Proof.
  unfold path_exists, fs_lookup. intros Hp.
  destruct (parts p); [done|].
  destruct (fs !! p) eqn:E; [|done]. intros _. apply elem_of_dom. eauto.
Qed.

Lemma path_exists_false (fs : filesystem) (p : Path) :
  path_exists fs p = false -> fs !! p = None /\ path_is_dir fs p = false.
Proof.
  unfold path_exists, path_is_dir, fs_lookup.
  destruct (parts p); [done|]. by destruct (fs !! p).
Qed.

(** What the probing loop returns, when it returns. *)
Lemma probe_some fuel (fs : filesystem) dir base ext dest c p :
  probe fuel fs dir base ext dest c = Some p ->
  path_exists fs p = false /\
  (if path_exists fs dest then
     exists k, (c <= k)%nat /\ p = numbered dir base ext k /\
       forall j, (c <= j < k)%nat -> path_exists fs (numbered dir base ext j) = true
   else p = dest).
Proof.
  revert dest c. induction fuel as [|fuel IH]; intros dest c; simpl.
  - destruct (path_exists fs dest) eqn:E; [done|]. by intros [= <-].
  - destruct (path_exists fs dest) eqn:E; [|by intros [= <-]].
    intros H. apply IH in H as [Hfree Hrest]. split; [done|].
    destruct (path_exists fs (numbered dir base ext c)) eqn:Ec.
    + destruct Hrest as (k & Hk & -> & Hall). exists k. split; [lia|].
      split; [done|]. intros j Hj.
      destruct (decide (j = c)) as [->|]; [done|]. apply Hall. lia.
    + subst p. exists c. split; [lia|]. split; [done|]. intros j Hj. lia.
Qed.

(** The loop runs out of fuel only when every candidate it tried exists. *)
Lemma probe_none fuel (fs : filesystem) dir base ext dest c :
  probe fuel fs dir base ext dest c = None ->
  forall j, (c <= j < c + fuel)%nat ->
            path_exists fs (numbered dir base ext j) = true.
Proof.
  revert dest c. induction fuel as [|fuel IH]; intros dest c; simpl.
  - intros _ j Hj. lia.
  - destruct (path_exists fs dest); [|done].
    destruct fuel as [|fuel'].
    + simpl. destruct (path_exists fs (numbered dir base ext c)) eqn:Ec; [|done].
      intros _ j Hj. by replace j with c by lia.
    + intros H j Hj.
      assert (path_exists fs (numbered dir base ext c) = true) as Hc.
      { simpl in H. by destruct (path_exists fs (numbered dir base ext c)). }
      destruct (decide (j = c)) as [->|]; [done|].
      apply (IH _ _ H). lia.
Qed.

(** One more round than the file system has entries always suffices. *)
Lemma probe_total (fs : filesystem) dir base ext dest :
  mem_char SLASH base = false -> mem_char SLASH ext = false ->
  is_Some (probe (S (size fs)) fs dir base ext dest 1).
Proof.
  intros Hb He.
  destruct (probe (S (size fs)) fs dir base ext dest 1) eqn:E; [eauto|].
  exfalso. pose proof (probe_none _ _ _ _ _ _ _ E) as Hall.
  pose (cands := numbered dir base ext <$> seq 1 (S (size fs))).
  assert (NoDup cands) as Hnd.
  { apply NoDup_fmap_2_strong; [|apply NoDup_seq].
    intros j k _ _. by apply numbered_inj. }
  assert (list_to_set cands ⊆ dom fs) as Hsub.
  { intros p. rewrite elem_of_list_to_set. unfold cands.
    rewrite list_elem_of_fmap. intros (j & -> & Hj).
    apply elem_of_seq in Hj. apply path_exists_dom; [|apply Hall; lia].
    rewrite numbered_eq by done. simpl. by destruct (parts dir). }
  apply subseteq_size in Hsub.
  rewrite size_list_to_set, size_dom in Hsub by done.
  unfold cands in Hsub. rewrite length_fmap, length_seq in Hsub. lia.
Qed.

Lemma resolve_collision_spec (fs : filesystem) (dir dest : Path) :
  wf_path dest = true ->
  exists p,
    resolve_collision fs dir dest = Some p /\
    path_exists fs p = false /\
    (if path_exists fs dest then
       exists k, (1 <= k)%nat /\
         p = numbered dir (stem dest) (suffix dest) k /\
         forall j, (1 <= j < k)%nat ->
           path_exists fs (numbered dir (stem dest) (suffix dest) j) = true
     else p = dest).
Proof.
  intros Hwf. unfold resolve_collision.
  destruct (path_exists fs dest) eqn:E; [|eauto].
  destruct (probe_total fs dir (stem dest) (suffix dest) dest
              (stem_no_slash _ Hwf) (suffix_no_slash _ Hwf)) as [p Hp].
  exists p. split; [done|].
  apply probe_some in Hp. by rewrite E in Hp.
Qed.

Lemma resolve_collision_wf (fs : filesystem) (dir dest p : Path) :
  wf_path dir = true -> wf_path dest = true ->
  resolve_collision fs dir dest = Some p ->
  wf_path p = true /\ path_exists fs p = false.
Proof.
  intros Hdir Hdest Hp.
  destruct (resolve_collision_spec fs dir dest Hdest) as (q & Hq & Hfree & Hshape).
  rewrite Hp in Hq. injection Hq as <-. split; [|done].
  destruct (path_exists fs dest); [|by subst].
  destruct Hshape as (k & _ & -> & _). by apply wf_joinpath.
Qed.

(** ** The executor *)

(** C6.  When the destination exists, the destination finally used is the
    first free one among [stem (1)suffix], [stem (2)suffix], ... below the
    tree's directory, all earlier candidates being taken; otherwise it is
    the destination itself.  The probing always ends, and the destinations
    the executor builds are well-formed paths.  Both loops of the executor
    resolve collisions this way, each in its own directory: three
    successes that generate [X.mp3] are written, in processing order, as
    [X.mp3], [X (1).mp3] and [X (2).mp3], and a failed file copied twice
    as [d.txt] and [d (1).txt] below [_failed]. *)
Theorem collision_numbering :
  (forall (fs : filesystem) (dir dest : Path),
     wf_path dest = true ->
     exists p,
       resolve_collision fs dir dest = Some p /\
       path_exists fs p = false /\
       (if path_exists fs dest then
          exists k, (1 <= k)%nat /\
            p = numbered dir (stem dest) (suffix dest) k /\
            p = MkPath (is_abs dir)
                  (parts dir ++
                   [stem dest ++ u " (" ++ nat_to_str k ++ u ")" ++ suffix dest]) /\
            forall j, (1 <= j < k)%nat ->
              path_exists fs (numbered dir (stem dest) (suffix dest) j) = true
        else p = dest)) /\
  (forall dest : Path, stem dest ++ suffix dest = name dest) /\
  (forall output_dir new_name src_name : str,
     wf_path (joinpath (parse_path output_dir) new_name) = true /\
     wf_path (joinpath (joinpath (parse_path output_dir) (u "_failed")) src_name) = true) /\
  three_collisions.2 = Returned /\
  files three_collisions.1 !! PosixPath "/out/X.mp3" = Some (File [Byte.x01]) /\
  files three_collisions.1 !! PosixPath "/out/X (1).mp3" = Some (File [Byte.x02]) /\
  files three_collisions.1 !! PosixPath "/out/X (2).mp3" = Some (File [Byte.x03]) /\
  files three_collisions.1 !! PosixPath "/out/X (3).mp3" = None /\
  files three_collisions.1 !! PosixPath "/out/_failed/d.txt" = Some (File [Byte.x04]) /\
  files three_collisions.1 !! PosixPath "/out/_failed/d (1).txt" = Some (File [Byte.x04]).
Proof.
  split; [|split; [apply stem_suffix |
                   split; [|vm_compute; repeat split; reflexivity]]].
  2: { intros output_dir n1 n2.
       split; repeat apply wf_joinpath; apply wf_parse_path. }
  intros fs dir dest Hwf.
  destruct (resolve_collision_spec fs dir dest Hwf) as (p & Hp & Hfree & Hshape).
  exists p. split; [done|]. split; [done|].
  destruct (path_exists fs dest); [|done].
  destruct Hshape as (k & Hk & -> & Hall). exists k.
  split; [done|]. split; [done|]. split; [|done].
  apply numbered_eq; [by apply stem_no_slash | by apply suffix_no_slash].
Qed.

Lemma collision_numbering_witness :
  resolve_collision (files three_collisions.1) (PosixPath "/out") (PosixPath "/out/X.mp3") =
  Some (PosixPath "/out/X (3).mp3").
Proof.
  destruct (proj1 collision_numbering (files three_collisions.1) (PosixPath "/out")
              (PosixPath "/out/X.mp3") eq_refl) as (p & Hp & _).
  rewrite Hp. vm_compute in Hp. injection Hp as <-. reflexivity.
Defined.

Lemma os_mkdir_subseteq denied (fs fs' : filesystem) (p : Path) :
  os_mkdir denied fs p = inl fs' -> fs ⊆ fs'.
Proof.
  unfold os_mkdir. destruct (fs_lookup fs p) eqn:E; [done|].
  destruct (fs_lookup fs (parent p)) as [[|]|]; try done.
  destruct (denied p); [done|].
  intros [= <-]. apply insert_subseteq.
  unfold fs_lookup in E. by destruct (parts p).
Qed.

Lemma mkdir_parents_subseteq denied depth exist_ok (fs : filesystem) (p : Path) :
  fs ⊆ (mkdir_parents denied depth exist_ok fs p).1.
Proof.
  revert exist_ok fs p. induction depth as [|d IH]; intros exist_ok fs p; simpl.
  - destruct (os_mkdir denied fs p) as [fs'|[]] eqn:E; simpl; try done.
    by apply os_mkdir_subseteq in E.
  - destruct (os_mkdir denied fs p) as [fs'|[]] eqn:E; simpl; try done.
    + by apply os_mkdir_subseteq in E.
    + pose proof (IH true fs (parent p)) as Hpar.
      destruct (mkdir_parents denied d true fs (parent p)) as [fs1 [|]];
        simpl in *; [|done].
      destruct (os_mkdir denied fs1 p) as [fs2|e] eqn:E2; simpl; [|done].
      apply os_mkdir_subseteq in E2. by transitivity fs1.
Qed.

(** A copy to a destination that does not exist keeps every entry. *)
Lemma copy2_subseteq (f : fault) (fs : filesystem) (src : str) (dest : Path) :
  wf_path dest = true -> path_exists fs dest = false ->
  fs ⊆ (copy2 f fs src (path_str dest)).1.
Proof.
  intros Hwf Hfree. unfold copy2. rewrite parse_path_str by done.
  apply path_exists_false in Hfree as [Hnone Hnodir]. rewrite Hnodir.
  destruct (fs_lookup fs (parse_path src)) as [[data|]|]; [|done|done].
  destruct (bool_decide _); [done|]. rewrite Hnodir.
  destruct (negb _); [done|].
  destruct f as [|[part|]]; simpl; try done; by apply insert_subseteq.
Qed.

Lemma and_then_returned (r : ExecState * ending)
    (k : ExecState -> ExecState * ending) (st' : ExecState) :
  r >>> k = (st', Returned) ->
  exists st, r = (st, Returned) /\ k st = (st', Returned).
Proof. destruct r as [st [| |]]; simpl; [eauto | done | done]. Qed.

Lemma and_then_subseteq (st : ExecState) (r : ExecState * ending)
    (k : ExecState -> ExecState * ending) :
  files st ⊆ files r.1 /\ r.2 <> OutOfFuel ->
  (forall st', files st' ⊆ files (k st').1 /\ (k st').2 <> OutOfFuel) ->
  files st ⊆ files (r >>> k).1 /\ (r >>> k).2 <> OutOfFuel.
Proof.
  destruct r as [st1 [| |]]; simpl; intros [Hsub Hend] Hk; [|done|done].
  destruct (Hk st1) as [Hsub' Hend']. split; [by transitivity (files st1) | done].
Qed.

Section ExecutorProperties.

Variable env : Env.

Lemma print_all_files (n : nat) (st : ExecState) :
  files (print_all env n st).1 = files st /\
  (print_all env n st).2 <> OutOfFuel.
Proof.
  revert st. induction n as [|n IH]; intros st; [done|].
  cbn [print_all]. unfold print. destruct (print_ok env (prints st)); [|done].
  match goal with
  | |- context [print_all env n ?s] => destruct (IH s) as [Hfiles Hend]
  end.
  by rewrite Hfiles.
Qed.

Lemma copy_success_subseteq (output_path : Path) (st : ExecState)
    (result : RenameResult) :
  wf_path output_path = true ->
  files st ⊆ files (copy_success env output_path st result).1 /\
  (copy_success env output_path st result).2 <> OutOfFuel.
Proof.
  intros Hwf. unfold copy_success.
  destruct (new_name result) as [n|]; [|done].
  pose proof (wf_joinpath output_path n Hwf) as Hdest.
  destruct (resolve_collision_spec (files st) output_path _ Hdest)
    as (p & Hp & _).
  rewrite Hp.
  destruct (resolve_collision_wf _ _ _ _ Hwf Hdest Hp) as [Hpwf Hfree].
  assert (forall k,
            files st ⊆
            (copy2 (copy_fault env k) (files st)
               (path_str (parse_path (original_path result))) (path_str p)).1)
    as Hcopy by (intros k; by apply copy2_subseteq).
  unfold print.
  destruct (path_exists (files st) (joinpath output_path n));
    [destruct (print_ok env (prints st)); [|done]|];
    cbn [negb files copies prints];
    (specialize (Hcopy (copies st));
     destruct (copy2 _ _ _ _) as [fs' [|]]; [|done];
     cbn [files prints]; by destruct (print_ok env _)).
Qed.

Lemma copy_failed_subseteq (failed_path : Path) (st : ExecState)
    (result : RenameResult) :
  wf_path failed_path = true ->
  files st ⊆ files (copy_failed env failed_path st result).1 /\
  (copy_failed env failed_path st result).2 <> OutOfFuel.
Proof.
  intros Hwf. unfold copy_failed.
  pose proof (wf_joinpath failed_path
                (name (parse_path (original_path result))) Hwf) as Hdest.
  destruct (resolve_collision_spec (files st) failed_path _ Hdest)
    as (p & Hp & _).
  rewrite Hp.
  destruct (resolve_collision_wf _ _ _ _ Hwf Hdest Hp) as [Hpwf Hfree].
  pose proof (copy2_subseteq (copy_fault env (copies st)) (files st)
                (path_str (parse_path (original_path result))) p Hpwf Hfree) as H.
  destruct (copy2 _ _ _ _) as [fs' [|]]; [|done].
  unfold print. cbn [files prints]. by destruct (print_ok env (prints st)).
Qed.

Lemma for_each_subseteq
    (body : ExecState -> RenameResult -> ExecState * ending)
    (results : list RenameResult) (st : ExecState) :
  (forall st r, files st ⊆ files (body st r).1 /\ (body st r).2 <> OutOfFuel) ->
  files st ⊆ files (for_each body st results).1 /\
  (for_each body st results).2 <> OutOfFuel.
Proof.
  intros Hbody. revert st.
  induction results as [|r rest IH]; intros st; simpl; [done|].
  destruct (Hbody st r) as [Hsub Hend].
  destruct (body st r) as [st' [| |]]; simpl in *; [|done|done].
  destruct (IH st') as [Hsub' Hend']. split; [by transitivity (files st') | done].
Qed.

Lemma ensure_dir_subseteq (st : ExecState) (p : Path) :
  files st ⊆ files (ensure_dir env st p).1 /\ (ensure_dir env st p).2 <> OutOfFuel.
Proof.
  unfold ensure_dir. destruct (path_exists (files st) p); [done|].
  pose proof (mkdir_parents_subseteq (mkdir_denied env) (length (parts p)) false
                (files st) p) as H.
  destruct (mkdir_parents _ _ _ _ _) as [fs' [|]]; [|done].
  destruct (print_all_files 1 (with_files st fs')) as [-> Hend]. done.
Qed.

(** The executor only ever adds entries, and its probing never runs out
    of fuel. *)
Lemma execute_subseteq (successful failed : list RenameResult)
    (output_dir : str) (fs : filesystem) :
  fs ⊆ files (execute_copy_rename env successful failed output_dir fs).1 /\
  (execute_copy_rename env successful failed output_dir fs).2 <> OutOfFuel.
Proof.
  unfold execute_copy_rename.
  pose proof (wf_parse_path output_dir) as Hout.
  pose proof (wf_joinpath _ (u "_failed") Hout) as Hfailed.
  assert (forall n st, files st ⊆ files (print_all env n st).1 /\
                       (print_all env n st).2 <> OutOfFuel) as Hprint.
  { intros n st. by destruct (print_all_files n st) as [-> ?]. }
  change fs with (files (initial_state fs)) at 1.
  apply and_then_subseteq; [apply ensure_dir_subseteq|]. intros st1.
  apply and_then_subseteq;
    [destruct failed; [done | apply ensure_dir_subseteq]|]. intros st2.
  apply and_then_subseteq; [apply Hprint|]. intros st3.
  apply and_then_subseteq;
    [apply for_each_subseteq; intros; by apply copy_success_subseteq|].
  intros st4.
  apply and_then_subseteq; [|intros st5; apply Hprint].
  destruct failed as [|r rest]; [done|].
  apply and_then_subseteq; [apply Hprint|]. intros st5.
  apply for_each_subseteq. intros. by apply copy_failed_subseteq.
Qed.

(** C3.  Whatever faults the copies meet and however the run ends, every
    file that existed before the run has the same bytes after it (and
    every directory is still there): the executor writes only to paths
    that did not exist, and the run does end. *)
Theorem execute_preserves_sources (successful failed : list RenameResult)
    (output_dir : str) (fs : filesystem) (p : Path) (data : list Byte.byte) :
  fs !! p = Some (File data) ->
  files (execute_copy_rename env successful failed output_dir fs).1 !! p =
    Some (File data) /\
  fs ⊆ files (execute_copy_rename env successful failed output_dir fs).1 /\
  (execute_copy_rename env successful failed output_dir fs).2 <> OutOfFuel.
Proof.
  intros Hp.
  destruct (execute_subseteq successful failed output_dir fs) as [Hsub Hend].
  split; [|done]. by eapply lookup_weaken.
Qed.

End ExecutorProperties.

Lemma execute_preserves_sources_witness :
  files (execute_copy_rename faulty_env
           [renamed_to_X "/m/a.mp3"; renamed_to_X "/m/b.mp3"; renamed_to_X "/m/c.mp3"]
           [unsupported "/m/d.txt"] (u "/m") music_fs).1 !! PosixPath "/m/b.mp3" =
    Some (File [Byte.x02]) /\
  music_fs ⊆
    files (execute_copy_rename faulty_env
             [renamed_to_X "/m/a.mp3"; renamed_to_X "/m/b.mp3"; renamed_to_X "/m/c.mp3"]
             [unsupported "/m/d.txt"] (u "/m") music_fs).1 /\
  (execute_copy_rename faulty_env
     [renamed_to_X "/m/a.mp3"; renamed_to_X "/m/b.mp3"; renamed_to_X "/m/c.mp3"]
     [unsupported "/m/d.txt"] (u "/m") music_fs).2 <> OutOfFuel.
Proof.
  apply (execute_preserves_sources faulty_env). vm_compute. reflexivity.
Defined.

(** A run whose output folder is the source folder itself, under those
    faults: the copies land beside the sources, and the failed copies are
    recorded. *)
Example faulty_run :
  let st := (execute_copy_rename faulty_env
               [renamed_to_X "/m/a.mp3"; renamed_to_X "/m/b.mp3"; renamed_to_X "/m/c.mp3"]
               [unsupported "/m/d.txt"] (u "/m") music_fs).1 in
  files st !! PosixPath "/m/X.mp3" = Some (File [Byte.x01]) /\
  files st !! PosixPath "/m/X (1).mp3" = Some (File [Byte.xff]) /\
  files st !! PosixPath "/m/X (2).mp3" = Some (File [Byte.x03]) /\
  files st !! PosixPath "/m/_failed/d.txt" = None /\
  copied_count st = 2%nat /\ failed_count st = 0%nat /\
  errors st = [u "Failed to copy b.mp3: I/O error";
               u "Failed to copy d.txt: I/O error"].
Proof. vm_compute. repeat split; reflexivity. Qed.

(** ** The scanner's order *)

Lemma str_ltb_lexico (a b : str) : str_ltb a b = true <-> lexico a b.
Proof.
  revert b. induction a as [|x a IH]; intros [|y b]; simpl; try done.
  change (lexico (x :: a) (y :: b)) with (lexico (x, a) (y, b)).
  unfold lexico at 1, prod_lexico. simpl.
  rewrite orb_true_iff, andb_true_iff, N.ltb_lt, N.eqb_eq, IH. done.
Qed.

Lemma parts_ltb_lexico (a b : list str) : parts_ltb a b = true <-> lexico a b.
Proof.
  revert b. induction a as [|x a IH]; intros [|y b]; simpl; try done.
  change (lexico (x :: a) (y :: b)) with (lexico (x, a) (y, b)).
  unfold lexico at 1, prod_lexico. simpl.
  unfold str_eqb.
  rewrite orb_true_iff, andb_true_iff, str_ltb_lexico, bool_decide_eq_true, IH.
  done.
Qed.

Lemma path_le_spec (p q : Path) :
  path_le p q <-> ~ lexico (cparts q) (cparts p).
Proof.
  unfold path_le, path_ltb. rewrite <- parts_ltb_lexico.
  by destruct (parts_ltb _ _).
Qed.

#[global] Instance path_le_trans : Transitive path_le.
Proof.
  intros p q r. rewrite !path_le_spec. intros Hpq Hqr Hrp.
  destruct (trichotomy lexico (cparts p) (cparts q)) as [H|[H|H]].
  - apply Hqr. by transitivity (cparts p).
  - apply Hqr. by rewrite <- H.
  - done.
Qed.

#[global] Instance path_le_total : Total path_le.
Proof.
  intros p q. rewrite !path_le_spec.
  destruct (trichotomy lexico (cparts p) (cparts q)) as [H|[H|H]].
  - left. intros H'. by apply (irreflexivity lexico (cparts p)); transitivity (cparts q).
  - left. rewrite H. apply irreflexivity, _.
  - right. intros H'. by apply (irreflexivity lexico (cparts p)); transitivity (cparts q).
Qed.

(** Among paths with the same root flag, the order is antisymmetric. *)
Lemma path_le_antisym (p q : Path) :
  is_abs p = is_abs q -> path_le p q -> path_le q p -> p = q.
Proof.
  rewrite !path_le_spec. intros Habs Hpq Hqp.
  destruct (trichotomy lexico (cparts p) (cparts q)) as [H|[H|H]]; try done.
  destruct p as [a ps], q as [b qs]. simpl in Habs. subst b.
  unfold cparts in H. simpl in H. apply app_inv_head in H. by subst.
Qed.

Lemma path_ltb_le (p q : Path) : path_ltb p q = true -> path_le p q.
Proof.
  unfold path_ltb. rewrite path_le_spec, parts_ltb_lexico. intros H H'.
  by apply (irreflexivity lexico (cparts p)); transitivity (cparts q).
Qed.

Lemma path_ltb_irrefl (p : Path) : path_ltb p p = false.
Proof.
  unfold path_ltb. destruct (parts_ltb _ _) eqn:E; [|done].
  apply parts_ltb_lexico in E. by apply irreflexivity in E; [|apply _].
Qed.

Lemma StronglySorted_lookup (R : relation Path) (l : list Path) i j p q :
  StronglySorted R l -> (i < j)%nat -> l !! i = Some p -> l !! j = Some q ->
  R p q.
Proof.
  intros Hs. revert i j. induction Hs as [|x l Hs IH Hx]; intros i j Hij Hi Hj.
  - done.
  - destruct j as [|j]; [lia|]. destruct i as [|i]; simpl in *.
    + injection Hi as ->. rewrite Forall_forall in Hx.
      by apply Hx, list_elem_of_lookup_2 with j.
    + apply (IH i j); [lia | done | done].
Qed.

(** In a sorted list without repetition of paths that share their root
    flag, the positions follow the strict order. *)
Lemma sorted_precedes (l : list Path) (p q : Path) :
  StronglySorted path_le l -> NoDup l ->
  (forall x y, x ∈ l -> y ∈ l -> is_abs x = is_abs y) ->
  precedes l p q <-> p ∈ l /\ q ∈ l /\ path_ltb p q = true.
Proof.
  intros Hs Hnd Habs. split.
  - intros (i & j & Hij & Hi & Hj).
    pose proof (list_elem_of_lookup_2 _ _ _ Hi) as Hp.
    pose proof (list_elem_of_lookup_2 _ _ _ Hj) as Hq.
    split; [done|]. split; [done|].
    pose proof (StronglySorted_lookup _ _ _ _ _ _ Hs Hij Hi Hj) as Hle.
    destruct (path_ltb p q) eqn:E; [done|]. exfalso.
    assert (p = q) as -> by (apply path_le_antisym; auto).
    pose proof (NoDup_lookup _ _ _ _ Hnd Hi Hj). lia.
  - intros (Hp & Hq & Hlt).
    apply list_elem_of_lookup_1 in Hp as [i Hi].
    apply list_elem_of_lookup_1 in Hq as [j Hj].
    exists i, j. split; [|done].
    destruct (decide (i < j)%nat) as [|Hge]; [done|]. exfalso.
    destruct (decide (i = j)) as [->|Hne].
    + rewrite Hi in Hj. injection Hj as ->. by rewrite path_ltb_irrefl in Hlt.
    + assert (j < i)%nat as Hji by lia.
      pose proof (StronglySorted_lookup _ _ _ _ _ _ Hs Hji Hj Hi) as Hle.
      unfold path_le in Hle. by rewrite Hle in Hlt.
Qed.

(** ** The scanner's enumeration *)

Lemma endswith_spec (s p : str) :
  endswith s p = true <-> exists pre, s = pre ++ p.
Proof.
  unfold endswith. rewrite startswith_spec. split.
  - intros [t Ht]. exists (rev t).
    rewrite <- (rev_involutive s), Ht, rev_app_distr. by rewrite rev_involutive.
  - intros [pre ->]. exists (rev pre). by rewrite rev_app_distr.
Qed.

(** A pattern without [*] matches its own text only. *)
Lemma fnmatch_literal (pat n : str) :
  mem_char 42 pat = false -> (fnmatch pat n = true <-> n = pat).
Proof.
  revert n. induction pat as [|c pat IH]; intros n Hpat.
  - by destruct n.
  - rewrite mem_char_cons in Hpat. apply orb_false_elim in Hpat as [Hc Hpat].
    rewrite N.eqb_sym in Hc. simpl. rewrite Hc.
    destruct n as [|x n]; [done|].
    rewrite andb_true_iff, N.eqb_eq, (IH n Hpat). split.
    + by intros [-> ->].
    + by intros [= -> ->].
Qed.

(** [*] followed by plain text matches the names that end with the text. *)
Lemma fnmatch_star (lit n : str) :
  mem_char 42 lit = false ->
  fnmatch (u "*" ++ lit) n = endswith n lit.
Proof.
  intros Hlit. apply eq_true_iff_eq. rewrite endswith_spec.
  change (fnmatch (u "*" ++ lit) n)
    with ((fix star_match (n : str) : bool :=
             fnmatch lit n ||
             match n with
             | [] => false
             | _ :: n' => star_match n'
             end) n).
  induction n as [|x n IH].
  - rewrite orb_false_r, fnmatch_literal by done. split.
    + intros <-. by exists [].
    + intros [pre H]. symmetry in H. by apply app_eq_nil in H as [_ ->].
  - rewrite orb_true_iff, fnmatch_literal, IH by done. split.
    + intros [->|[pre ->]]; [by exists [] | by exists (x :: pre)].
    + intros [[|y pre] H]; [by left|]. injection H as -> ->. right. eauto.
Qed.

Lemma is_below_abs (dir p : Path) :
  is_below dir p = true -> is_abs p = is_abs dir.
Proof.
  unfold is_below. rewrite andb_true_iff. intros [H _].
  symmetry. by apply Bool.eqb_prop.
Qed.

Section ScannerProperties.

Context `{I : !SetIter str} `{J : !SetIter Path}.

Variable fs : filesystem.

Lemma elem_of_rglob (dir : Path) (pattern : str) (p : Path) :
  p ∈ rglob fs dir pattern <->
  p ∈ dom fs /\ is_below dir p = true /\ fnmatch pattern (name p) = true.
Proof.
  unfold rglob. rewrite list_elem_of_filter, set_iter_perm, elem_of_elements.
  rewrite andb_true_iff. tauto.
Qed.

Lemma elem_of_found (dir : Path) (p : Path) :
  p ∈ flat_map
        (fun ext => rglob fs dir (u "*" ++ ext) ++ rglob fs dir (u "*" ++ upper ext))
        (set_iter (list_to_set SUPPORTED_EXTENSIONS)) <->
  p ∈ dom fs /\ is_below dir p = true /\ scanned_name (name p).
Proof.
  rewrite list_elem_of_In, in_flat_map. unfold scanned_name. split.
  - intros (ext & Hext & Hp).
    apply list_elem_of_In in Hext, Hp.
    rewrite set_iter_perm, elem_of_elements, elem_of_list_to_set in Hext.
    rewrite elem_of_app, !elem_of_rglob in Hp.
    destruct Hp as [(? & ? & ?)|(? & ? & ?)]; eauto 10.
  - intros (Hdom & Hbelow & ext & Hext & Hm). exists ext. split.
    + apply list_elem_of_In.
      by rewrite set_iter_perm, elem_of_elements, elem_of_list_to_set.
    + apply list_elem_of_In. rewrite elem_of_app, !elem_of_rglob. tauto.
Qed.

(** What the scanner enumerates: the entries below the root whose name
    ends with a supported extension in lower case or in upper case. *)
Lemma elem_of_audio_files (dir : Path) (p : Path) :
  p ∈ audio_files fs dir <->
  p ∈ dom fs /\ is_below dir p = true /\ scanned_name (name p).
Proof.
  unfold audio_files, sort_paths.
  rewrite merge_sort_Permutation, set_iter_perm, elem_of_elements.
  rewrite elem_of_list_to_set. apply elem_of_found.
Qed.

Lemma audio_files_NoDup (dir : Path) : NoDup (audio_files fs dir).
Proof.
  unfold audio_files, sort_paths.
  rewrite merge_sort_Permutation, set_iter_perm. apply NoDup_elements.
Qed.

Lemma audio_files_sorted (dir : Path) : Sorted path_le (audio_files fs dir).
Proof. apply Sorted_merge_sort, _. Qed.

Lemma audio_files_abs (dir : Path) (p q : Path) :
  p ∈ audio_files fs dir -> q ∈ audio_files fs dir -> is_abs p = is_abs q.
Proof.
  rewrite !elem_of_audio_files.
  intros (_ & Hp%is_below_abs & _) (_ & Hq%is_below_abs & _). congruence.
Qed.

End ScannerProperties.

(** The result of the scan does not depend on the order in which the
    directory is enumerated or the sets are iterated. *)
Lemma audio_files_deterministic (I1 I2 : SetIter str) (J1 J2 : SetIter Path)
    (fs : filesystem) (dir : Path) :
  @audio_files I1 J1 fs dir = @audio_files I2 J2 fs dir.
Proof.
  apply (Sorted_unique_strong path_le).
  - intros p q Hp Hq. apply path_le_antisym.
    apply elem_of_audio_files in Hp as (_ & Hp%is_below_abs & _).
    apply elem_of_audio_files in Hq as (_ & Hq%is_below_abs & _). congruence.
  - apply audio_files_sorted.
  - apply audio_files_sorted.
  - apply NoDup_Permutation; [apply audio_files_NoDup.. |].
    intros p. by rewrite !elem_of_audio_files.
Qed.

(** C8, as stated, fails: the scanner lists [/m/Album/01.mp3] before
    [/m/Album (Live)/01.mp3], while as a string the second is the smaller
    one (a space sorts before a slash). *)
Lemma scan_order_not_by_text :
  @audio_files (elements_iter _) (elements_iter _) albums_fs (PosixPath "/m") =
    [PosixPath "/m/Album/01.mp3"; PosixPath "/m/Album (Live)/01.mp3"] /\
  str_ltb (path_str (PosixPath "/m/Album (Live)/01.mp3"))
          (path_str (PosixPath "/m/Album/01.mp3")) = true /\
  str_ltb (path_str (PosixPath "/m/Album/01.mp3"))
          (path_str (PosixPath "/m/Album (Live)/01.mp3")) = false.
Proof. vm_compute. repeat split; reflexivity. Qed.

(** C8, amended.  The scanner's result is the same whatever the order in
    which the directory is enumerated and the sets are iterated, and it is
    sorted by the sequence of path components: [p] stands before [q] in it
    exactly when both are in it and the components of [p] are
    lexicographically smaller than those of [q], each component compared
    as a string. *)
Theorem scan_order_by_components (I1 I2 : SetIter str) (J1 J2 : SetIter Path)
    (fs : filesystem) (dir : Path) :
  @audio_files I1 J1 fs dir = @audio_files I2 J2 fs dir /\
  forall p q,
    precedes (@audio_files I1 J1 fs dir) p q <->
    p ∈ @audio_files I1 J1 fs dir /\ q ∈ @audio_files I1 J1 fs dir /\
    parts_ltb (cparts p) (cparts q) = true.
Proof.
  split; [apply audio_files_deterministic|].
  intros p q. apply sorted_precedes.
  - apply Sorted_StronglySorted; [apply _ | apply audio_files_sorted].
  - apply audio_files_NoDup.
  - apply audio_files_abs.
Qed.

(** C7.  The scanner leaves out [song.Mp3]: its name matches neither
    [*.mp3] nor [*.MP3].  [process_file] lower-cases the suffix and would
    have taken the file as supported.  (The directory [rips.ogg] is
    listed: the patterns select entries by name only.) *)
Example scan_skips_mixed_case :
  @audio_files (elements_iter _) (elements_iter _) mixed_case_fs (PosixPath "/m") =
    [PosixPath "/m/a.mp3"; PosixPath "/m/b.FLAC"; PosixPath "/m/rips.ogg"] /\
  mixed_case_fs !! PosixPath "/m/song.Mp3" = Some (File [Byte.x03]) /\
  bool_decide (lower (suffix (PosixPath "/m/song.Mp3")) ∈ SUPPORTED_EXTENSIONS) = true.
Proof. vm_compute. repeat split; reflexivity. Qed.

(** The same holds for every mixed-case spelling of an extension: a name
    that ends with neither the lower-case nor the upper-case spelling of a
    supported extension is never listed. *)
Lemma scan_needs_uniform_case `{I : !SetIter str} `{J : !SetIter Path}
    (fs : filesystem) (dir p : Path) :
  p ∈ audio_files fs dir ->
  exists ext, ext ∈ SUPPORTED_EXTENSIONS /\
    (endswith (name p) ext = true \/ endswith (name p) (upper ext) = true).
Proof.
  intros (_ & _ & ext & Hext & Hm)%elem_of_audio_files.
  exists ext. split; [done|].
  assert (mem_char 42 ext = false /\ mem_char 42 (upper ext) = false) as [H1 H2].
  { unfold SUPPORTED_EXTENSIONS in Hext.
    repeat (apply elem_of_cons in Hext as [->|Hext]; [by vm_compute|]).
    by apply elem_of_nil in Hext. }
  by rewrite !fnmatch_star in Hm.
Qed.

(** * Further properties of the sanitizer *)

Lemma rmatch_one_of (chars : str) (c : char) (s : str) :
  rmatch [one_of chars] (c :: s) = if mem_char c chars then Some 1%nat else None.
Proof.
  unfold rmatch, one_of. cbn [a_class a_min a_max run_length fmap option_fmap option_map Nat.pred].
  destruct (mem_char c chars); [|reflexivity].
  destruct s; reflexivity.
Qed.

(** Deleting the matches of a one-character class filters the text. *)
Lemma re_sub_one_of_delete (chars s : str) :
  re_sub [one_of chars] [] s =
  filter (fun c => mem_char c chars = false) s.
Proof.
  unfold re_sub. induction s as [|c s IH]; [done|].
  rewrite sub_from_cons, rmatch_one_of.
  destruct (mem_char c chars) eqn:E.
  - rewrite filter_cons_False by (by rewrite E). by destruct s.
  - rewrite filter_cons_True by done. by rewrite IH.
Qed.

Lemma re_search_one_of (chars s : str) :
  re_search [one_of chars] s = existsb (fun c => mem_char c chars) s.
Proof.
  induction s as [|c s IH]; [reflexivity|].
  cbn [re_search existsb]. rewrite rmatch_one_of.
  destruct (mem_char c chars); [reflexivity | exact IH].
Qed.

(** A substitution keeps every property of characters that the text and
    the replacement share. *)
Lemma sub_from_Forall (Q : char -> Prop) (p : regex) (repl : str) k (s : str) :
  Forall Q repl -> Forall Q s -> Forall Q (sub_from p repl k s).
Proof.
  intros Hrepl Hs. revert k. induction Hs as [|c s Hc Hs IH]; intros k.
  - destruct k; constructor.
  - destruct k as [|k]; [|apply IH].
    rewrite sub_from_cons.
    destruct (rmatch p (c :: s)) as [[|n]|].
    + constructor; [done | apply IH].
    + apply Forall_app. split; [done | apply IH].
    + constructor; [done | apply IH].
Qed.

Lemma lstrip_Forall (Q : char -> Prop) (chars s : str) :
  Forall Q s -> Forall Q (lstrip chars s).
Proof.
  induction 1 as [|c s Hc Hs IH]; simpl; [constructor|].
  destruct (mem_char c chars); [done | by constructor].
Qed.

Lemma strip_Forall (Q : char -> Prop) (chars s : str) :
  Forall Q s -> Forall Q (strip chars s).
Proof.
  intros H. unfold strip, rstrip.
  apply Forall_rev, lstrip_Forall, Forall_rev. by apply lstrip_Forall.
Qed.

Lemma lstrip_first (chars s : str) :
  first_is (fun c => mem_char c chars) (lstrip chars s) = false.
Proof.
  induction s as [|c s IH]; [done|]. simpl.
  destruct (mem_char c chars) eqn:E; [done|]. simpl. exact E.
Qed.

(** Stripping the end keeps a first character that is not stripped. *)
Lemma lstrip_rev_first (chars s : str) :
  first_is (fun c => mem_char c chars) s = false ->
  first_is (fun c => mem_char c chars) (rev (lstrip chars (rev s))) = false.
Proof.
  destruct s as [|c s]; [done|]. simpl. intros Hc.
  assert (forall t, exists t', lstrip chars (t ++ [c]) = t' ++ [c]) as H.
  { induction t as [|x t [t' IH]]; simpl.
    - rewrite Hc. by exists [].
    - destruct (mem_char x chars); [eauto|]. by exists (x :: t). }
  destruct (H (rev s)) as [t' ->]. rewrite rev_app_distr. simpl. exact Hc.
Qed.

Lemma strip_trimmed (chars s : str) :
  first_is (fun c => mem_char c chars) (strip chars s) = false /\
  first_is (fun c => mem_char c chars) (rev (strip chars s)) = false.
Proof.
  unfold strip, rstrip. split.
  - apply lstrip_rev_first, lstrip_first.
  - rewrite rev_involutive. apply lstrip_first.
Qed.

Lemma rmatch_plus_space (c : char) (s : str) :
  is_space c = true -> exists n, rmatch RE_SPACES (c :: s) = Some (S n).
Proof.
  intros Hc. unfold RE_SPACES, rmatch, plus.
  cbn [a_class a_min a_max run_length fmap option_fmap option_map].
  rewrite Hc. cbn [Nat.ltb Nat.leb Nat.sub].
  set (n := run_length is_space None s). rewrite Nat.sub_0_r.
  unfold try_down. destruct n as [|n]; cbn; eauto.
Qed.

Lemma sub_spaces_plain k (s : str) :
  Forall (fun c => is_space c = true -> c = SPACE)
         (sub_from RE_SPACES (u " ") k s).
Proof.
  revert k. induction s as [|c s IH]; intros k; [destruct k; constructor|].
  destruct k as [|k]; [|apply IH].
  rewrite sub_from_cons.
  destruct (is_space c) eqn:Hc.
  - destruct (rmatch_plus_space c s Hc) as [n ->].
    constructor; [done | apply IH].
  - destruct (rmatch RE_SPACES (c :: s)) as [[|n]|].
    + constructor; [by rewrite Hc | apply IH].
    + constructor; [done | apply IH].
    + constructor; [by rewrite Hc | apply IH].
Qed.

Lemma sanitize_text_valid (x : str) :
  Forall (fun c => mem_char c INVALID_CHARS = false) (sanitize_text x).
Proof.
  unfold sanitize_text. apply strip_Forall.
  unfold re_sub.
  apply sub_from_Forall; [by repeat constructor|].
  apply sub_from_Forall; [by repeat constructor|].
  apply sub_from_Forall; [by repeat constructor|].
  fold (re_sub INVALID_CHARS_PATTERN [] (apply_replacements REPLACEMENTS x)).
  unfold INVALID_CHARS_PATTERN. rewrite re_sub_one_of_delete.
  apply Forall_forall. by intros c [? _]%list_elem_of_filter.
Qed.

(** X1.  Whatever the input, the sanitized text has no platform-invalid
    character, so [has_invalid_chars] rejects it. *)
Theorem sanitize_output_valid (x : str) :
  no_invalid (sanitize_text x) = true /\
  has_invalid_chars (sanitize (Some x)).1 = false.
Proof.
  pose proof (sanitize_text_valid x) as H.
  split.
  - unfold no_invalid. apply forallb_forall. intros c Hc%list_elem_of_In.
    rewrite Forall_forall in H. by rewrite (H c Hc).
  - simpl. unfold INVALID_CHARS_PATTERN. rewrite re_search_one_of.
    apply not_true_iff_false. intros (c & Hc%list_elem_of_In & Hbad)%existsb_exists.
    rewrite Forall_forall in H. by rewrite (H c Hc) in Hbad.
Qed.

(** X2.  Whatever the input, the sanitized text neither starts nor ends with a
    space, a period or a dash. *)
Theorem sanitize_output_trimmed (x : str) : trimmed (sanitize_text x) = true.
Proof.
  unfold trimmed, sanitize_text.
  destruct (strip_trimmed (u " .-")
              (re_sub RE_DASH_PAIR (u " - ")
                 (re_sub RE_DASHES (u "-")
                    (re_sub RE_SPACES (u " ")
                       (re_sub INVALID_CHARS_PATTERN []
                          (apply_replacements REPLACEMENTS x))))))
    as [-> ->].
  reflexivity.
Qed.

(** X3.  Whatever the input, the only whitespace left in the sanitized text is
    the plain space: tabs, line breaks and the other Unicode spaces are
    gone. *)
Theorem sanitize_output_plain_spaces (x : str) :
  plain_spaces (sanitize_text x) = true.
Proof.
  assert (Forall (fun c => is_space c = true -> c = SPACE) (sanitize_text x))
    as H.
  { unfold sanitize_text. apply strip_Forall. unfold re_sub.
    apply sub_from_Forall; [by repeat constructor|].
    apply sub_from_Forall; [by repeat constructor|].
    apply sub_spaces_plain. }
  unfold plain_spaces. apply forallb_forall. intros c Hc%list_elem_of_In.
  rewrite Forall_forall in H. specialize (H c Hc).
  destruct (is_space c); [|done]. rewrite H by done. reflexivity.
Qed.

(** X4.  [has_invalid_chars] holds exactly for the texts in which some
    character is platform-invalid; it is false for [None]. *)
Theorem has_invalid_chars_spec (text : option str) :
  has_invalid_chars text = true <->
  exists t c, text = Some t /\ c ∈ t /\ mem_char c INVALID_CHARS = true.
Proof.
  destruct text as [t|]; simpl.
  - unfold INVALID_CHARS_PATTERN. rewrite re_search_one_of, existsb_exists.
    split.
    + intros (c & Hc%list_elem_of_In & Hbad). eauto.
    + intros (t' & c & [= <-] & Hc%list_elem_of_In & Hbad). eauto.
  - split; [done|]. by intros (t & c & ? & _).
Qed.

(** ** Runs of dashes *)

Lemma no_dash_run_contains (s : str) :
  no_dash_run s = true <-> contains (u "--") s = false.
Proof.
  induction s as [|c s IH]; [done|].
  change (contains (u "--") (c :: s)) with
    (startswith (c :: s) (u "--") || contains (u "--") s).
  cbn [no_dash_run]. rewrite andb_true_iff, orb_false_iff, IH, negb_true_iff.
  assert (startswith (c :: s) (u "--") =
          is_char DASH c && first_is (is_char DASH) s) as ->; [|done].
  change (u "--") with [DASH; DASH]. unfold is_char.
  destruct s as [|d s]; cbn [startswith first_is].
  - by rewrite andb_false_r.
  - by rewrite andb_true_r.
Qed.

Lemma no_dash_run_tail (c : char) (s : str) :
  no_dash_run (c :: s) = true -> no_dash_run s = true.
Proof. cbn [no_dash_run]. by intros [_ ?]%andb_true_iff. Qed.

Lemma no_dash_run_drop (k : nat) (s : str) :
  no_dash_run s = true -> no_dash_run (drop k s) = true.
Proof.
  revert s. induction k as [|k IH]; intros [|c s] H; try done.
  simpl. apply IH. by eapply no_dash_run_tail.
Qed.

(** The match of [-{2,}] is the whole run of dashes, when it has two or
    more. *)
Lemma rmatch_dashes (s : str) :
  rmatch RE_DASHES s =
  if (run_length (is_char DASH) None s <? 2)%nat then None
  else Some (run_length (is_char DASH) None s).
Proof.
  unfold RE_DASHES, rmatch, at_least. cbn [a_class a_min a_max].
  destruct (Nat.ltb_spec (run_length (is_char DASH) None s) 2) as [Hlt|Hge];
    [done|].
  unfold try_down.
  destruct (run_length (is_char DASH) None s - 2)%nat eqn:E; f_equal; lia.
Qed.

Lemma run_length_next (cl : char -> bool) (s : str) :
  first_is cl (drop (run_length cl None s) s) = false.
Proof.
  induction s as [|c s IH]; [done|]. cbn [run_length fmap option_fmap option_map].
  destruct (cl c) eqn:E; [exact IH | simpl; exact E].
Qed.

Lemma run_length_zero (cl : char -> bool) (s : str) :
  run_length cl None s = O -> first_is cl s = false.
Proof.
  destruct s as [|c s]; [done|]. cbn [run_length fmap option_fmap option_map first_is].
  by destruct (cl c).
Qed.

(** The output of a substitution starts with a dash only where the input
    does, when the replacement is a dash and matches start with one, or
    when the replacement starts with something else. *)
Lemma sub_dashes_first (t : str) :
  first_is (is_char DASH) (sub_from RE_DASHES (u "-") O t) = true ->
  first_is (is_char DASH) t = true.
Proof.
  destruct t as [|c t]; [done|]. rewrite sub_from_cons, rmatch_dashes.
  cbn [run_length fmap option_fmap option_map].
  destruct (is_char DASH c) eqn:Hc; [by cbn [first_is]; rewrite Hc|].
  cbn [Nat.ltb Nat.leb first_is]. by rewrite Hc.
Qed.

Lemma sub_dashes_no_run (k : nat) (s : str) :
  no_dash_run (sub_from RE_DASHES (u "-") k s) = true.
Proof.
  revert k. induction s as [|c s IH]; intros k; [by destruct k|].
  destruct k as [|k]; [|apply IH].
  rewrite sub_from_cons, rmatch_dashes.
  destruct (Nat.ltb_spec (run_length (is_char DASH) None (c :: s)) 2) as [Hlt|Hge].
  - cbn [no_dash_run]. rewrite IH, andb_true_r, negb_true_iff.
    destruct (is_char DASH c) eqn:Hc; [|done]. cbn [andb].
    apply not_true_iff_false. intros Hfirst%sub_dashes_first.
    cbn [run_length fmap option_fmap option_map] in Hlt. rewrite Hc in Hlt.
    rewrite run_length_zero in Hfirst by lia. done.
  - destruct (run_length (is_char DASH) None (c :: s)) as [|n] eqn:E; [lia|].
    change (u "-" ++ sub_from RE_DASHES (u "-") n s)
      with (DASH :: sub_from RE_DASHES (u "-") n s).
    cbn [no_dash_run]. rewrite IH, andb_true_r, negb_true_iff.
    apply andb_false_intro2, not_true_iff_false.
    rewrite sub_from_skip. intros Hfirst%sub_dashes_first.
    pose proof (run_length_next (is_char DASH) (c :: s)) as Hnext.
    rewrite E in Hnext. simpl in Hnext. by rewrite Hnext in Hfirst.
Qed.

Lemma sub_spaced_first (p : regex) (t : str) :
  first_is (is_char DASH) (sub_from p (u " - ") O t) = true ->
  first_is (is_char DASH) t = true.
Proof.
  destruct t as [|c t]; [done|]. rewrite sub_from_cons.
  by destruct (rmatch p (c :: t)) as [[|n]|].
Qed.

(** Replacing matches by a dash between two spaces brings no two dashes
    together. *)
Lemma sub_spaced_no_run (p : regex) (k : nat) (s : str) :
  no_dash_run s = true -> no_dash_run (sub_from p (u " - ") k s) = true.
Proof.
  revert k. induction s as [|c s IH]; intros k Hs; [by destruct k|].
  pose proof (no_dash_run_tail _ _ Hs) as Ht.
  destruct k as [|k]; [|by apply IH].
  rewrite sub_from_cons.
  assert (no_dash_run (c :: sub_from p (u " - ") O s) = true) as Hcopy.
  { cbn [no_dash_run] in *. rewrite IH, andb_true_r by done.
    apply andb_true_iff in Hs as [Hs _]. rewrite negb_true_iff in *.
    destruct (is_char DASH c); [|done]. cbn [andb] in *.
    apply not_true_iff_false. intros Hfirst%sub_spaced_first. congruence. }
  destruct (rmatch p (c :: s)) as [[|n]|]; [done| |done].
  change (u " - " ++ sub_from p (u " - ") n s)
    with (SPACE :: DASH :: SPACE :: sub_from p (u " - ") n s).
  cbn [no_dash_run first_is]. rewrite IH by done. reflexivity.
Qed.

Lemma lstrip_suffix (chars s : str) : exists pre, s = pre ++ lstrip chars s.
Proof.
  induction s as [|c s [pre IH]]; [by exists []|]. simpl.
  destruct (mem_char c chars); [|by exists []].
  exists (c :: pre). simpl. by rewrite <- IH.
Qed.

(** What [strip] returns is a stretch of its argument. *)
Lemma strip_substring (chars s : str) :
  exists pre post, s = pre ++ strip chars s ++ post.
Proof.
  unfold strip, rstrip.
  destruct (lstrip_suffix chars s) as [pre Hpre].
  destruct (lstrip_suffix chars (rev (lstrip chars s))) as [post Hpost].
  exists pre, (rev post).
  rewrite <- rev_app_distr, <- Hpost, rev_involutive. exact Hpre.
Qed.

(** X5.  Whatever the input, the sanitized text has no two dashes side by
    side. *)
Theorem sanitize_output_no_dash_run (x : str) :
  contains (u "--") (sanitize_text x) = false.
Proof.
  apply not_true_iff_false. intros Hin.
  apply contains_spec in Hin as (a & b & Hin).
  unfold sanitize_text in Hin.
  set (t := re_sub RE_DASH_PAIR (u " - ") _) in Hin.
  assert (no_dash_run t = true) as Ht
    by apply sub_spaced_no_run, sub_dashes_no_run.
  destruct (strip_substring (u " .-") t) as (pre & post & Hsub).
  apply no_dash_run_contains in Ht. apply not_true_iff_false in Ht.
  apply Ht, contains_spec. exists (pre ++ a), (b ++ post).
  rewrite Hsub, Hin. by rewrite <- !app_assoc.
Qed.

(** ** Lengths *)

Lemma startswith_length (s p : str) :
  startswith s p = true -> (length p <= length s)%nat.
Proof.
  intros [t ->]%startswith_spec. rewrite length_app. lia.
Qed.

Lemma replace_from_length (old new : str) (k : nat) (s : str) :
  (length new <= length old)%nat ->
  (length (replace_from old new k s) <= length s - k)%nat.
Proof.
  intros Hnew. revert k. induction s as [|c s IH]; intros k; [by destruct k|].
  destruct k as [|k]; [|exact (IH k)].
  change (replace_from old new 0 (c :: s)) with
    (if startswith (c :: s) old
     then new ++ replace_from old new (Nat.pred (length old)) s
     else c :: replace_from old new 0 s).
  destruct (startswith (c :: s) old) eqn:E.
  - apply startswith_length in E. simpl in E.
    rewrite length_app. specialize (IH (Nat.pred (length old))). simpl. lia.
  - specialize (IH O). simpl. lia.
Qed.

Lemma apply_replacements_length (table : list (str * str)) (s : str) :
  Forall (fun '(old, new) => old <> [] /\ (length new <= length old)%nat) table ->
  (length (apply_replacements table s) <= length s)%nat.
Proof.
  unfold apply_replacements. intros Htable. revert s.
  induction Htable as [|[old new] table [Hold Hnew] _ IH]; intros s; [done|].
  cbn [fold_left]. etrans; [apply IH|].
  destruct old as [|x old]; [done|].
  pose proof (replace_from_length (x :: old) new O s Hnew). unfold replace. lia.
Qed.

(** A substitution whose replacement is no longer than any of its matches
    does not lengthen the text.  [Q] is any property of the scanned text
    that its tails inherit. *)
Lemma sub_from_length (p : regex) (repl : str) (Q : str -> Prop) :
  (forall c t, Q (c :: t) -> Q t) ->
  (forall t n, Q t -> rmatch p t = Some (S n) -> (length repl <= S n)%nat) ->
  forall k s, Q s -> (length (sub_from p repl k s) <= length s - k)%nat.
Proof.
  intros Htail Hmatch k s. revert k.
  induction s as [|c s IH]; intros k HQ; [by destruct k|].
  pose proof (Htail _ _ HQ) as HQ'.
  destruct k as [|k]; [|exact (IH k HQ')].
  rewrite sub_from_cons.
  destruct (rmatch p (c :: s)) as [[|n]|] eqn:E.
  - specialize (IH O HQ'). simpl. lia.
  - pose proof (Hmatch _ _ HQ E) as Hrepl.
    apply rmatch_sound in E as [Hn _]. simpl in Hn.
    rewrite length_app. specialize (IH n HQ'). simpl. lia.
  - specialize (IH O HQ'). simpl. lia.
Qed.

Lemma re_sub_length_short (p : regex) (repl s : str) :
  (length repl <= 1)%nat -> (length (re_sub p repl s) <= length s)%nat.
Proof.
  intros Hrepl.
  pose proof (sub_from_length p repl (fun _ => True)) as H.
  specialize (H (fun _ _ _ => I)). unfold re_sub.
  etrans; [apply H; [intros; lia | done] | lia].
Qed.

(** In a text without two dashes side by side, a match of the dash pair
    holds whitespace between its dashes, so it has three characters or
    more. *)
Lemma dash_pair_match_length (t : str) (n : nat) :
  no_dash_run t = true -> rmatch RE_DASH_PAIR t = Some n -> (3 <= n)%nat.
Proof.
  intros Ht Hm. apply rmatch_sound in Hm as [Hlen Hd].
  destruct Hd as (w0 & r0 & E0 & Hw0 & _ & _ & Hd).
  apply denotes_lit in Hd as (r1 & -> & Hd).
  destruct Hd as (w1 & r2 & -> & Hw1 & _ & _ & Hd).
  apply denotes_lit in Hd as (r3 & -> & _).
  assert (length (take n t) = n) as Hn by (rewrite length_take; lia).
  rewrite E0 in Hn. rewrite !length_app in Hn. cbn [length] in Hn.
  rewrite length_app in Hn. cbn [length] in Hn.
  destruct (decide (3 <= n)%nat) as [|Hshort]; [done|exfalso].
  destruct w0 as [|? ?]; [|simpl in Hn; lia].
  destruct w1 as [|? ?]; [|simpl in Hn; lia].
  rewrite <- (take_drop n t), E0 in Ht. by cbn in Ht.
Qed.

(** X6.  Whatever the input, the sanitized text is no longer than the input. *)
Theorem sanitize_never_longer (x : str) :
  (length (sanitize_text x) <= length x)%nat.
Proof.
  unfold sanitize_text.
  set (t0 := apply_replacements REPLACEMENTS x).
  set (t1 := re_sub INVALID_CHARS_PATTERN [] t0).
  set (t2 := re_sub RE_SPACES (u " ") t1).
  set (t3 := re_sub RE_DASHES (u "-") t2).
  set (t4 := re_sub RE_DASH_PAIR (u " - ") t3).
  assert (length t0 <= length x)%nat as H0.
  { apply apply_replacements_length. unfold REPLACEMENTS.
    repeat constructor; try done; vm_compute; lia. }
  assert (length t1 <= length t0)%nat as H1
    by (apply re_sub_length_short; simpl; lia).
  assert (length t2 <= length t1)%nat as H2
    by (apply re_sub_length_short; simpl; lia).
  assert (length t3 <= length t2)%nat as H3
    by (apply re_sub_length_short; simpl; lia).
  assert (length t4 <= length t3)%nat as H4.
  { pose proof (sub_from_length RE_DASH_PAIR (u " - ")
                  (fun t => no_dash_run t = true) no_dash_run_tail) as H.
    unfold t4, re_sub. etrans; [apply H|lia].
    - intros t n Ht Hm. apply (dash_pair_match_length t (S n) Ht Hm).
    - apply sub_dashes_no_run. }
  destruct (strip_substring (u " .-") t4) as (pre & post & Hsub).
  apply (f_equal length) in Hsub. rewrite !length_app in Hsub. lia.
Qed.

(** * Further properties of the metadata extractor *)

(** The first piece of a split is the text before the first separator. *)
Lemma str_split_head (sep : char) (s h : str) :
  head (str_split sep s) = Some h ->
  mem_char sep h = false /\ (s = h \/ exists rest, s = h ++ sep :: rest).
Proof.
  revert h. induction s as [|c s IH]; intros h; simpl.
  - intros [= <-]. split; [done | by left].
  - destruct (c =? sep) eqn:E.
    + intros [= <-]. split; [done|]. right. exists s.
      apply N.eqb_eq in E. by subst.
    + destruct (str_split sep s) as [|h' t] eqn:Es.
      * intros [= <-]. destruct (str_split_nonempty sep s) as (? & ? & H).
        congruence.
      * intros [= <-]. destruct (IH h' eq_refl) as [Hno Hshape].
        split; [by rewrite mem_char_cons, N.eqb_sym, E|].
        destruct Hshape as [->|[rest ->]]; [by left | right; eauto].
Qed.

Lemma int_to_str_no_slash (n : Z) : mem_char SLASH (int_to_str n) = false.
Proof.
  destruct n as [|p|p]; [done | apply uint_to_str_no_slash |].
  change (int_to_str (Z.neg p)) with (DASH :: uint_to_str (Pos.to_uint p)).
  rewrite mem_char_cons. apply uint_to_str_no_slash.
Qed.

(** X7.  The track number [get_metadata] reports holds no slash.  From easy tags it is the text of the first
    [tracknumber] value up to its first slash (the numerator of [N/M]);
    from an MP4 file it is the decimal text of a non-zero track. *)
Theorem get_metadata_track `{TagLibrary} (filepath : str) (md : Metadata)
    (track : str) :
  get_metadata filepath = Some md ->
  md_track_number md = Some track ->
  mem_char SLASH track = false /\
  (if endswith (lower filepath) (u ".m4a") || endswith (lower filepath) (u ".mp4")
   then exists tags n total rest,
          MP4 filepath = Some (Some tags) /\
          mp4_trkn tags = Some ((n, total) :: rest) /\
          n <> 0%Z /\ track = int_to_str n
   else exists audio raw more,
          MutagenFile filepath = Some (Some audio) /\
          audio (u "tracknumber") = Some (raw :: more) /\ raw <> [] /\
          (raw = track \/ exists rest, raw = track ++ SLASH :: rest)).
Proof.
  unfold get_metadata.
  destruct (MutagenFile filepath) as [[audio|]|]; [|done|done].
  destruct (_ || _).
  - destruct (MP4 filepath) as [[tags|]|]; [|done|done].
    destruct (entry_0 (mp4_text tags ATOM_ART)) as [a|]; [|done].
    destruct (entry_0 (mp4_text tags ATOM_ALB)) as [b|]; [|done].
    destruct (entry_0 (mp4_text tags ATOM_NAM)) as [c|]; [|done].
    destruct (mp4_trkn tags) as [[|[n total] rest]|] eqn:Etr; simpl; try done.
    + destruct (n =? 0)%Z eqn:En; intros [= <-]; simpl; [done|].
      intros [= <-]. split; [apply int_to_str_no_slash|].
      exists tags, n, total, rest. repeat split; try done.
      intros ->. done.
    + by intros [= <-].
  - destruct (entry_0 (audio (u "artist"))) as [a|]; [|done].
    destruct (entry_0 (audio (u "album"))) as [b|]; [|done].
    destruct (entry_0 (audio (u "title"))) as [c|]; [|done].
    destruct (audio (u "tracknumber")) as [[|raw more]|] eqn:Etr; simpl; try done.
    + destruct raw as [|x raw]; simpl; [by intros [= <-]|].
      intros [= <-]. simpl. intros Hhead.
      apply (str_split_head SLASH (x :: raw)) in Hhead as [Hno Hshape].
      split; [done|]. exists audio, (x :: raw), more. done.
    + by intros [= <-].
Qed.

(** * Further properties of the pipeline *)

Lemma sanitize_field_step (md sm : Metadata) details (was : bool) (f : Field) :
  sanitize_field md (sm, details, was) f =
  (md_set sm f (sanitized_value md f),
   details ++
   (if field_changed md f
    then [(f, (or_empty (md_get md f), sanitize_text (or_empty (md_get md f))))]
    else []),
   was || field_changed md f).
Proof.
  unfold sanitize_field, sanitized_value, field_changed, sanitize.
  destruct (md_get md f) as [[|c o]|]; cbn [truthy or_empty andb].
  - by rewrite app_nil_r, orb_false_r.
  - destruct (negb _); [by rewrite orb_true_r | by rewrite app_nil_r, orb_false_r].
  - by rewrite app_nil_r, orb_false_r.
Qed.

(** The sanitizing loop in closed form. *)
Lemma sanitize_loop_closed (md : Metadata) :
  fold_left (sanitize_field md) [artist; album; title] (md_empty, [], false) =
  (MkMetadata (sanitized_value md artist) (sanitized_value md album) None
     (sanitized_value md title),
   flat_map
     (fun f =>
        if field_changed md f
        then [(f, (or_empty (md_get md f), sanitize_text (or_empty (md_get md f))))]
        else [])
     [artist; album; title],
   field_changed md artist || field_changed md album || field_changed md title).
Proof.
  cbn [fold_left flat_map]. rewrite !sanitize_field_step.
  by rewrite app_nil_r, <- !app_assoc.
Qed.

Lemma truthy_spec (v : option str) :
  truthy v = true <-> exists o, v = Some o /\ o <> [].
Proof.
  destruct v as [[|c o]|]; simpl; split; try done.
  - by intros (o & [= <-] & ?).
  - intros _. by exists (c :: o).
  - by intros (o & ? & _).
Qed.

Lemma field_changed_spec (md : Metadata) (f : Field) :
  field_changed md f = true <->
  exists o, md_get md f = Some o /\ o <> [] /\ sanitize_text o <> o.
Proof.
  unfold field_changed, str_eqb.
  rewrite andb_true_iff, negb_true_iff, bool_decide_eq_false, truthy_spec.
  split.
  - intros [(o & Ho & Hne) Hch]. rewrite Ho in Hch. eauto.
  - intros (o & Ho & Hne & Hch). rewrite Ho. eauto.
Qed.

Section PipelineOutcome.

Variable FILENAME_FORMAT : str.
Variable FILENAME_FORMAT_NO_TRACK : str.
Variable int : str -> option Z.
Context `{!TagLibrary} `{!SetIter Field}.

(** A success of [process_file], spelled out. *)
Lemma process_file_success (filepath : str) (r : RenameResult) :
  process_file FILENAME_FORMAT FILENAME_FORMAT_NO_TRACK int filepath = Some r ->
  success r = true ->
  exists md n,
    get_metadata filepath = Some md /\
    bool_decide (lower (suffix (parse_path filepath)) ∈ SUPPORTED_EXTENSIONS) = true /\
    missing_fields FILENAME_FORMAT FILENAME_FORMAT_NO_TRACK md = [] /\
    generate_new_filename FILENAME_FORMAT FILENAME_FORMAT_NO_TRACK int
      (MkMetadata (sanitized_value md artist) (sanitized_value md album)
         (md_track_number md) (sanitized_value md title))
      (lower (suffix (parse_path filepath))) = Some n /\
    r = MkRenameResult filepath (Some n) true None
          (field_changed md artist || field_changed md album || field_changed md title)
          (flat_map
             (fun f =>
                if field_changed md f
                then [(f, (or_empty (md_get md f),
                           sanitize_text (or_empty (md_get md f))))]
                else [])
             [artist; album; title]).
Proof.
  unfold process_file.
  destruct (bool_decide _) eqn:Hext; simpl negb; cbn iota;
    [|by intros [= <-]].
  destruct (get_metadata filepath) as [md|]; [|by intros [= <-]].
  destruct (missing_fields _ _ md) as [|g rest] eqn:Hmiss; [|by intros [= <-]].
  rewrite sanitize_loop_closed. cbn [md_set md_get].
  destruct (generate_new_filename _ _ _ _ _) as [n|] eqn:Hgen; [|done].
  simpl. intros [= <-] _. exists md, n. done.
Qed.

(** X8.  The sanitize details of a success list exactly the fields among
    artist, album and title whose non-empty value sanitizing changes, each
    once, with the value before and after; and the outcome is flagged as
    sanitized exactly when there is such a field. *)
Theorem sanitize_details_exact (filepath : str) (r : RenameResult)
    (md : Metadata) :
  process_file FILENAME_FORMAT FILENAME_FORMAT_NO_TRACK int filepath = Some r ->
  success r = true ->
  get_metadata filepath = Some md ->
  (forall f o s,
     (f, (o, s)) ∈ sanitize_details r <->
     f ∈ [artist; album; title] /\ md_get md f = Some o /\ o <> [] /\
     s = sanitize_text o /\ s <> o) /\
  NoDup (fst <$> sanitize_details r) /\
  (was_sanitized r = true <->
   exists f o, f ∈ [artist; album; title] /\ md_get md f = Some o /\
               o <> [] /\ sanitize_text o <> o).
Proof.
  intros Hr Hs Hmd.
  destruct (process_file_success filepath r Hr Hs) as (md' & n & Hmd' & _ & _ & _ & ->).
  rewrite Hmd in Hmd'. injection Hmd' as <-. cbn [sanitize_details was_sanitized].
  split; [|split].
  - intros f o s. rewrite list_elem_of_In, in_flat_map. split.
    + intros (g & Hg%list_elem_of_In & Hin).
      destruct (field_changed md g) eqn:Hch; [|done].
      destruct Hin as [[= <- <- <-]|[]].
      apply field_changed_spec in Hch as (o & Ho & Hne & Hch).
      rewrite Ho. simpl. done.
    + intros (Hf & Ho & Hne & -> & Hch). exists f.
      split; [by apply list_elem_of_In|].
      rewrite (proj2 (field_changed_spec md f)) by eauto.
      rewrite Ho. by left.
  - cbn [flat_map].
    destruct (field_changed md artist), (field_changed md album),
      (field_changed md title); cbn; repeat constructor;
      rewrite ?elem_of_cons, ?elem_of_nil; intuition congruence.
  - rewrite !orb_true_iff, !field_changed_spec. split.
    + intros [[(o & ?)|(o & ?)]|(o & ?)];
        [exists artist, o | exists album, o | exists title, o];
        (split; [repeat constructor | done]).
    + intros (f & o & Hf & Hrest).
      rewrite !elem_of_cons, elem_of_nil in Hf.
      destruct Hf as [->|[->|[->|[]]]]; eauto.
Qed.

End PipelineOutcome.

Lemma no_invalid_Forall (s : str) :
  no_invalid s = true <-> Forall (fun c => mem_char c INVALID_CHARS = false) s.
Proof.
  unfold no_invalid. rewrite forallb_forall, Forall_forall. split.
  - intros H c Hc%list_elem_of_In. by apply negb_true_iff, H.
  - intros H c Hc%list_elem_of_In. by apply negb_true_iff, H.
Qed.

(** The expansion of a template is made of characters of the template and
    of the values. *)
Lemma format_go_Forall (Q : char -> Prop) (kwargs : list (str * str)) :
  (forall k v, kw_lookup kwargs k = Some v -> Forall Q v) ->
  forall len (s : str) field out,
    (length s <= len)%nat -> Forall Q s ->
    format_go kwargs field s = Some out -> Forall Q out.
Proof.
  intros Hkw. induction len as [|len IH]; intros s field out Hlen Hs.
  - destruct s; [|simpl in Hlen; lia].
    destruct field; simpl; [done|]. intros [= <-]. constructor.
  - destruct s as [|c s]; [destruct field; simpl; [done|]; intros [= <-]; constructor|].
    simpl in Hlen. apply Forall_cons in Hs as [Hc Hs].
    destruct field as [nm|]; simpl.
    + destruct (c =? RBRACE).
      * destruct (kw_lookup kwargs nm) as [v|] eqn:E; [|done].
        destruct (format_go kwargs None s) as [o|] eqn:Eo; [|done].
        simpl. intros [= <-]. apply Forall_app. split; [by eapply Hkw|].
        eapply IH; [| |exact Eo]; [lia | done].
      * apply IH; [lia | done].
    + destruct (c =? LBRACE).
      * destruct s as [|c' s']; [done|]. simpl in Hlen.
        apply Forall_cons in Hs as [Hc' Hs'].
        destruct (c' =? LBRACE) eqn:E'.
        -- destruct (format_go kwargs None s') as [o|] eqn:Eo; [|done].
           simpl. intros [= <-]. apply N.eqb_eq in E' as ->.
           constructor; [done|]. eapply IH; [| |exact Eo]; [lia | done].
        -- apply IH; [simpl; lia | by constructor].
      * destruct (c =? RBRACE).
        -- destruct s as [|c' s']; [done|]. simpl in Hlen.
           apply Forall_cons in Hs as [Hc' Hs'].
           destruct (c' =? RBRACE) eqn:E'; [|done].
           destruct (format_go kwargs None s') as [o|] eqn:Eo; [|done].
           simpl. intros [= <-]. apply N.eqb_eq in E' as ->.
           constructor; [done|]. eapply IH; [| |exact Eo]; [lia | done].
        -- destruct (format_go kwargs None s) as [o|] eqn:Eo; [|done].
           simpl. intros [= <-]. constructor; [done|].
           eapply IH; [| |exact Eo]; [lia | done].
Qed.

Lemma uint_to_str_valid (d : Decimal.uint) : no_invalid (uint_to_str d) = true.
Proof. induction d; simpl; done. Qed.

Lemma format_02d_valid (n : Z) : no_invalid (format_02d n) = true.
Proof.
  destruct n as [|p|p]; [done| |].
  - unfold format_02d. destruct (_ <? _)%nat;
      [change (no_invalid (digit_char 0 :: ?s)) with (no_invalid s) |];
      apply uint_to_str_valid.
  - apply (uint_to_str_valid (Pos.to_uint p)).
Qed.

Lemma sanitized_value_valid (md : Metadata) (f : Field) :
  no_invalid (or_empty (sanitized_value md f)) = true.
Proof.
  unfold sanitized_value. destruct (truthy (md_get md f)) eqn:E.
  - apply no_invalid_Forall, sanitize_text_valid.
  - by destruct (md_get md f) as [[|? ?]|].
Qed.

Section PipelineNames.

Variable FILENAME_FORMAT : str.
Variable FILENAME_FORMAT_NO_TRACK : str.
Variable int : str -> option Z.
Context `{!TagLibrary} `{!SetIter Field}.

(** With templates of the fragment that [format] covers, [process_file]
    raises nothing. *)
Lemma process_file_total (filepath : str) :
  valid_template FILENAME_FORMAT -> valid_template FILENAME_FORMAT_NO_TRACK ->
  is_Some (process_file FILENAME_FORMAT FILENAME_FORMAT_NO_TRACK int filepath).
Proof.
  intros HF HN. unfold process_file.
  destruct (negb _); [eauto|].
  destruct (get_metadata filepath) as [metadata|]; [|eauto].
  destruct (missing_fields _ _ metadata) as [|g rest]; [|eauto].
  destruct (fold_left _ _ _) as [[sm details] was].
  rewrite generate_new_filename_eq.
  match goal with
  | |- context [format ?f (format_kwargs ?a ?b ?c ?d)] =>
      destruct (valid_template_format f a b c d) as [v ->];
        [by destruct (_ && _)|]
  end.
  simpl. eauto.
Qed.

(** X9.  For templates made only of literal text, doubled braces and the
    plain fields [{artist}], [{album}], [{track}] and [{title}] (no
    conversion, format spec, attribute or index: the fragment of
    [str.format] that [format] covers), free of platform-invalid
    characters, and a track number free of them (or none): [process_file]
    returns an outcome, and if it is a success its new name is free of
    them too and is a text followed by a supported extension.  The track
    number is the one value the pipeline does not sanitize. *)
Theorem new_name_valid (filepath : str) (md : Metadata) :
  valid_template FILENAME_FORMAT ->
  valid_template FILENAME_FORMAT_NO_TRACK ->
  no_invalid FILENAME_FORMAT = true ->
  no_invalid FILENAME_FORMAT_NO_TRACK = true ->
  get_metadata filepath = Some md ->
  no_invalid (or_empty (md_track_number md)) = true ->
  exists r,
    process_file FILENAME_FORMAT FILENAME_FORMAT_NO_TRACK int filepath = Some r /\
    (success r = true ->
     exists base ext,
       new_name r = Some (base ++ ext) /\
       ext ∈ SUPPORTED_EXTENSIONS /\
       no_invalid (base ++ ext) = true).
Proof.
  intros HvF HvN HF HN Hmd Htrack.
  destruct (process_file_total filepath HvF HvN) as [r Hr].
  exists r. split; [done|]. intros Hs.
  destruct (process_file_success _ _ int filepath r Hr Hs)
    as (md' & n & Hmd' & Hext & _ & Hgen & ->).
  rewrite Hmd in Hmd'. injection Hmd' as <-.
  rewrite generate_new_filename_eq in Hgen. cbn [md_get] in Hgen.
  destruct (format _ _) as [base|] eqn:Hfmt; [|done].
  injection Hgen as <-. apply bool_decide_eq_true in Hext.
  exists base, (lower (suffix (parse_path filepath))).
  split; [done|]. split; [done|].
  apply no_invalid_Forall, Forall_app. split.
  - unfold format in Hfmt.
    eapply (format_go_Forall _ _ _ _ _ None base (Nat.le_refl _)); [| exact Hfmt].
    destruct (_ && _); by apply no_invalid_Forall.
  - apply no_invalid_Forall.
    unfold SUPPORTED_EXTENSIONS in Hext.
    repeat (apply elem_of_cons in Hext as [->|Hext]; [by vm_compute|]).
    by apply elem_of_nil in Hext.
  Unshelve.
  intros k v. unfold format_kwargs. cbn [kw_lookup].
  repeat (destruct (str_eqb _ k);
          [intros [= <-]; apply no_invalid_Forall;
           first [apply sanitized_value_valid | idtac] |]); try done.
  unfold track_padded. destruct (truthy (md_track_number md)); [|done].
  destruct (int _); [apply format_02d_valid | done].
Qed.

End PipelineNames.

Section PipelineUnreadable.

Variable FILENAME_FORMAT : str.
Variable FILENAME_FORMAT_NO_TRACK : str.
Variable int : str -> option Z.
Context `{!TagLibrary} `{!SetIter Field}.

(** X10.  An easy tag that is present with an empty list of values makes the
    whole file unreadable: taking its first value raises, [get_metadata]
    answers [None] whatever the other tags hold, and a file with a
    supported extension fails with the reason for unreadable metadata. *)
Theorem empty_tag_list_unreadable (filepath : str)
    (audio : str -> option (list str)) (key : str) :
  MutagenFile filepath = Some (Some audio) ->
  endswith (lower filepath) (u ".m4a") || endswith (lower filepath) (u ".mp4") =
    false ->
  key ∈ [u "artist"; u "album"; u "title"; u "tracknumber"] ->
  audio key = Some [] ->
  get_metadata filepath = None /\
  (lower (suffix (parse_path filepath)) ∈ SUPPORTED_EXTENSIONS ->
   process_file FILENAME_FORMAT FILENAME_FORMAT_NO_TRACK int filepath =
   Some (MkRenameResult filepath None false
           (Some (u "Could not read metadata")) false [])).
Proof.
  intros Hfile Hext Hkey Hempty.
  assert (get_metadata filepath = None) as Hnone.
  { unfold get_metadata. rewrite Hfile, Hext.
    destruct (entry_0 (audio (u "artist"))) as [a|] eqn:Ea; [|done].
    destruct (entry_0 (audio (u "album"))) as [b|] eqn:Eb; [|done].
    destruct (entry_0 (audio (u "title"))) as [c|] eqn:Ec; [|done].
    destruct (entry_0 (audio (u "tracknumber"))) as [d|] eqn:Ed; [|done].
    repeat (apply elem_of_cons in Hkey as [->|Hkey]);
      [..|by apply elem_of_nil in Hkey];
      rewrite Hempty in *; discriminate. }
  split; [done|]. intros Hsup. unfold process_file.
  rewrite bool_decide_eq_true_2 by done. cbn [negb]. by rewrite Hnone.
Qed.

End PipelineUnreadable.

(** * Further properties of the scanner *)

(** X11.  The scanner lists, each once, exactly the entries strictly below the
    root whose name ends with a supported extension spelled all in lower
    case or all in upper case. *)
Theorem audio_files_spec `{I : !SetIter str} `{J : !SetIter Path}
    (fs : filesystem) (dir : Path) :
  NoDup (audio_files fs dir) /\
  forall p,
    p ∈ audio_files fs dir <->
    p ∈ dom fs /\ is_below dir p = true /\
    exists ext, ext ∈ SUPPORTED_EXTENSIONS /\
      (endswith (name p) ext = true \/ endswith (name p) (upper ext) = true).
Proof.
  split; [apply audio_files_NoDup|]. intros p.
  rewrite elem_of_audio_files. unfold scanned_name.
  assert (forall ext, ext ∈ SUPPORTED_EXTENSIONS ->
            mem_char 42 ext = false /\ mem_char 42 (upper ext) = false) as Hplain.
  { intros ext Hext. unfold SUPPORTED_EXTENSIONS in Hext.
    repeat (apply elem_of_cons in Hext as [->|Hext]; [by vm_compute|]).
    by apply elem_of_nil in Hext. }
  split; intros (Hdom & Hbelow & ext & Hext & Hm);
    (split; [done|]; split; [done|]; exists ext; split; [done|]);
    destruct (Hplain ext Hext) as [H1 H2].
  - by rewrite !fnmatch_star in Hm.
  - by rewrite !fnmatch_star.
Qed.

(** * Further properties of the collision handling *)

Lemma rfind_Some (c : char) (s : str) (i : nat) :
  rfind c s = Some i ->
  exists a b, s = a ++ c :: b /\ length a = i /\ mem_char c b = false.
Proof.
  revert i. induction s as [|x s IH]; intros i; simpl; [done|].
  destruct (rfind c s) as [j|] eqn:E.
  - intros [= <-]. destruct (IH j eq_refl) as (a & b & -> & <- & Hb).
    by exists (x :: a), b.
  - destruct (x =? c) eqn:Ex; [|done]. intros [= <-].
    apply N.eqb_eq in Ex as ->. exists [], s. split; [done|]. split; [done|].
    clear IH. induction s as [|y s IHs]; [done|]. simpl in E.
    destruct (rfind c s); [done|]. destruct (y =? c) eqn:Ey; [done|].
    rewrite mem_char_cons, N.eqb_sym, Ey. by apply IHs.
Qed.

Lemma rfind_absent (c : char) (b : str) :
  mem_char c b = false -> rfind c b = None.
Proof.
  induction b as [|y b IH]; [done|]. rewrite mem_char_cons.
  intros [Hy Hb]%orb_false_elim. simpl. rewrite IH by done.
  by rewrite N.eqb_sym, Hy.
Qed.

Lemma rfind_last (c : char) (a b : str) :
  mem_char c b = false -> rfind c (a ++ c :: b) = Some (length a).
Proof.
  intros Hb. induction a as [|x a IH]; simpl.
  - by rewrite rfind_absent, N.eqb_refl.
  - by rewrite IH.
Qed.

Lemma name_numbered (dir : Path) (base ext : str) (k : nat) :
  mem_char SLASH base = false -> mem_char SLASH ext = false ->
  name (numbered dir base ext k) = numbered_name base ext k.
Proof.
  intros Hb He. rewrite numbered_eq by done. unfold name. cbn [parts].
  apply last_last.
Qed.

Lemma suffix_index_last_dot (a b : str) :
  a <> [] -> b <> [] -> mem_char DOT b = false ->
  suffix_index (a ++ DOT :: b) = Some (length a).
Proof.
  intros Ha Hb Hdot. unfold suffix_index. rewrite rfind_last by done.
  destruct a as [|x a]; [done|]. destruct b as [|y b]; [done|].
  assert ((0 <? length (x :: a))%nat &&
          (length (x :: a) <? length ((x :: a) ++ DOT :: y :: b) - 1)%nat = true)
    as ->; [|done].
  apply andb_true_iff. split; apply Nat.ltb_lt; rewrite ?length_app; simpl; lia.
Qed.

(** A name with a suffix is its stem, a dot, and a dot-free rest. *)
Lemma suffix_shape (p : Path) :
  suffix p <> [] ->
  exists b, suffix p = DOT :: b /\ b <> [] /\ mem_char DOT b = false.
Proof.
  unfold suffix, suffix_index.
  destruct (rfind DOT (name p)) as [i|] eqn:Ei; [|done].
  destruct (_ && _) eqn:Hi; [|done].
  apply andb_true_iff in Hi as [_ Hi]. apply Nat.ltb_lt in Hi.
  apply rfind_Some in Ei as (a & b & Hn & <- & Hdot). rewrite Hn in *.
  rewrite drop_app_length. intros _. exists b. split; [done|]. split; [|done].
  rewrite length_app in Hi. simpl in Hi. destruct b; [simpl in Hi; lia | done].
Qed.

Lemma suffix_stem_at (p : Path) (n : str) (i : nat) :
  name p = n -> suffix_index n = Some i ->
  suffix p = drop i n /\ stem p = take i n.
Proof. unfold suffix, stem. by intros -> ->. Qed.

(** X12.  A numbered candidate keeps the extension of the destination it stands
    in for: its suffix is the destination's, and its stem is the
    destination's stem followed by the number in parentheses. *)
Theorem numbered_keeps_suffix (dir dest : Path) (k : nat) :
  wf_path dest = true -> suffix dest <> [] ->
  suffix (numbered dir (stem dest) (suffix dest) k) = suffix dest /\
  stem (numbered dir (stem dest) (suffix dest) k) =
    stem dest ++ u " (" ++ nat_to_str k ++ u ")".
Proof.
  intros Hwf Hsuf.
  pose proof (stem_no_slash dest Hwf) as Hb.
  pose proof (suffix_no_slash dest Hwf) as He.
  destruct (suffix_shape dest Hsuf) as (b & Eb & Hbne & Hdot).
  assert (suffix_index (numbered_name (stem dest) (suffix dest) k) =
          Some (length (stem dest ++ u " (" ++ nat_to_str k ++ u ")"))) as Hidx.
  { unfold numbered_name. rewrite Eb.
    replace (stem dest ++ u " (" ++ nat_to_str k ++ u ")" ++ DOT :: b)
      with ((stem dest ++ u " (" ++ nat_to_str k ++ u ")") ++ DOT :: b)
      by (by rewrite <- !app_assoc).
    apply suffix_index_last_dot; [|done|done].
    intros H%(f_equal length). rewrite !length_app in H. simpl in H. lia. }
  destruct (suffix_stem_at _ _ _
              (name_numbered dir (stem dest) (suffix dest) k Hb He) Hidx)
    as [-> ->].
  unfold numbered_name.
  replace (stem dest ++ u " (" ++ nat_to_str k ++ u ")" ++ suffix dest)
    with ((stem dest ++ u " (" ++ nat_to_str k ++ u ")") ++ suffix dest)
    by (by rewrite <- !app_assoc).
  by rewrite drop_app_length, take_app_length.
Qed.

(** * Further properties of the scan *)

Lemma filter_success_length (l : list RenameResult) :
  (length (filter (fun r => success r = true) l) +
   length (filter (fun r => success r = false) l) = length l)%nat.
Proof.
  induction l as [|r l IH]; [done|].
  destruct (success r) eqn:E.
  - rewrite filter_cons_True, filter_cons_False by (by rewrite ?E). simpl. lia.
  - rewrite filter_cons_False, filter_cons_True by (by rewrite ?E). simpl. lia.
Qed.

Section ScanProperties.

Variable FILENAME_FORMAT : str.
Variable FILENAME_FORMAT_NO_TRACK : str.
Variable int : str -> option Z.
Context `{!TagLibrary} `{!SetIter Field} `{!SetIter str} `{!SetIter Path}.

Lemma process_file_original_path (filepath : str) (r : RenameResult) :
  process_file FILENAME_FORMAT FILENAME_FORMAT_NO_TRACK int filepath = Some r ->
  original_path r = filepath.
Proof.
  unfold process_file.
  destruct (negb _); [by intros [= <-]|].
  destruct (get_metadata filepath) as [md|]; [|by intros [= <-]].
  destruct (missing_fields _ _ md); [|by intros [= <-]].
  destruct (fold_left _ _ _) as [[sm d] w].
  destruct (generate_new_filename _ _ _ _ _); [|done]. by intros [= <-].
Qed.

Lemma process_file_new_name (filepath : str) (r : RenameResult) :
  process_file FILENAME_FORMAT FILENAME_FORMAT_NO_TRACK int filepath = Some r ->
  success r = true -> is_Some (new_name r).
Proof.
  intros Hr Hs.
  destruct (process_file_success _ _ _ _ _ Hr Hs) as (md & n & _ & _ & _ & _ & ->).
  simpl. eauto.
Qed.

Lemma classify_spec (paths : list Path) (s0 f0 s f : list RenameResult) :
  classify FILENAME_FORMAT FILENAME_FORMAT_NO_TRACK int paths s0 f0 = Scanned s f ->
  exists outcomes,
    Forall2
      (fun p r =>
         process_file FILENAME_FORMAT FILENAME_FORMAT_NO_TRACK int (path_str p) =
         Some r)
      paths outcomes /\
    s = s0 ++ filter (fun r => success r = true) outcomes /\
    f = f0 ++ filter (fun r => success r = false) outcomes.
Proof.
  revert s0 f0. induction paths as [|p paths IH]; intros s0 f0; simpl.
  - intros [= <- <-]. exists []. by rewrite !app_nil_r.
  - destruct (process_file _ _ _ (path_str p)) as [r|] eqn:Er; [|done].
    destruct (success r) eqn:Es; intros Hc;
      destruct (IH _ _ Hc) as (outcomes & Hall & -> & ->);
      exists (r :: outcomes); (split; [by constructor|]).
    + rewrite filter_cons_True, filter_cons_False by (by rewrite ?Es).
      by rewrite <- app_assoc.
    + rewrite filter_cons_False, filter_cons_True by (by rewrite ?Es).
      by rewrite <- app_assoc.
Qed.

Lemma scan_outcomes (fs : filesystem) (directory : str)
    (s f : list RenameResult) :
  scan_directory FILENAME_FORMAT FILENAME_FORMAT_NO_TRACK int fs directory =
    Scanned s f ->
  path_is_dir fs (parse_path directory) = true /\
  exists outcomes,
    Forall2
      (fun p r =>
         process_file FILENAME_FORMAT FILENAME_FORMAT_NO_TRACK int (path_str p) =
           Some r /\
         original_path r = path_str p)
      (audio_files fs (parse_path directory)) outcomes /\
    s = filter (fun r => success r = true) outcomes /\
    f = filter (fun r => success r = false) outcomes /\
    (length s + length f = length (audio_files fs (parse_path directory)))%nat.
Proof.
  unfold scan_directory.
  destruct (path_exists fs (parse_path directory)); [|done].
  destruct (path_is_dir fs (parse_path directory)); [|done]. simpl.
  intros (outcomes & Hall & -> & ->)%classify_spec. split; [done|].
  exists outcomes. split; [|split; [done|split; [done|]]].
  - eapply Forall2_impl; [exact Hall|]. intros p r Hr. split; [done|].
    by apply process_file_original_path in Hr.
  - simpl. rewrite filter_success_length.
    symmetry. by eapply Forall2_length.
Qed.

(** X13.  A scan that returns has found the root to be a directory; its two
    lists are the outcomes of the enumerated files that succeeded and that
    failed, in the order of the enumeration, every file having exactly one
    outcome, which carries the file's own path. *)
Theorem scan_directory_partition (fs : filesystem) (directory : str)
    (s f : list RenameResult) :
  scan_directory FILENAME_FORMAT FILENAME_FORMAT_NO_TRACK int fs directory =
    Scanned s f ->
  path_is_dir fs (parse_path directory) = true /\
  exists outcomes,
    Forall2
      (fun p r =>
         process_file FILENAME_FORMAT FILENAME_FORMAT_NO_TRACK int (path_str p) =
           Some r /\
         original_path r = path_str p)
      (audio_files fs (parse_path directory)) outcomes /\
    s = filter (fun r => success r = true) outcomes /\
    f = filter (fun r => success r = false) outcomes /\
    (length s + length f = length (audio_files fs (parse_path directory)))%nat.
Proof. apply scan_outcomes. Qed.

End ScanProperties.

Lemma path_is_dir_exists (fs : filesystem) (p : Path) :
  path_is_dir fs p = true -> path_exists fs p = true.
Proof.
  unfold path_is_dir, path_exists. by destruct (fs_lookup fs p) as [[|]|].
Qed.

(** * Further properties of the executor *)

Lemma parent_joinpath_single (dir : Path) (n : str) :
  wf_part n = true -> parent (joinpath dir n) = dir.
Proof.
  intros Hn. rewrite joinpath_single by done. unfold parent. cbn [is_abs parts].
  rewrite removelast_last. by destruct dir.
Qed.

Lemma and_then_returns (r : ExecState * ending)
    (k : ExecState -> ExecState * ending) :
  r.2 = Returned -> (forall st, (k st).2 = Returned) ->
  (r >>> k).2 = Returned.
Proof. destruct r as [st e]. simpl. intros ->. auto. Qed.

(** The cases of one round of a loop: whether the destination collides,
    what the copy does and which calls of [print] return. *)
Ltac exec_step env :=
  match goal with
  | |- context [path_exists ?a ?b] => destruct (path_exists a b)
  | |- context [print_ok env ?k] => destruct (print_ok env k) eqn:?
  | |- context [copy2 ?a ?b ?c ?d] => destruct (copy2 a b c d) as [? [|]]
  end.

(** No call of [print] failed where all of them return. *)
Ltac exec_all_printed env :=
  match goal with
  | E : print_ok env _ = false, H : forall k, print_ok env k = true |- _ =>
      by rewrite H in E
  end.

Ltac exec_cases env :=
  unfold print;
  repeat (cbn [negb files copies prints copied_count sanitized_count
                 failed_count errors fst snd];
          exec_step env);
  cbn [negb files copies prints copied_count sanitized_count
         failed_count errors fst snd].

Section ExecutorAccounts.

Variable env : Env.

(** Printing touches nothing but the count of the prints. *)
Lemma print_all_counts (n : nat) (st st' : ExecState) e :
  print_all env n st = (st', e) ->
  files st' = files st /\ copies st' = copies st /\
  copied_count st' = copied_count st /\
  sanitized_count st' = sanitized_count st /\
  failed_count st' = failed_count st /\ errors st' = errors st.
Proof.
  revert st. induction n as [|n IH]; intros st; [by intros [= <- <-]|].
  cbn [print_all]. unfold print.
  destruct (print_ok env (prints st)); [|by intros [= <- <-]].
  intros H%IH. by cbn in H.
Qed.

Lemma print_all_returns (n : nat) (st : ExecState) :
  (forall k, print_ok env k = true) -> (print_all env n st).2 = Returned.
Proof.
  intros Hok. revert st. induction n as [|n IH]; intros st; [done|].
  cbn [print_all]. unfold print. rewrite Hok. apply IH.
Qed.

(** What one round of the loop over [successful] does to the counters:
    it counts a copy, records an error, or both (when the message of a
    finished copy fails). *)
Lemma copy_success_counts (output_path : Path) (st st' : ExecState)
    (r : RenameResult) :
  copy_success env output_path st r = (st', Returned) ->
  failed_count st' = failed_count st /\
  (copied_count st <= copied_count st' <= S (copied_count st))%nat /\
  (length (errors st) <= length (errors st') <= S (length (errors st)))%nat /\
  (S (copied_count st + length (errors st)) <=
   copied_count st' + length (errors st'))%nat /\
  (sanitized_count st <= sanitized_count st')%nat /\
  (sanitized_count st' + copied_count st <=
   sanitized_count st + copied_count st')%nat /\
  (copies st <= copies st' <= S (copies st))%nat /\
  ((forall k, print_ok env k = true) ->
   (copied_count st' + length (errors st') =
    S (copied_count st + length (errors st)))%nat /\
   copies st' = S (copies st)).
Proof.
  unfold copy_success. destruct (new_name r); [|done].
  destruct (resolve_collision _ _ _); [|done].
  exec_cases env; intros [= <-]; cbn; rewrite ?length_app; cbn;
    destruct (was_sanitized r);
    (repeat split; intros; try lia; exec_all_printed env).
Qed.

Lemma copy_failed_counts (failed_path : Path) (st st' : ExecState)
    (r : RenameResult) :
  copy_failed env failed_path st r = (st', Returned) ->
  copied_count st' = copied_count st /\
  sanitized_count st' = sanitized_count st /\
  (failed_count st <= failed_count st' <= S (failed_count st))%nat /\
  (length (errors st) <= length (errors st') <= S (length (errors st)))%nat /\
  (S (failed_count st + length (errors st)) <=
   failed_count st' + length (errors st'))%nat /\
  copies st' = S (copies st) /\
  ((forall k, print_ok env k = true) ->
   (failed_count st' + length (errors st') =
    S (failed_count st + length (errors st)))%nat).
Proof.
  unfold copy_failed. destruct (resolve_collision _ _ _); [|done].
  exec_cases env; intros [= <-]; cbn; rewrite ?length_app; cbn;
    (repeat split; intros; try lia; exec_all_printed env).
Qed.

Lemma success_loop_counts (output_path : Path) (rs : list RenameResult)
    (st st' : ExecState) :
  for_each (copy_success env output_path) st rs = (st', Returned) ->
  failed_count st' = failed_count st /\
  (copied_count st <= copied_count st' <= copied_count st + length rs)%nat /\
  (length (errors st) <= length (errors st') <=
   length (errors st) + length rs)%nat /\
  (copied_count st + length (errors st) + length rs <=
   copied_count st' + length (errors st'))%nat /\
  (sanitized_count st' + copied_count st <=
   sanitized_count st + copied_count st')%nat /\
  (copies st <= copies st' <= copies st + length rs)%nat /\
  ((forall k, print_ok env k = true) ->
   (copied_count st' + length (errors st') =
    copied_count st + length (errors st) + length rs)%nat /\
   copies st' = (copies st + length rs)%nat).
Proof.
  revert st. induction rs as [|r rs IH]; intros st; simpl.
  - intros [= <-]. repeat split; lia.
  - destruct (copy_success env output_path st r) as [st1 [| |]] eqn:E;
      [|done|done].
    apply copy_success_counts in E. intros H%IH.
    destruct E as (? & ? & ? & ? & ? & ? & ? & E), H as (? & ? & ? & ? & ? & ? & H).
    repeat split; intros; try lia;
      match goal with
      | Hok : forall k, print_ok env k = true |- _ =>
          specialize (E Hok); specialize (H Hok); lia
      end.
Qed.

Lemma failed_loop_counts (failed_path : Path) (rs : list RenameResult)
    (st st' : ExecState) :
  for_each (copy_failed env failed_path) st rs = (st', Returned) ->
  copied_count st' = copied_count st /\
  sanitized_count st' = sanitized_count st /\
  (failed_count st <= failed_count st' <= failed_count st + length rs)%nat /\
  (length (errors st) <= length (errors st') <=
   length (errors st) + length rs)%nat /\
  (failed_count st + length (errors st) + length rs <=
   failed_count st' + length (errors st'))%nat /\
  copies st' = (copies st + length rs)%nat /\
  ((forall k, print_ok env k = true) ->
   (failed_count st' + length (errors st') =
    failed_count st + length (errors st) + length rs)%nat).
Proof.
  revert st. induction rs as [|r rs IH]; intros st; simpl.
  - intros [= <-]. repeat split; lia.
  - destruct (copy_failed env failed_path st r) as [st1 [| |]] eqn:E;
      [|done|done].
    apply copy_failed_counts in E. intros H%IH.
    destruct E as (? & ? & ? & ? & ? & ? & E), H as (? & ? & ? & ? & ? & ? & H).
    repeat split; intros; try lia;
      match goal with
      | Hok : forall k, print_ok env k = true |- _ =>
          specialize (E Hok); specialize (H Hok); lia
      end.
Qed.

Lemma ensure_dir_counts (st st' : ExecState) (p : Path) e :
  ensure_dir env st p = (st', e) ->
  copies st' = copies st /\ copied_count st' = copied_count st /\
  sanitized_count st' = sanitized_count st /\
  failed_count st' = failed_count st /\ errors st' = errors st.
Proof.
  unfold ensure_dir. destruct (path_exists (files st) p); [by intros [= <- <-]|].
  destruct (mkdir_parents _ _ _ _ _) as [fs' [|]]; [|by intros [= <- <-]].
  intros H%print_all_counts. cbn in H. tauto.
Qed.

Lemma execute_tally (successful failed : list RenameResult)
    (output_dir : str) (fs : filesystem) (st : ExecState) :
  execute_copy_rename env successful failed output_dir fs = (st, Returned) ->
  (copied_count st <= length successful)%nat /\
  (failed_count st <= length failed)%nat /\
  (sanitized_count st <= copied_count st)%nat /\
  (length (errors st) <= length successful + length failed)%nat /\
  (length successful + length failed <=
   copied_count st + failed_count st + length (errors st))%nat /\
  (copies st <= length successful + length failed)%nat /\
  ((forall k, print_ok env k = true) ->
   (copied_count st + failed_count st + length (errors st) =
    length successful + length failed)%nat /\
   copies st = (length successful + length failed)%nat).
Proof.
  unfold execute_copy_rename.
  intros (st1 & E1 & H)%and_then_returned.
  apply ensure_dir_counts in E1 as (C1 & C2 & C3 & C4 & Herr1).
  cbn [initial_state copies copied_count sanitized_count failed_count errors]
    in C1, C2, C3, C4, Herr1.
  apply and_then_returned in H as (st2 & E2 & H).
  assert (copies st2 = copies st1 /\ copied_count st2 = copied_count st1 /\
          sanitized_count st2 = sanitized_count st1 /\
          failed_count st2 = failed_count st1 /\ errors st2 = errors st1)
    as (? & ? & ? & ? & Herr2).
  { destruct failed; [by injection E2 as <- | by eapply ensure_dir_counts]. }
  apply and_then_returned in H as (st3 & E3 & H).
  apply print_all_counts in E3 as (_ & ? & ? & ? & ? & Herr3).
  apply and_then_returned in H as (st4 & E4 & H).
  apply success_loop_counts in E4 as (? & ? & ? & ? & ? & ? & E4).
  apply and_then_returned in H as (st5 & E5 & H).
  apply print_all_counts in H as (_ & ? & ? & ? & ? & Herr6).
  rewrite Herr3, Herr2, Herr1 in *. cbn [length] in *.
  apply (f_equal length) in Herr6.
  destruct failed as [|r rest].
  - injection E5 as <-. cbn [length].
    repeat split; intros; try lia;
      match goal with
      | Hok : forall k, print_ok env k = true |- _ => specialize (E4 Hok); lia
      end.
  - apply and_then_returned in E5 as (st5' & E5' & E5).
    apply print_all_counts in E5' as (_ & ? & ? & ? & ? & Herr5).
    apply failed_loop_counts in E5 as (? & ? & ? & ? & ? & ? & E5).
    rewrite Herr5 in *. cbn [length] in *.
    repeat split; intros; try lia;
      match goal with
      | Hok : forall k, print_ok env k = true |- _ =>
          specialize (E4 Hok); specialize (E5 Hok); lia
      end.
Qed.

(** X15.  When a run returns, every result handed to the executor is
    accounted for at least once: it was counted as copied to the output
    tree or to the failed tree, or its copy is listed among the errors,
    and a result is both counted and listed when its copy succeeded but
    the message about it could not be printed.  No counter exceeds the
    number of results it is about; and when no call of [print] fails,
    every result is accounted for exactly once and one copy was attempted
    for each. *)
Theorem execute_accounts (successful failed : list RenameResult)
    (output_dir : str) (fs : filesystem) (st : ExecState) :
  execute_copy_rename env successful failed output_dir fs = (st, Returned) ->
  (copied_count st <= length successful)%nat /\
  (failed_count st <= length failed)%nat /\
  (sanitized_count st <= copied_count st)%nat /\
  (length (errors st) <= length successful + length failed)%nat /\
  (length successful + length failed <=
   copied_count st + failed_count st + length (errors st))%nat /\
  (copies st <= length successful + length failed)%nat /\
  ((forall k, print_ok env k = true) ->
   (copied_count st + failed_count st + length (errors st) =
    length successful + length failed)%nat /\
   copies st = (length successful + length failed)%nat).
Proof. apply execute_tally. Qed.

Lemma copy_success_returns (output_path : Path) (st : ExecState)
    (r : RenameResult) :
  wf_path output_path = true -> is_Some (new_name r) ->
  (copy_success env output_path st r).2 = Returned.
Proof.
  intros Hwf [n Hn]. unfold copy_success. rewrite Hn.
  destruct (resolve_collision_spec (files st) output_path _
              (wf_joinpath output_path n Hwf)) as (p & -> & _).
  by exec_cases env.
Qed.

Lemma copy_failed_returns (failed_path : Path) (st : ExecState)
    (r : RenameResult) :
  wf_path failed_path = true ->
  (copy_failed env failed_path st r).2 = Returned.
Proof.
  intros Hwf. unfold copy_failed.
  destruct (resolve_collision_spec (files st) failed_path _
              (wf_joinpath failed_path
                 (name (parse_path (original_path r))) Hwf)) as (p & -> & _).
  by exec_cases env.
Qed.

Lemma for_each_returns
    (body : ExecState -> RenameResult -> ExecState * ending)
    (rs : list RenameResult) (st : ExecState) :
  Forall (fun r => forall st, (body st r).2 = Returned) rs ->
  (for_each body st rs).2 = Returned.
Proof.
  intros Hall. revert st. induction Hall as [|r rs Hr _ IH]; intros st; [done|].
  simpl. specialize (Hr st). destruct (body st r) as [st' e]. simpl in Hr.
  subst e. apply IH.
Qed.

Lemma ensure_dir_child (st : ExecState) (dir : Path) (n : str) :
  wf_part n = true -> path_is_dir (files st) dir = true ->
  mkdir_denied env (joinpath dir n) = false ->
  (forall k, print_ok env k = true) ->
  (ensure_dir env st (joinpath dir n)).2 = Returned.
Proof.
  intros Hn Hdir Hfree Hok. unfold ensure_dir.
  destruct (path_exists (files st) (joinpath dir n)) eqn:Hex; [done|].
  assert (os_mkdir (mkdir_denied env) (files st) (joinpath dir n) =
          inl (<[joinpath dir n := Dir]> (files st))) as Hmk.
  { unfold os_mkdir. rewrite parent_joinpath_single, Hfree by done.
    unfold path_exists in Hex. unfold path_is_dir in Hdir.
    destruct (fs_lookup (files st) (joinpath dir n)); [done|].
    by destruct (fs_lookup (files st) dir) as [[|]|]. }
  destruct (length (parts (joinpath dir n))); cbn [mkdir_parents];
    rewrite Hmk; by apply print_all_returns.
Qed.

Lemma execute_returned (successful failed : list RenameResult)
    (output_dir : str) (fs : filesystem) :
  path_is_dir fs (parse_path output_dir) = true ->
  Forall (fun r => is_Some (new_name r)) successful ->
  mkdir_denied env (joinpath (parse_path output_dir) (u "_failed")) = false ->
  (forall k, print_ok env k = true) ->
  (execute_copy_rename env successful failed output_dir fs).2 = Returned.
Proof.
  intros Hdir Hnames Hfree Hok. unfold execute_copy_rename.
  pose proof (wf_parse_path output_dir) as Hout.
  pose proof (wf_joinpath _ (u "_failed") Hout) as Hfailed.
  unfold ensure_dir at 1. cbn [files initial_state].
  rewrite (path_is_dir_exists _ _ Hdir). cbn [and_then].
  apply and_then_returns.
  { destruct failed as [|r rest]; [done|].
    by apply (ensure_dir_child (initial_state fs)). }
  intros st2. apply and_then_returns; [by apply print_all_returns|].
  intros st3. apply and_then_returns.
  { apply for_each_returns. eapply Forall_impl; [exact Hnames|].
    intros r Hr st. by apply copy_success_returns. }
  intros st4. apply and_then_returns; [|intros; by apply print_all_returns].
  destruct failed as [|r rest]; [done|].
  apply and_then_returns; [by apply print_all_returns|].
  intros st5. apply for_each_returns. apply Forall_forall. intros r' _ st.
  by apply copy_failed_returns.
Qed.

(** X16.  Failures inside the loops never abort a run.  When the output
    folder exists as a directory, every success has a new name, the folder
    [_failed] is not refused and no call of [print] fails, the run
    returns, whatever faults the copies meet. *)
Theorem execute_returns (successful failed : list RenameResult)
    (output_dir : str) (fs : filesystem) :
  path_is_dir fs (parse_path output_dir) = true ->
  Forall (fun r => is_Some (new_name r)) successful ->
  mkdir_denied env (joinpath (parse_path output_dir) (u "_failed")) = false ->
  (forall k, print_ok env k = true) ->
  (execute_copy_rename env successful failed output_dir fs).2 = Returned.
Proof. apply execute_returned. Qed.

End ExecutorAccounts.

(** ** The folders a run creates *)

Lemma path_is_dir_mono (fs fs' : filesystem) (p : Path) :
  fs ⊆ fs' -> path_is_dir fs p = true -> path_is_dir fs' p = true.
Proof.
  intros Hsub. unfold path_is_dir, fs_lookup.
  destruct (parts p); [done|].
  destruct (fs !! p) as [[|]|] eqn:E; try done.
  by rewrite (lookup_weaken _ _ _ _ E Hsub).
Qed.

Lemma os_mkdir_dir denied (fs fs' : filesystem) (p : Path) :
  os_mkdir denied fs p = inl fs' -> fs' = <[p := Dir]> fs /\ parts p <> [].
Proof.
  unfold os_mkdir, fs_lookup at 1.
  destruct (parts p) eqn:Hp; [done|].
  destruct (fs !! p); [done|].
  destruct (fs_lookup fs (parent p)) as [[|]|]; try done.
  destruct (denied p); [done|].
  by intros [= <-].
Qed.

Lemma path_is_dir_insert (fs : filesystem) (p : Path) :
  path_is_dir (<[p := Dir]> fs) p = true.
Proof.
  unfold path_is_dir, fs_lookup. destruct (parts p); [done|].
  by rewrite lookup_insert_eq.
Qed.

(** [mkdir] with [parents=True] that returns leaves a directory at its
    path. *)
Lemma mkdir_parents_dir denied depth (fs fs' : filesystem) (p : Path) :
  mkdir_parents denied depth false fs p = (fs', true) ->
  path_is_dir fs' p = true.
Proof.
  destruct depth as [|d]; simpl.
  - destruct (os_mkdir denied fs p) as [fs1|[]] eqn:E; try done.
    intros [= <-]. apply os_mkdir_dir in E as [-> _]. apply path_is_dir_insert.
  - destruct (os_mkdir denied fs p) as [fs1|[]] eqn:E; try done.
    + intros [= <-]. apply os_mkdir_dir in E as [-> _]. apply path_is_dir_insert.
    + destruct (mkdir_parents denied d true fs (parent p)) as [fs1 [|]]; [|done].
      destruct (os_mkdir denied fs1 p) as [fs2|e] eqn:E2; [|done].
      intros [= <-]. apply os_mkdir_dir in E2 as [-> _]. apply path_is_dir_insert.
Qed.

(** It adds directories only. *)
Lemma mkdir_parents_new denied depth exist_ok (fs : filesystem) (p q : Path)
    (x : node) :
  (mkdir_parents denied depth exist_ok fs p).1 !! q = Some x ->
  fs !! q = Some x \/ x = Dir.
Proof.
  assert (forall (g g' : filesystem) r, os_mkdir denied g r = inl g' ->
            g' !! q = Some x -> g !! q = Some x \/ x = Dir) as Hone.
  { intros g g' r [-> _]%os_mkdir_dir.
    destruct (decide (r = q)) as [->|Hne].
    - rewrite lookup_insert_eq. intros [= <-]. by right.
    - rewrite lookup_insert_ne by done. by left. }
  revert exist_ok fs p. induction depth as [|d IH]; intros exist_ok fs p; simpl.
  - destruct (os_mkdir denied fs p) as [fs'|[]] eqn:E; simpl; eauto.
  - destruct (os_mkdir denied fs p) as [fs'|[]] eqn:E; simpl; eauto.
    pose proof (IH true fs (parent p)) as Hpar.
    destruct (mkdir_parents denied d true fs (parent p)) as [fs1 [|]];
      simpl in *; [|done].
    destruct (os_mkdir denied fs1 p) as [fs2|e] eqn:E2; simpl; [|done].
    intros [H|H]%(Hone _ _ _ E2); eauto.
Qed.

Section ExecutorFolders.

Variable env : Env.

Lemma ensure_dir_makes (st st' : ExecState) (p : Path) :
  ensure_dir env st p = (st', Returned) ->
  path_exists (files st) p = false -> path_is_dir (files st') p = true.
Proof.
  unfold ensure_dir. intros H Hnone. rewrite Hnone in H.
  destruct (mkdir_parents _ _ _ _ _) as [fs' [|]] eqn:E; [|done].
  apply (print_all_counts env) in H as [-> _]. simpl.
  by eapply mkdir_parents_dir.
Qed.

Lemma ensure_dir_new (st : ExecState) (p q : Path) (x : node) :
  files (ensure_dir env st p).1 !! q = Some x ->
  files st !! q = Some x \/ x = Dir.
Proof.
  unfold ensure_dir. destruct (path_exists (files st) p); [by left|].
  pose proof (mkdir_parents_new (mkdir_denied env) (length (parts p)) false
                (files st) p q x) as H.
  destruct (mkdir_parents _ _ _ _ _) as [fs' [|]]; [|done].
  destruct (print_all_files env 1 (with_files st fs')) as [-> _]. done.
Qed.

(** X17.  A run that returns has created the folders that were missing: the
    output folder, and, when there are failures, the folder [_failed]
    below it. *)
Theorem execute_creates_folders (successful failed : list RenameResult)
    (output_dir : str) (fs : filesystem) (st : ExecState) :
  execute_copy_rename env successful failed output_dir fs = (st, Returned) ->
  (path_exists fs (parse_path output_dir) = false ->
   path_is_dir (files st) (parse_path output_dir) = true) /\
  (failed <> [] ->
   path_exists fs (joinpath (parse_path output_dir) (u "_failed")) = false ->
   path_is_dir (files st) (joinpath (parse_path output_dir) (u "_failed")) = true).
Proof.
  unfold execute_copy_rename.
  pose proof (wf_parse_path output_dir) as Hout.
  pose proof (wf_joinpath _ (u "_failed") Hout) as Hfailed.
  set (out := parse_path output_dir) in *.
  set (fp := joinpath out (u "_failed")) in *.
  intros (st1 & E1 & H)%and_then_returned.
  apply and_then_returned in H as (st2 & E2 & H).
  apply and_then_returned in H as (st3 & E3 & H).
  apply (print_all_counts env) in E3 as [F3 _].
  apply and_then_returned in H as (st4 & E4 & H).
  destruct (for_each_subseteq (copy_success env out) successful st3) as [H4 _];
    [intros; by apply copy_success_subseteq|].
  rewrite E4 in H4. cbn [fst] in H4. rewrite F3 in H4.
  apply and_then_returned in H as (st5 & E5 & H).
  apply (print_all_counts env) in H as [F6 _]. rewrite F6.
  assert (files st4 ⊆ files st5) as H5.
  { destruct failed as [|r rest]; [by injection E5 as <-|].
    apply and_then_returned in E5 as (st5' & E5' & E5).
    apply (print_all_counts env) in E5' as [F5 _].
    destruct (for_each_subseteq (copy_failed env fp) (r :: rest) st5')
      as [H5 _]; [intros; by apply copy_failed_subseteq|].
    rewrite E5 in H5. cbn [fst] in H5. by rewrite F5 in H5. }
  assert (files st2 ⊆ files st5) as H25 by (by etransitivity).
  assert (files st1 ⊆ files st2) as H12.
  { destruct failed as [|r rest]; [by injection E2 as <-|].
    destruct (ensure_dir_subseteq env st1 fp) as [H2 _]. by rewrite E2 in H2. }
  split.
  - intros Hnone. apply (path_is_dir_mono (files st1)); [by etransitivity|].
    by eapply ensure_dir_makes.
  - intros Hne Hnone. destruct failed as [|r rest]; [done|].
    eapply path_is_dir_mono; [exact H25|].
    destruct (path_exists (files st1) fp) eqn:Hex;
      [|by eapply ensure_dir_makes].
    unfold ensure_dir in E2. rewrite Hex in E2. injection E2 as <-.
    apply path_exists_false in Hnone as [Hnone _].
    unfold path_exists, path_is_dir, fs_lookup in *.
    destruct (parts fp) eqn:Hparts; [done|].
    destruct (files st1 !! fp) as [x|] eqn:Hx; [|done].
    pose proof (ensure_dir_new (initial_state fs) out fp x) as Hnew.
    rewrite E1 in Hnew. simpl in Hnew.
    destruct (Hnew Hx) as [Hold | ->]; [congruence | done].
Qed.

End ExecutorFolders.

Lemma fs_lookup_file (fs : filesystem) (p : Path) (data : list Byte.byte) :
  fs_lookup fs p = Some (File data) -> fs !! p = Some (File data).
Proof. unfold fs_lookup. by destruct (parts p). Qed.

(** A copy that returns has created the destination with the source's
    bytes and changed nothing else. *)
Lemma copy2_returned (f : fault) (fs fs' : filesystem) (src dest : Path) :
  wf_path src = true -> wf_path dest = true ->
  path_exists fs dest = false ->
  copy2 f fs (path_str src) (path_str dest) = (fs', true) ->
  exists data,
    fs !! src = Some (File data) /\ fs' = <[dest := File data]> fs.
Proof.
  intros Hsrc Hdest Hfree. unfold copy2. rewrite !parse_path_str by done.
  apply path_exists_false in Hfree as [Hnone Hnodir]. rewrite Hnodir.
  destruct (fs_lookup fs src) as [[data|]|] eqn:Es; [|done|done].
  destruct (bool_decide _); [done|]. rewrite Hnodir.
  destruct (negb _); [done|].
  destruct f as [|[part|]]; intros [= <-].
  exists data. split; [by apply fs_lookup_file | done].
Qed.

Section ExecutorCopies.

Variable env : Env.

(** X18.  A success is counted as copied only when the file system gained
    exactly one entry, at the destination that collision handling chose
    below the output folder, holding the bytes of the original. *)
Theorem counted_copy_is_exact (output_dir : str) (st : ExecState)
    (r : RenameResult) :
  copied_count (copy_success env (parse_path output_dir) st r).1 =
    S (copied_count st) ->
  exists n dest data,
    new_name r = Some n /\
    resolve_collision (files st) (parse_path output_dir)
      (joinpath (parse_path output_dir) n) = Some dest /\
    files st !! parse_path (original_path r) = Some (File data) /\
    files st !! dest = None /\
    files (copy_success env (parse_path output_dir) st r).1 =
      <[dest := File data]> (files st).
Proof.
  pose proof (wf_parse_path output_dir) as Hout.
  unfold copy_success. destruct (new_name r) as [n|]; [|simpl; lia].
  pose proof (wf_joinpath _ n Hout) as Hdest.
  destruct (resolve_collision_spec (files st) (parse_path output_dir) _ Hdest)
    as (dest & Hres & _).
  rewrite Hres.
  destruct (resolve_collision_wf _ _ _ _ Hout Hdest Hres) as [Hwf Hfree].
  assert (forall k fs',
            copy2 (copy_fault env k) (files st)
              (path_str (parse_path (original_path r))) (path_str dest) =
              (fs', true) ->
            exists data,
              files st !! parse_path (original_path r) = Some (File data) /\
              fs' = <[dest := File data]> (files st)) as Hcopy.
  { intros k fs' Ec. apply copy2_returned in Ec; [done|apply wf_parse_path|done|done]. }
  assert (files st !! dest = None) as Hnone
    by (by apply path_exists_false in Hfree as [? _]).
  unfold print.
  destruct (path_exists (files st) (joinpath (parse_path output_dir) n));
    [destruct (print_ok env (prints st)); [|simpl; lia]|];
    cbn [negb files copies prints copied_count];
    (destruct (copy2 _ _ _ _) as [fs' [|]] eqn:Ec; [|simpl; lia];
     apply Hcopy in Ec as (data & Hsrc & ->); intros _;
     exists n, dest, data; repeat split; try done;
     by destruct (print_ok env _)).
Qed.

(** X19.  A failure is counted as copied only when the file system gained
    exactly one entry, below [_failed], holding the bytes of the
    original. *)
Theorem counted_failed_copy_is_exact (output_dir : str) (st : ExecState)
    (r : RenameResult) :
  failed_count
    (copy_failed env (joinpath (parse_path output_dir) (u "_failed")) st r).1 =
    S (failed_count st) ->
  exists dest data,
    resolve_collision (files st)
      (joinpath (parse_path output_dir) (u "_failed"))
      (joinpath (joinpath (parse_path output_dir) (u "_failed"))
         (name (parse_path (original_path r)))) = Some dest /\
    files st !! parse_path (original_path r) = Some (File data) /\
    files st !! dest = None /\
    files (copy_failed env (joinpath (parse_path output_dir) (u "_failed")) st r).1 =
      <[dest := File data]> (files st).
Proof.
  pose proof (wf_joinpath _ (u "_failed") (wf_parse_path output_dir)) as Hout.
  unfold copy_failed.
  pose proof (wf_joinpath _ (name (parse_path (original_path r))) Hout) as Hdest.
  destruct (resolve_collision_spec (files st)
              (joinpath (parse_path output_dir) (u "_failed")) _ Hdest)
    as (dest & Hres & _).
  rewrite Hres.
  destruct (resolve_collision_wf _ _ _ _ Hout Hdest Hres) as [Hwf Hfree].
  destruct (copy2 _ _ _ _) as [fs' [|]] eqn:Ec; [|simpl; lia].
  intros _.
  apply copy2_returned in Ec as (data & Hsrc & ->);
    [|apply wf_parse_path|done|done].
  exists dest, data. repeat split; try done.
  - by apply path_exists_false in Hfree as [? _].
  - unfold print. cbn [prints]. by destruct (print_ok env _).
Qed.

End ExecutorCopies.

(** * The scan and the executor together *)

Section ScanThenExecute.

Variable FILENAME_FORMAT : str.
Variable FILENAME_FORMAT_NO_TRACK : str.
Variable int : str -> option Z.
Variable env : Env.
Context `{!TagLibrary} `{!SetIter Field} `{!SetIter str} `{!SetIter Path}.

(** X20.  Executing what a scan returned, into an output folder that
    exists, in an environment where no call of [print] fails and the
    folder [_failed] is not refused: the run returns whatever faults the
    copies meet, every enumerated file is counted as copied to one of the
    two trees or listed among the errors, never both, and every entry the
    file system had is kept. *)
Theorem scan_then_execute (fs : filesystem) (source_dir output_dir : str)
    (s f : list RenameResult) :
  scan_directory FILENAME_FORMAT FILENAME_FORMAT_NO_TRACK int fs source_dir =
    Scanned s f ->
  path_is_dir fs (parse_path output_dir) = true ->
  mkdir_denied env (joinpath (parse_path output_dir) (u "_failed")) = false ->
  (forall k, print_ok env k = true) ->
  (execute_copy_rename env s f output_dir fs).2 = Returned /\
  (copied_count (execute_copy_rename env s f output_dir fs).1 +
   failed_count (execute_copy_rename env s f output_dir fs).1 +
   length (errors (execute_copy_rename env s f output_dir fs).1) =
   length (audio_files fs (parse_path source_dir)))%nat /\
  fs ⊆ files (execute_copy_rename env s f output_dir fs).1.
Proof.
  intros Hscan Hdir Hfree Hok.
  destruct (scan_outcomes _ _ _ _ _ _ _ Hscan)
    as (_ & outcomes & Hall & Hs & Hf & Hlen).
  assert (Forall (fun r => is_Some (new_name r)) s) as Hnames.
  { subst s. apply Forall_forall. intros r [Hsucc Hin]%list_elem_of_filter.
    apply list_elem_of_lookup_1 in Hin as [i Hi].
    destruct (Forall2_lookup_r _ _ _ _ _ Hall Hi) as (p & _ & Hr & _).
    by eapply process_file_new_name. }
  pose proof (execute_returned env s f output_dir fs Hdir Hnames Hfree Hok)
    as Hret.
  pose proof (execute_subseteq env s f output_dir fs) as [Hsub _].
  split; [done|]. split; [|done].
  destruct (execute_copy_rename env s f output_dir fs) as [st e] eqn:E.
  simpl in Hret. subst e.
  apply execute_tally in E as (_ & _ & _ & _ & _ & _ & E).
  destruct (E Hok) as [Htally _]. simpl. lia.
Qed.

End ScanThenExecute.

(** * Properties of the dry-run report *)

Lemma printed_block_app_l (block l1 l2 : list str) :
  printed_block block l1 -> printed_block block (l1 ++ l2).
Proof.
  intros (before & after & ->). exists before, (after ++ l2).
  by rewrite <- !app_assoc.
Qed.

Lemma printed_block_app_r (block l1 l2 : list str) :
  printed_block block l2 -> printed_block block (l1 ++ l2).
Proof.
  intros (before & after & ->). exists (l1 ++ before), after.
  by rewrite <- !app_assoc.
Qed.

Lemma printed_block_flat_map {A} (f : A -> list str) (x : A) (l : list A) :
  x ∈ l -> printed_block (f x) (flat_map f l).
Proof.
  intros (l1 & l2 & ->)%list_elem_of_split.
  exists (flat_map f l1), (flat_map f l2).
  by rewrite flat_map_app.
Qed.

(** X21.  Every failed file is in the report: its name, then its reason, then an
    empty line. *)
Theorem report_lists_every_failure (FILENAME_FORMAT : str)
    (successful failed : list RenameResult) (source_dir output_dir : Path)
    (r : RenameResult) :
  r ∈ failed ->
  printed_block
    [ u "  " ++ name (parse_path (original_path r));
      u "    Reason: " ++ fmt_opt (reason r);
      [] ]
    (print_dry_run_report FILENAME_FORMAT successful failed source_dir output_dir).
Proof.
  intros Hr. unfold print_dry_run_report.
  apply printed_block_app_r, printed_block_app_r, printed_block_app_r,
    printed_block_app_l.
  destruct failed as [|r0 rest] eqn:E; [by apply elem_of_nil in Hr|].
  rewrite <- E in *. apply printed_block_app_r.
  exact (printed_block_flat_map report_failed r failed Hr).
Qed.

(** X22.  Every sanitized success is in the report with each of its changed
    fields: its name, then for every entry of its sanitize details the
    value before and the value after, then its new name and an empty
    line. *)
Theorem report_lists_every_sanitized (FILENAME_FORMAT : str)
    (successful failed : list RenameResult) (source_dir output_dir : Path)
    (r : RenameResult) :
  r ∈ successful -> was_sanitized r = true ->
  printed_block
    ([ u "  " ++ name (parse_path (original_path r)) ] ++
     flat_map
       (fun d =>
          [ u "    " ++ field_key d.1 ++ u ": " ++ [QUOTE] ++ d.2.1 ++ [QUOTE];
            u "         " ++ [ARROW] ++ u " " ++ [QUOTE] ++ d.2.2 ++ [QUOTE] ])
       (sanitize_details r) ++
     [ u "    " ++ [ARROW] ++ u " " ++ fmt_opt (new_name r); [] ])
    (print_dry_run_report FILENAME_FORMAT successful failed source_dir output_dir).
Proof.
  intros Hr Hs. unfold print_dry_run_report.
  apply printed_block_app_r, printed_block_app_r, printed_block_app_l.
  assert (r ∈ List.filter was_sanitized successful) as Hin.
  { apply list_elem_of_In, filter_In. split; [by apply list_elem_of_In | done]. }
  destruct (List.filter was_sanitized successful) as [|r0 rest] eqn:E;
    [by apply elem_of_nil in Hin|].
  rewrite <- E in *. apply printed_block_app_r.
  exact (printed_block_flat_map report_sanitized r _ Hin).
Qed.

Lemma filter_partition_length {A} (f : A -> bool) (l : list A) :
  (length (List.filter (fun x => negb (f x)) l) + length (List.filter f l) =
   length l)%nat.
Proof.
  induction l as [|x l IH]; [done|]. simpl. destruct (f x); simpl; lia.
Qed.

Lemma summary_after {A} (l1 l2 l3 l4 : list A) (a b c : A) (rest : list A) :
  l1 ++ l2 ++ l3 ++ l4 ++ a :: b :: c :: rest =
  (l1 ++ l2 ++ l3 ++ l4 ++ [a; b; c]) ++ rest.
Proof. by rewrite <- !app_assoc. Qed.

(** X23.  The report ends with a summary whose numbers agree: the clean and the
    sanitized files together are the successes. *)
Theorem report_summary_adds_up (FILENAME_FORMAT : str)
    (successful failed : list RenameResult) (source_dir output_dir : Path) :
  exists before clean sanitized,
    (clean + sanitized = length successful)%nat /\
    print_dry_run_report FILENAME_FORMAT successful failed source_dir output_dir =
    before ++
    [ u "  Clean:     " ++ nat_to_str clean;
      u "  Sanitized: " ++ nat_to_str sanitized;
      u "  Failed:    " ++ nat_to_str (length failed);
      u "  Total:     " ++ nat_to_str (clean + sanitized) ++ u " success, " ++
        nat_to_str (length failed) ++ u " failed";
      [10] ++ u "To execute, set DRY_RUN = False and run again.";
      [] ].
Proof.
  unfold print_dry_run_report.
  set (clean := List.filter (fun r => negb (was_sanitized r)) successful).
  set (sanitized := List.filter was_sanitized successful).
  pose proof (filter_partition_length was_sanitized successful) as Hlen.
  fold clean sanitized in Hlen.
  eexists _, (length clean), (length sanitized).
  split; [exact Hlen|]. rewrite Hlen, summary_after. reflexivity.
Qed.

Lemma match_nil_length {A B} (c : list A) (x : list B) :
  match c with [] => [] | _ :: _ => x end =
  if (length c =? 0)%nat then [] else x.
Proof. by destruct c. Qed.

(** X24.  Of the clean files the report previews the first ten and only
    them.  Each of the first ten is printed, its name and then its new
    name; and nothing else about the clean files enters the report but
    their number: two lists of successes with the same sanitized files,
    the same first ten clean files and as many clean files give the same
    report. *)
Theorem report_previews_first_ten (FILENAME_FORMAT : str)
    (successful failed : list RenameResult) (source_dir output_dir : Path) :
  (forall i r,
     (i < 10)%nat ->
     List.filter (fun r => negb (was_sanitized r)) successful !! i = Some r ->
     printed_block
       [ u "  " ++ name (parse_path (original_path r));
         u "    " ++ [ARROW] ++ u " " ++ fmt_opt (new_name r) ]
       (print_dry_run_report FILENAME_FORMAT successful failed source_dir
          output_dir)) /\
  (forall others,
     List.filter was_sanitized others = List.filter was_sanitized successful ->
     take 10 (List.filter (fun r => negb (was_sanitized r)) others) =
       take 10 (List.filter (fun r => negb (was_sanitized r)) successful) ->
     length (List.filter (fun r => negb (was_sanitized r)) others) =
       length (List.filter (fun r => negb (was_sanitized r)) successful) ->
     print_dry_run_report FILENAME_FORMAT others failed source_dir output_dir =
     print_dry_run_report FILENAME_FORMAT successful failed source_dir
       output_dir).
Proof.
  split.
  - intros i r Hi Hr. unfold print_dry_run_report.
    set (clean := List.filter (fun r => negb (was_sanitized r)) successful) in *.
    assert (r ∈ take 10 clean) as Hin.
    { apply list_elem_of_lookup. exists i. by rewrite lookup_take_lt. }
    apply printed_block_app_r, printed_block_app_l.
    destruct clean as [|r0 rest] eqn:E; [done|]. rewrite <- E in *.
    apply printed_block_app_r, printed_block_app_l.
    exact (printed_block_flat_map report_clean r _ Hin).
  - intros others Hsan Htake Hlen. unfold print_dry_run_report.
    pose proof (filter_partition_length was_sanitized others) as H1.
    pose proof (filter_partition_length was_sanitized successful) as H2.
    rewrite <- H1, <- H2, !match_nil_length, Hsan, Htake, Hlen. reflexivity.
Qed.

(** * The further properties on the sample library *)

Lemma get_metadata_track_witness :
  mem_char SLASH (u "7") = false /\
  exists tags n total rest,
    @MP4 mp4_library (u "music/song.M4A") = Some (Some tags) /\
    mp4_trkn tags = Some ((n, total) :: rest) /\
    n <> 0%Z /\ u "7" = int_to_str n.
Proof.
  exact (@get_metadata_track mp4_library (u "music/song.M4A")
           (MkMetadata None None (Some (u "7")) (Some (u "Intro"))) (u "7")
           eq_refl eq_refl).
Defined.

Lemma sanitize_details_exact_witness :
  (forall f o s,
     (f, (o, s)) ∈ sanitize_details tnt_outcome <->
     f ∈ [artist; album; title] /\ md_get tnt_metadata f = Some o /\ o <> [] /\
     s = sanitize_text o /\ s <> o) /\
  NoDup (fst <$> sanitize_details tnt_outcome) /\
  (was_sanitized tnt_outcome = true <->
   exists f o, f ∈ [artist; album; title] /\ md_get tnt_metadata f = Some o /\
               o <> [] /\ sanitize_text o <> o).
Proof.
  apply (@sanitize_details_exact TNT_FORMAT TNT_FORMAT_NO_TRACK int_ascii
           tnt_library (elements_iter Field) (u "music/song.mp3")).
  - vm_compute. reflexivity.
  - reflexivity.
  - reflexivity.
Defined.

Lemma new_name_valid_witness :
  exists r,
    @process_file TNT_FORMAT TNT_FORMAT_NO_TRACK int_ascii tnt_library
      (elements_iter Field) (u "music/song.mp3") = Some r /\
    (success r = true ->
     exists base ext,
       new_name r = Some (base ++ ext) /\
       ext ∈ SUPPORTED_EXTENSIONS /\
       no_invalid (base ++ ext) = true).
Proof.
  refine (@new_name_valid TNT_FORMAT TNT_FORMAT_NO_TRACK int_ascii
            tnt_library (elements_iter Field) (u "music/song.mp3")
            tnt_metadata _ _ _ _ _ _).
  - vm_compute. by eexists.
  - vm_compute. by eexists.
  - reflexivity.
  - reflexivity.
  - reflexivity.
  - reflexivity.
Defined.

Lemma numbered_keeps_suffix_witness :
  suffix (numbered (PosixPath "/out") (u "X") (u ".mp3") 2) = u ".mp3" /\
  stem (numbered (PosixPath "/out") (u "X") (u ".mp3") 2) = u "X (2)".
Proof.
  apply (numbered_keeps_suffix (PosixPath "/out") (PosixPath "/out/X.mp3") 2).
  - reflexivity.
  - discriminate.
Defined.

Lemma scan_directory_partition_witness :
  path_is_dir music_fs (PosixPath "/m") = true /\
  exists outcomes,
    Forall2
      (fun p r =>
         @process_file TNT_FORMAT TNT_FORMAT_NO_TRACK int_ascii tnt_library
           (elements_iter Field) (path_str p) = Some r /\
         original_path r = path_str p)
      (@audio_files (elements_iter str) (elements_iter Path) music_fs
         (PosixPath "/m"))
      outcomes /\
    [tnt_scanned "/m/a.mp3"; tnt_scanned "/m/b.mp3"; tnt_scanned "/m/c.mp3"] =
      filter (fun r => success r = true) outcomes /\
    [] = filter (fun r => success r = false) outcomes /\
    (3 + 0 =
     length (@audio_files (elements_iter str) (elements_iter Path) music_fs
               (PosixPath "/m")))%nat.
Proof.
  apply (@scan_directory_partition TNT_FORMAT TNT_FORMAT_NO_TRACK int_ascii
           tnt_library (elements_iter Field) (elements_iter str)
           (elements_iter Path) music_fs (u "/m")
           [tnt_scanned "/m/a.mp3"; tnt_scanned "/m/b.mp3"; tnt_scanned "/m/c.mp3"]
           []).
  vm_compute. reflexivity.
Defined.

Lemma execute_accounts_witness :
  (copied_count choked_copies.1 <= 2)%nat /\
  (failed_count choked_copies.1 <= 1)%nat /\
  (sanitized_count choked_copies.1 <= copied_count choked_copies.1)%nat /\
  (length (errors choked_copies.1) <= 2 + 1)%nat /\
  (2 + 1 <=
   copied_count choked_copies.1 + failed_count choked_copies.1 +
   length (errors choked_copies.1))%nat /\
  (copies choked_copies.1 <= 2 + 1)%nat /\
  ((forall k, print_ok (choked_env 2) k = true) ->
   (copied_count choked_copies.1 + failed_count choked_copies.1 +
    length (errors choked_copies.1) = 2 + 1)%nat /\
   copies choked_copies.1 = (2 + 1)%nat).
Proof.
  refine (execute_accounts (choked_env 2)
            [renamed_to_X "/m/a.mp3"; renamed_to_X "/m/b.mp3"]
            [unsupported "/m/d.txt"] (u "/m") music_fs choked_copies.1 _).
  vm_compute. reflexivity.
Defined.

(** In that run the first file is both counted as copied and listed among
    the errors. *)
Example choked_run :
  choked_copies.2 = Returned /\
  files choked_copies.1 !! PosixPath "/m/X.mp3" = Some (File [Byte.x01]) /\
  copied_count choked_copies.1 = 2%nat /\
  failed_count choked_copies.1 = 1%nat /\
  errors choked_copies.1 =
    [u "Failed to copy a.mp3: codec can't encode character"].
Proof. vm_compute. repeat split; reflexivity. Qed.

Lemma execute_returns_witness : faulty_copies.2 = Returned.
Proof.
  apply (execute_returns faulty_env
           [renamed_to_X "/m/a.mp3"; renamed_to_X "/m/b.mp3"; renamed_to_X "/m/c.mp3"]
           [unsupported "/m/d.txt"] (u "/m") music_fs).
  - reflexivity.
  - repeat constructor; by eexists.
  - reflexivity.
  - reflexivity.
Defined.

Lemma counted_copy_is_exact_witness :
  exists n dest data,
    new_name (renamed_to_X "/m/a.mp3") = Some n /\
    resolve_collision music_fs (PosixPath "/m") (joinpath (PosixPath "/m") n) =
      Some dest /\
    music_fs !! PosixPath "/m/a.mp3" = Some (File data) /\
    music_fs !! dest = None /\
    files (copy_success faulty_env (PosixPath "/m") (initial_state music_fs)
             (renamed_to_X "/m/a.mp3")).1 =
      <[dest := File data]> music_fs.
Proof.
  apply (counted_copy_is_exact faulty_env (u "/m") (initial_state music_fs)
           (renamed_to_X "/m/a.mp3")).
  vm_compute. reflexivity.
Defined.

Lemma counted_failed_copy_is_exact_witness :
  exists dest data,
    resolve_collision (<[PosixPath "/m/_failed" := Dir]> music_fs)
      (joinpath (PosixPath "/m") (u "_failed"))
      (joinpath (joinpath (PosixPath "/m") (u "_failed"))
         (name (PosixPath "/m/d.txt"))) = Some dest /\
    <[PosixPath "/m/_failed" := Dir]> music_fs !! PosixPath "/m/d.txt" =
      Some (File data) /\
    <[PosixPath "/m/_failed" := Dir]> music_fs !! dest = None /\
    files (copy_failed faulty_env (joinpath (PosixPath "/m") (u "_failed"))
             (initial_state (<[PosixPath "/m/_failed" := Dir]> music_fs))
             (unsupported "/m/d.txt")).1 =
      <[dest := File data]> (<[PosixPath "/m/_failed" := Dir]> music_fs).
Proof.
  refine (counted_failed_copy_is_exact faulty_env (u "/m")
            (initial_state (<[PosixPath "/m/_failed" := Dir]> music_fs))
            (unsupported "/m/d.txt") _).
  vm_compute. reflexivity.
Defined.

Lemma scan_then_execute_witness :
  tnt_copies.2 = Returned /\
  (copied_count tnt_copies.1 + failed_count tnt_copies.1 +
   length (errors tnt_copies.1) =
   length (@audio_files (elements_iter str) (elements_iter Path) music_fs
             (PosixPath "/m")))%nat /\
  music_fs ⊆ files tnt_copies.1.
Proof.
  refine (@scan_then_execute TNT_FORMAT TNT_FORMAT_NO_TRACK int_ascii faulty_env
            tnt_library (elements_iter Field) (elements_iter str)
            (elements_iter Path) music_fs (u "/m") (u "/m")
            [tnt_scanned "/m/a.mp3"; tnt_scanned "/m/b.mp3"; tnt_scanned "/m/c.mp3"]
            [] _ _ _ _).
  - vm_compute. reflexivity.
  - reflexivity.
  - reflexivity.
  - reflexivity.
Defined.

Lemma report_lists_every_failure_witness :
  printed_block
    [ u "  d.txt"; u "    Reason: Unsupported format"; [] ]
    report_sample.
Proof.
  refine (report_lists_every_failure TNT_FORMAT
            [tnt_scanned "/m/a.mp3"; renamed_to_X "/m/b.mp3"; tnt_scanned "/m/c.mp3"]
            [unsupported "/m/d.txt"] (PosixPath "/m") (PosixPath "/out")
            (unsupported "/m/d.txt") _).
  apply list_elem_of_In. left. reflexivity.
Defined.

Lemma report_lists_every_sanitized_witness :
  printed_block
    [ u "  c.mp3";
      u "    artist: " ++ [QUOTE] ++ u "AC/DC" ++ [QUOTE];
      u "         " ++ [ARROW] ++ u " " ++ [QUOTE] ++ u "AC-DC" ++ [QUOTE];
      u "    " ++ [ARROW] ++ u " 03 T.N.T _ AC-DC.mp3";
      [] ]
    report_sample.
Proof.
  refine (report_lists_every_sanitized TNT_FORMAT
            [tnt_scanned "/m/a.mp3"; renamed_to_X "/m/b.mp3"; tnt_scanned "/m/c.mp3"]
            [unsupported "/m/d.txt"] (PosixPath "/m") (PosixPath "/out")
            (tnt_scanned "/m/c.mp3") _ _).
  - apply list_elem_of_In. right. right. left. reflexivity.
  - reflexivity.
Defined.

Lemma report_previews_first_ten_witness :
  printed_block
    [ u "  a.mp3"; u "    " ++ [ARROW] ++ u " X.mp3" ]
    (print_dry_run_report TNT_FORMAT twelve_clean [] (PosixPath "/m")
       (PosixPath "/out")) /\
  print_dry_run_report TNT_FORMAT
    (repeat (renamed_to_X "/m/a.mp3") 10 ++
     [renamed_to_X "/m/y.mp3"; renamed_to_X "/m/z.mp3"])
    [] (PosixPath "/m") (PosixPath "/out") =
  print_dry_run_report TNT_FORMAT twelve_clean [] (PosixPath "/m")
    (PosixPath "/out").
Proof.
  pose proof (report_previews_first_ten TNT_FORMAT twelve_clean []
                (PosixPath "/m") (PosixPath "/out")) as [Hfirst Honly].
  split.
  - apply (Hfirst 9%nat (renamed_to_X "/m/a.mp3")); [lia | reflexivity].
  - apply Honly; reflexivity.
Defined.

Lemma execute_creates_folders_witness :
  path_is_dir (files three_collisions.1) (PosixPath "/out") = true /\
  path_is_dir (files three_collisions.1)
    (joinpath (PosixPath "/out") (u "_failed")) = true.
Proof.
  pose proof (execute_creates_folders calm_env
                [renamed_to_X "/m/a.mp3"; renamed_to_X "/m/b.mp3";
                 renamed_to_X "/m/c.mp3"]
                [unsupported "/m/d.txt"; unsupported "/m/d.txt"]
                (u "/out") music_fs three_collisions.1) as H.
  destruct H as [Hout Hfailed]; [vm_compute; reflexivity|].
  split; [apply Hout | apply Hfailed]; try reflexivity. discriminate.
Defined.

Lemma empty_tag_list_unreadable_witness :
  @get_metadata (easy_library [(u "title", [u "T.N.T"]); (u "artist", [])])
    (u "music/song.mp3") = None /\
  (lower (suffix (parse_path (u "music/song.mp3"))) ∈ SUPPORTED_EXTENSIONS ->
   @process_file TNT_FORMAT TNT_FORMAT_NO_TRACK int_ascii
     (easy_library [(u "title", [u "T.N.T"]); (u "artist", [])])
     (elements_iter Field) (u "music/song.mp3") =
   Some (MkRenameResult (u "music/song.mp3") None false
           (Some (u "Could not read metadata")) false [])).
Proof.
  refine (@empty_tag_list_unreadable TNT_FORMAT TNT_FORMAT_NO_TRACK int_ascii
            (easy_library [(u "title", [u "T.N.T"]); (u "artist", [])])
            (elements_iter Field) (u "music/song.mp3")
            (fun key =>
               snd <$> List.find (fun kv => str_eqb (fst kv) key)
                         [(u "title", [u "T.N.T"]); (u "artist", [])])
            (u "artist") _ _ _ _).
  - reflexivity.
  - reflexivity.
  - apply list_elem_of_In. left. reflexivity.
  - reflexivity.
Defined.
